(** * The trace-replay engine of the sorting visualiser

    A shallow embedding of [src/visualise/visualiser.py] (class
    [SortingVisualiser]) and the properties of its rank codec, row sorter
    driver and frame synthesiser.

    Conventions of the embedding:
    - numpy arrays are lists ([replaced] is a list of rows of [Z], the
      float64 cells only ever hold integers); Python ints are [Z];
    - Python exceptions are values of [exn]; a computation that can raise
      returns an [outcome], one that also mutates the engine a [result]
      that carries the engine as it is when the exception leaves;
    - [while] loops take a fuel argument; [Timeout] is "fuel exhausted";
    - the sorting algorithms ([src.visualise.algorithms]) and the progress
      bar ([src.visualise.utilities]) are external: the algorithms are
      parameters of the engine, the progress bar does nothing, but its
      arguments are evaluated as Python does before the call. *)

From Stdlib Require Import ZArith Lia Strings.Byte.
From stdpp Require Import base numbers list gmap strings.

Local Open Scope Z_scope.

(** ** Python values and exceptions *)

Inductive exn : Set :=
| IndexError | KeyError | ValueError | TypeError | ZeroDivisionError.

Inductive outcome (A : Type) : Type :=
| Done (a : A)
| Raise (x : exn).
Arguments Done {A} a.
Arguments Raise {A} x.

Global Instance outcome_ret : MRet outcome := λ A a, Done a.
Global Instance outcome_bind : MBind outcome := λ A B f m,
  match m with
  | Done a => f a
  | Raise x => Raise x
  end.

(** [o ?! x]: the value of [o], or exception [x] when there is none. *)
Definition or_raise {A} (o : option A) (x : exn) : outcome A :=
  match o with
  | Some a => Done a
  | None => Raise x
  end.
Infix "?!" := or_raise (at level 50, left associativity).

(** [for x in xs: ...] collecting one value per element, stopping at the
    first exception. *)
Fixpoint for_each {A B} (f : A → outcome B) (xs : list A) : outcome (list B) :=
  match xs with
  | [] => Done []
  | x :: xs' => b ← f x; bs ← for_each f xs'; mret (b :: bs)
  end.

(** ** Python sequences *)

Module Py.

(** Index normalisation of [a[i]] on a sequence of length [n]: negative
    indices count from the end, anything outside [-n, n) is an
    IndexError. *)
Definition index (n : nat) (i : Z) : option nat :=
  if (0 <=? i) && (i <? Z.of_nat n) then Some (Z.to_nat i)
  else if (- Z.of_nat n <=? i) && (i <? 0) then Some (Z.to_nat (i + Z.of_nat n))
  else None.

(** A slice bound, clamped into [0, n] as [slice.indices] does. *)
Definition bound (n : nat) (i : Z) : nat :=
  if i <? 0 then Z.to_nat (Z.max 0 (i + Z.of_nat n))
  else Z.to_nat (Z.min i (Z.of_nat n)).

(** [l[lo:hi]]; never raises. *)
Definition slice {A} (l : list A) (lo hi : Z) : list A :=
  let a := bound (length l) lo in
  let b := bound (length l) hi in
  take (b - a)%nat (drop a l).

(** [a // b] and [a % b] on ints: floor division, the remainder has the
    sign of the divisor; a zero divisor raises. *)
Definition floordiv (a b : Z) : outcome Z :=
  if b =? 0 then Raise ZeroDivisionError else Done (a `div` b).
Definition modulo (a b : Z) : outcome Z :=
  if b =? 0 then Raise ZeroDivisionError else Done (a `mod` b).

(** [int(a / b)]: true division, then truncation towards zero. The
    quotient is a float in Python; for operands below 2^53 (trace
    lengths are) the truncated result is the exact truncated quotient. *)
Definition int_truediv (a b : Z) : outcome Z :=
  if b =? 0 then Raise ZeroDivisionError else Done (a `quot` b).

End Py.

(** ** numpy arrays *)

Module Np.

(** [a[lo:hi] = vals] on a one-dimensional array, for bounds that are
    not negative: the bounds are clamped to the array, the values are
    broadcast to the shape of the target, so their number is the length
    of the target slice, or one (the single value fills the slice);
    anything else is a ValueError. The array keeps its length. *)
Definition assign_slice (a : list Z) (lo hi : nat) (vals : list Z) : outcome (list Z) :=
  let lo := (lo `min` length a)%nat in
  let hi := (hi `min` length a)%nat in
  let m := (hi - lo)%nat in
  if decide (length vals = m) then
    Done (take lo a ++ vals ++ drop (lo + m) a)
  else
    match vals with
    | [v] => Done (take lo a ++ replicate m v ++ drop (lo + m) a)
    | _ => Raise ValueError
    end.

(** The same with a value that is a list of pairs: the target has one
    axis, so numpy reads the list as one axis of elements, finds a tuple
    where it needs a number and raises a ValueError; only the empty list
    is an array, of no value. *)
Definition assign_slice_pairs (a : list Z) (lo hi : nat) (vals : list (Z * Z))
  : outcome (list Z) :=
  match vals with
  | [] => assign_slice a lo hi []
  | _ :: _ => Raise ValueError
  end.

End Np.

(** ** The data model *)

(** A colour value: the channels of one cell of the uint8 image array. *)
Abbreviation pixel := (list byte).

(** The source image as [np.asarray(image, dtype="uint8")] holds it: an
    array of shape (height, width, depth). *)
Record image := Image {
  height : nat;
  width : nat;
  depth : nat;
  cells : list (list pixel)
}.

Definition well_shaped (im : image) : Prop :=
  length (cells im) = height im ∧
  Forall (λ r, length r = width im ∧ Forall (λ p, length p = depth im) r) (cells im).

(** [original[i, j]], for indices inside the shape. *)
Definition cell (im : image) (i j : nat) : pixel :=
  default [] (cells im !! i ≫= (.!! j)).

(** The trace of one row, as an algorithm returns it: the swaps made by an
    in-place algorithm, tuples (pixel_1_pos, pixel_2_pos), or the values an
    out-of-place algorithm wrote, pass after pass. *)
Inductive trace :=
| Swaps (l : list (Z * Z))
| Values (l : list Z).

(** [len(t)] *)
Definition len (t : trace) : Z :=
  match t with
  | Swaps l => Z.of_nat (length l)
  | Values l => Z.of_nat (length l)
  end.

Abbreviation algorithm := (list Z → trace).

(** The attributes of a [SortingVisualiser] instance that the engine
    reads or writes. *)
Record SortingVisualiser := Engine {
  original : image;
  rows : nat;
  columns : nat;
  replaced : list (list Z);
  replace_dict : list (gmap Z pixel);
  swaps : list trace;
  max_swaps : Z;
  sorting_methods : gmap string algorithm
}.

Definition set_replaced (e : SortingVisualiser) (g : list (list Z)) : SortingVisualiser :=
  Engine (original e) (rows e) (columns e) g (replace_dict e) (swaps e) (max_swaps e)
    (sorting_methods e).

Definition set_swaps (e : SortingVisualiser) (s : list trace) (m : Z) : SortingVisualiser :=
  Engine (original e) (rows e) (columns e) (replaced e) (replace_dict e) s m
    (sorting_methods e).

(** The engine [e'] is [e] with another rank grid. *)
Definition regridded (e e' : SortingVisualiser) : Prop :=
  e' = set_replaced e (replaced e').

(** A frame: the (rows, columns, 3) uint8 array that
    [_replace_with_pixels] returns. *)
Abbreviation frame := (list (list pixel)).

(** ** Rank codec *)

(** The body of the inner loop of [__replace_with_integers]:
    [temp_dict[j] = self.original[i, j]] and [replaced[i, j] = j]. *)
Definition encode_cell (im : image) (i : nat)
    (acc : list (list Z) * gmap Z pixel) (j : nat) : list (list Z) * gmap Z pixel :=
  let '(replaced, temp_dict) := acc in
  (alter (λ r, <[j := Z.of_nat j]> r) i replaced,
   <[Z.of_nat j := cell im i j]> temp_dict).

(** The body of its outer loop. *)
Definition encode_row (im : image)
    (acc : list (list Z) * list (gmap Z pixel)) (i : nat)
  : list (list Z) * list (gmap Z pixel) :=
  let '(replaced, replace_dict) := acc in
  let '(replaced, temp_dict) :=
    fold_left (encode_cell im i) (seq 0 (width im)) (replaced, ∅) in
  (replaced, replace_dict ++ [temp_dict]).

(** [__replace_with_integers] *)
Definition replace_with_integers (im : image) : list (list Z) * list (gmap Z pixel) :=
  fold_left (encode_row im) (seq 0 (height im))
    (replicate (height im) (replicate (width im) 0), []).

(** [pixel_array[row, column] = pixel], the target being three uint8
    channels: three channels are copied, one is broadcast, any other
    number does not fit. *)
Definition store_pixel (p : pixel) : outcome pixel :=
  match p with
  | [a; b; c] => Done [a; b; c]
  | [a] => Done [a; a; a]
  | _ => Raise ValueError
  end.

(** [_replace_with_pixels], on a rank grid and a replace map. *)
Definition decode (R C : nat) (grid : list (list Z)) (dict : list (gmap Z pixel))
  : outcome frame :=
  for_each (λ row,
    for_each (λ column,
      key ← (grid !! row ≫= (.!! column)) ?! IndexError;
      d ← (dict !! row) ?! IndexError;
      p ← (d !! key) ?! KeyError;
      store_pixel p) (seq 0 C)) (seq 0 R).

Definition replace_with_pixels (e : SortingVisualiser) : outcome frame :=
  decode (rows e) (columns e) (replaced e) (replace_dict e).

(** ** Computations on the engine *)

Inductive result (A : Type) : Type :=
| Ret (a : A) (e : SortingVisualiser)
| Exc (x : exn) (e : SortingVisualiser)
| Timeout.
Arguments Ret {A} a e.
Arguments Exc {A} x e.
Arguments Timeout {A}.

Definition M (A : Type) : Type := SortingVisualiser → result A.

Definition ret {A} (a : A) : M A := λ e, Ret a e.
Definition bind {A B} (m : M A) (k : A → M B) : M B := λ e,
  match m e with
  | Ret a e' => k a e'
  | Exc x e' => Exc x e'
  | Timeout => Timeout
  end.
Definition get : M SortingVisualiser := λ e, Ret e e.
Definition put (e : SortingVisualiser) : M unit := λ _, Ret () e.
Definition lift {A} (o : outcome A) : M A := λ e,
  match o with
  | Done a => Ret a e
  | Raise x => Exc x e
  end.

Notation "x <- m ;; k" := (bind m (λ x, k))
  (at level 100, m at next level, right associativity, only parsing).
Notation "m ;;; k" := (bind m (λ _, k))
  (at level 100, right associativity, only parsing).

(** [for x in xs: body(x)] *)
Fixpoint for_ {A} (xs : list A) (body : A → M unit) : M unit :=
  match xs with
  | [] => ret ()
  | x :: xs' => body x ;;; for_ xs' body
  end.

(** [range(n)] *)
Definition range (n : nat) : list nat := seq 0 n.

(** [self.replaced[row, :] = r] for a row [r] of the same length *)
Definition put_row (row : nat) (r : list Z) : M unit :=
  e <- get ;; put (set_replaced e (<[row := r]> (replaced e))).

(** [self.replaced[row, :]] *)
Definition get_row (row : nat) : M (list Z) :=
  e <- get ;; lift (replaced e !! row ?! IndexError).

(** The tuple assignment
    [replaced[row, i], replaced[row, j] = replaced[row, j], replaced[row, i]]:
    the right-hand side is read first, [j] before [i]. *)
Definition swap_cells (r : list Z) (i j : Z) : outcome (list Z) :=
  j' ← Py.index (length r) j ?! IndexError;
  vj ← r !! j' ?! IndexError;
  i' ← Py.index (length r) i ?! IndexError;
  vi ← r !! i' ?! IndexError;
  Done (<[j' := vi]> (<[i' := vj]> r)).

(** [__swap_pixels]. Unpacking [i, j] from a step that is a number is a
    TypeError. *)
Definition swap_pixels (row : nat) (start end_ : Z) : M unit :=
  e <- get ;;
  t <- lift (swaps e !! row ?! IndexError) ;;
  match t with
  | Swaps l =>
      for_ (Py.slice l start end_) (λ '(i, j),
        r <- get_row row ;;
        r' <- lift (swap_cells r i j) ;;
        put_row row r')
  | Values l =>
      match Py.slice l start end_ with
      | [] => ret ()
      | _ :: _ => lift (Raise TypeError)
      end
  end.

(** ** Construction *)

(** The module [src.visualise.algorithms], as far as the engine uses it. *)
Record algorithms := Algorithms {
  bubble_sort : algorithm;
  cocktail_sort : algorithm;
  selection_sort : algorithm;
  insertion_sort : algorithm;
  quick_sort : algorithm;
  heap_sort : algorithm;
  it_merge_sort : algorithm;
  radix_sort_lsd : algorithm;
  counting_sort : algorithm;
  my_sort : algorithm
}.

Definition registry (algos : algorithms) : gmap string algorithm :=
  list_to_map
    [ ("bubble_sort"%string, bubble_sort algos);
      ("cocktail_sort"%string, cocktail_sort algos);
      ("selection_sort"%string, selection_sort algos);
      ("insertion_sort"%string, insertion_sort algos);
      ("quick_sort"%string, quick_sort algos);
      ("heap_sort"%string, heap_sort algos);
      ("merge_sort"%string, it_merge_sort algos);
      ("radix_sort_lsd"%string, radix_sort_lsd algos);
      ("counting_sort"%string, counting_sort algos);
      ("my_sort"%string, my_sort algos) ].

(** [__reverse_image]: [np.flip] without an axis reverses the rows and
    every row. *)
Definition reverse_image (replaced : list (list Z)) : list (list Z) :=
  reverse (reverse <$> replaced).

(** [__randomise_image]; [shuffle i] is what [np.random.shuffle] does to
    row [i]. *)
Definition randomise_image (shuffle : nat → list Z → list Z) (replaced : list (list Z))
  : list (list Z) :=
  imap shuffle replaced.

(** [__init__] *)
Definition init (algos : algorithms) (shuffle : nat → list Z → list Z)
    (im : image) (randomise reverse_ : bool) : SortingVisualiser :=
  let '(replaced, replace_dict) := replace_with_integers im in
  let replaced := if randomise then randomise_image shuffle replaced else replaced in
  let replaced := if reverse_ then reverse_image replaced else replaced in
  Engine im (height im) (width im) replaced replace_dict [] 0 (registry algos).

(** ** Row sorter driver *)

(** [sort] *)
Definition sort (sorting_method : string) : M unit :=
  e <- get ;;
  for_ (range (rows e)) (λ row_index,
    row <- get_row row_index ;;
    e <- get ;;
    f <- lift (sorting_methods e !! sorting_method ?! KeyError) ;;
    let temp_swaps := f row in
    put (set_swaps e (swaps e ++ [temp_swaps]) (len temp_swaps `max` max_swaps e))).

(** ** Frame synthesiser *)

Section Replay.

(** What is appended to [frames]: [self._replace_with_pixels()] in
    [visualise] below; the rank grid itself in the ghost run
    [rank_frames], which records the state behind every frame. *)
Context {X : Type} (emit : SortingVisualiser → outcome X).

Definition snapshot : M X := e <- get ;; lift (emit e).

(** [extra], and [remainder] after the test *)
Definition take_extra (remainder : Z) : Z * Z :=
  if 0 <? remainder then (1, remainder - 1) else (0, remainder).

(** One turn of the [while] loop of the in-place branch, after [extra]
    is known: the swaps [start:end_] of every row, the new frame, and the
    argument [swap_num / self.max_swaps] of the progress bar. *)
Definition swap_frame (start end_ : Z) : M X :=
  e <- get ;;
  for_ (range (rows e)) (λ row, swap_pixels row start end_) ;;;
  f <- snapshot ;;
  lift (if max_swaps e =? 0 then Raise ZeroDivisionError else Done ()) ;;;
  ret f.

(** The [while] loop of the in-place branch. *)
Fixpoint swap_loop (fuel : nat) (swap_num swap_step remainder : Z) (frames : list X)
  : M (list X) :=
  match fuel with
  | O => λ _, Timeout
  | S fuel' =>
      e <- get ;;
      if swap_num <=? max_swaps e then
        let '(extra, remainder) := take_extra remainder in
        f <- swap_frame swap_num (swap_num + swap_step + extra) ;;
        let swap_num := swap_num + swap_step + extra in
        swap_loop fuel' swap_num swap_step remainder (frames ++ [f])
      else ret frames
  end.

(** [self.replaced[row, lo:hi] = self.swaps[row][a:b]] *)
Definition splice (row : nat) (lo hi : nat) (a b : Z) : M unit :=
  e <- get ;;
  t <- lift (swaps e !! row ?! IndexError) ;;
  r <- get_row row ;;
  r' <- lift (match t with
              | Values l => Np.assign_slice r lo hi (Py.slice l a b)
              | Swaps l => Np.assign_slice_pairs r lo hi (Py.slice l a b)
              end) ;;
  put_row row r'.

(** [len(self.swaps[0][a:b])] *)
Definition slice_len (t : trace) (a b : Z) : Z :=
  match t with
  | Swaps l => Z.of_nat (length (Py.slice l a b))
  | Values l => Z.of_nat (length (Py.slice l a b))
  end.

(** The two assignments to [pos_end]: where the write cursor is after
    the chunk [swap_num:swap_end]. *)
Definition cursor_end (e : SortingVisualiser) (pos swap_num swap_end : Z) : outcome Z :=
  t0 ← swaps e !! 0%nat ?! IndexError;
  let pos_end := slice_len t0 swap_num swap_end in
  Py.modulo (pos + pos_end) (Z.of_nat (columns e)).

(** The body of the [for row] loop of the out-of-place branch. *)
Definition splice_row (pos pos_end swap_num swap_end : Z) (row : nat) : M unit :=
  e <- get ;;
  if pos_end <? pos then
    let swap_amount := Z.of_nat (columns e) - pos in
    r <- get_row row ;;
    splice row (Z.to_nat pos) (length r) swap_num (swap_num + swap_amount) ;;;
    splice row 0 (Z.to_nat pos_end) (swap_num + swap_amount) swap_end
  else
    splice row (Z.to_nat pos) (Z.to_nat pos_end) swap_num swap_end.

(** One turn of the [while] loop of the out-of-place branch, after
    [extra] is known: the frame and the new cursor. *)
Definition splice_frame (pos swap_num swap_end : Z) : M (X * Z) :=
  e <- get ;;
  pos_end <- lift (cursor_end e pos swap_num swap_end) ;;
  for_ (range (rows e)) (splice_row pos pos_end swap_num swap_end) ;;;
  f <- snapshot ;;
  ret (f, pos_end).

(** The [while] loop of the out-of-place branch. *)
Fixpoint splice_loop (fuel : nat) (pos swap_num swap_step remainder : Z)
    (frames : list X) : M (list X) :=
  match fuel with
  | O => λ _, Timeout
  | S fuel' =>
      e <- get ;;
      if swap_num <? max_swaps e then
        let '(extra, remainder) := take_extra remainder in
        let swap_end := swap_num + swap_step + extra in
        fp <- splice_frame pos swap_num swap_end ;;
        let '(f, pos_end) := fp in
        let swap_num := swap_num + swap_step + extra in
        let pos := pos_end in
        splice_loop fuel' pos swap_num swap_step remainder (frames ++ [f])
      else ret frames
  end.

(** [type(self.swaps[0][0]) is tuple] *)
Definition first_is_tuple : M bool :=
  e <- get ;;
  t0 <- lift (swaps e !! 0%nat ?! IndexError) ;;
  match t0 with
  | Swaps (_ :: _) => ret true
  | Values (_ :: _) => ret false
  | Swaps [] | Values [] => lift (Raise IndexError)
  end.

(** [visualise] *)
Definition visualise_with (fuel : nat) (num_frames : Z) (sort_method : string)
  : M (list X) :=
  e <- get ;;
  (match swaps e with
   | [] => sort sort_method
   | _ :: _ => ret ()
   end) ;;;
  let num_frames := num_frames - 1 in
  f <- snapshot ;;
  let frames := [f] in
  in_place <- first_is_tuple ;;
  e <- get ;;
  if in_place then
    let swap_num := 0 in
    swap_step <- lift (Py.floordiv (max_swaps e) num_frames) ;;
    remainder <- lift (Py.modulo (max_swaps e) num_frames) ;;
    swap_loop fuel swap_num swap_step remainder frames
  else
    let pos := 0 in
    let swap_num := 0 in
    swap_step <- lift (Py.int_truediv (max_swaps e) num_frames) ;;
    remainder <- lift (Py.modulo (max_swaps e) num_frames) ;;
    splice_loop fuel pos swap_num swap_step remainder frames.

End Replay.

Definition visualise : nat → Z → string → M (list frame) :=
  visualise_with replace_with_pixels.

(** The ghost run: the rank grid behind every frame. *)
Definition rank_frames : nat → Z → string → M (list (list (list Z))) :=
  visualise_with (λ e, Done (replaced e)).

(** ** The chunks of a replay *)

(** The slices [(swap_num, swap_num + swap_step + extra)] that the two
    [while] loops visit, in order: the loops' own tests and updates of
    [swap_num] and [remainder], without the work on the grid
    ([swap_loop_chunks] and [splice_loop_chunks] below tie them to the
    loops). [None] when the fuel runs out. *)
Fixpoint swap_chunks (fuel : nat) (max_swaps swap_num swap_step remainder : Z)
  : option (list (Z * Z)) :=
  match fuel with
  | O => None
  | S fuel' =>
      if swap_num <=? max_swaps then
        let '(extra, remainder) := take_extra remainder in
        let swap_end := swap_num + swap_step + extra in
        cons (swap_num, swap_end) <$> swap_chunks fuel' max_swaps swap_end swap_step remainder
      else Some []
  end.

Fixpoint splice_chunks (fuel : nat) (max_swaps swap_num swap_step remainder : Z)
  : option (list (Z * Z)) :=
  match fuel with
  | O => None
  | S fuel' =>
      if swap_num <? max_swaps then
        let '(extra, remainder) := take_extra remainder in
        let swap_end := swap_num + swap_step + extra in
        cons (swap_num, swap_end) <$> splice_chunks fuel' max_swaps swap_end swap_step remainder
      else Some []
  end.

Section ReplayChunks.

Context {X : Type} (emit : SortingVisualiser → outcome X).

(** The in-place loop, chunk by chunk. *)
Fixpoint swap_frames (chunks : list (Z * Z)) (frames : list X) : M (list X) :=
  match chunks with
  | [] => ret frames
  | (start, end_) :: chunks' =>
      f <- swap_frame emit start end_ ;;
      swap_frames chunks' (frames ++ [f])
  end.

(** The out-of-place loop, chunk by chunk. *)
Fixpoint splice_frames (chunks : list (Z * Z)) (pos : Z) (frames : list X) : M (list X) :=
  match chunks with
  | [] => ret frames
  | (start, end_) :: chunks' =>
      fp <- splice_frame emit pos start end_ ;;
      splice_frames chunks' fp.2 (frames ++ [fp.1])
  end.

End ReplayChunks.

(** The start of chunk [k] when [max_swaps] is split into [n] chunks: the
    first [max_swaps mod n] chunks are one longer than the others. *)
Definition boundary (max_swaps n k : Z) : Z :=
  k * (max_swaps `div` n) + k `min` (max_swaps `mod` n).

Definition chunk_size (c : Z * Z) : Z := c.2 - c.1.

(** The chunks [k, k+1, ..., k+j-1] of that split. *)
Definition chunks_from (max_swaps n k : Z) (j : nat) : list (Z * Z) :=
  (λ i, (boundary max_swaps n (k + Z.of_nat i),
         boundary max_swaps n (k + Z.of_nat i + 1))) <$> seq 0 j.


(** Chunks that follow each other from [a] to [b]. *)
Fixpoint contiguous (chunks : list (Z * Z)) (a b : Z) : Prop :=
  match chunks with
  | [] => a = b
  | (start, end_) :: chunks' => start = a ∧ a ≤ end_ ∧ contiguous chunks' end_ b
  end.

(** ** The write cursor of a splice *)





(** ** Swaps on a row *)

(** A sequence of swaps applied to one row, in order. *)
Fixpoint apply_swaps (r : list Z) (ps : list (Z * Z)) : outcome (list Z) :=
  match ps with
  | [] => Done r
  | (i, j) :: ps' => r' ← swap_cells r i j; apply_swaps r' ps'
  end.

(** The ranks of a row: [0, ..., C-1]. *)
Definition ranks (C : nat) : list Z := Z.of_nat <$> seq 0 C.

(** What the loops of [__replace_with_integers] leave in one row of
    [replaced] and in its dictionary. *)
Definition row_ranks (r : list Z) (js : list nat) : list Z :=
  fold_left (λ r j, <[j := Z.of_nat j]> r) js r.

Definition row_dict (im : image) (i : nat) (js : list nat) (d : gmap Z pixel)
  : gmap Z pixel :=
  fold_left (λ d j, <[Z.of_nat j := cell im i j]> d) js d.

(** ** Stand-ins for the algorithms

    The repository's algorithms are not part of this development; to run
    the engine on concrete inputs, a bubble sort that records its swaps
    stands for an in-place algorithm, and a sort that returns the sorted
    values of its one pass for an out-of-place one. *)

Fixpoint bubble_pass (i a : Z) (t : list Z) : list Z * list (Z * Z) :=
  match t with
  | [] => ([a], [])
  | b :: t' =>
      if b <? a then
        let '(l, s) := bubble_pass (i + 1) a t' in (b :: l, (i, i + 1) :: s)
      else
        let '(l, s) := bubble_pass (i + 1) b t' in (a :: l, s)
  end.

Fixpoint bubble_passes (n : nat) (l : list Z) : list (Z * Z) :=
  match n, l with
  | S n', a :: t => let '(l', s) := bubble_pass 0 a t in s ++ bubble_passes n' l'
  | _, _ => []
  end.

Definition recording_bubble_sort : algorithm :=
  λ row, Swaps (bubble_passes (length row) row).

Fixpoint insert_sorted (a : Z) (l : list Z) : list Z :=
  match l with
  | [] => [a]
  | b :: t => if a <=? b then a :: l else b :: insert_sorted a t
  end.

Definition one_pass_sort : algorithm :=
  λ row, Values (foldr insert_sorted [] row).

Definition stand_ins : algorithms :=
  let a := recording_bubble_sort in
  let b := one_pass_sort in
  Algorithms a a a a a a b b b a.

(** ** Sample engines *)

(** A 1 x 2 RGB image. *)
Definition two_pixels : image :=
  Image 1 2 3 [[ [x01; x02; x03]; [x04; x05; x06] ]].

(** A 1 x 1 RGBA image. *)
Definition rgba_pixel : image :=
  Image 1 1 4 [[ [x01; x02; x03; xff] ]].

(** A 2 x 2 RGB image. *)
Definition four_pixels : image :=
  Image 2 2 3 [[ [x01; x02; x03]; [x04; x05; x06] ];
               [ [x07; x08; x09]; [x0a; x0b; x0c] ]].

(** No shuffle, and the shuffle that happens to reverse every row. *)
Definition keep : nat → list Z → list Z := λ _ r, r.
Definition flip : nat → list Z → list Z := λ _ r, reverse r.

(** The 1 x 2 image, not shuffled: its row is already sorted. *)
Definition sorted_engine : SortingVisualiser :=
  init stand_ins keep two_pixels false false.

(** The 1 x 2 image, its row shuffled to [1, 0]. *)
Definition shuffled_engine : SortingVisualiser :=
  init stand_ins flip two_pixels true false.

(** The shuffled engine after [sort("bubble_sort")]: one swap. *)
Definition swapped_engine : SortingVisualiser :=
  set_swaps shuffled_engine [Swaps [(0, 1)]] 1.

(** The shuffled engine after [sort("counting_sort")]: the sorted row. *)
Definition spliced_engine : SortingVisualiser :=
  set_swaps shuffled_engine [Values [0; 1]] 2.

(** The 2 x 2 image, not shuffled, with captured value traces of which
    the second is empty. *)
Definition ragged_engine : SortingVisualiser :=
  set_swaps (init stand_ins keep four_pixels false false) [Values [0; 1]; Values []] 2.

(** The 2 x 2 image with its first row shuffled to [1, 0], after
    [sort("bubble_sort")]: one swap in the first row, none in the
    second. *)
Definition flip_first : nat → list Z → list Z :=
  λ i r, match i with O => reverse r | S _ => r end.

Definition uneven_engine : SortingVisualiser :=
  set_swaps (init stand_ins flip_first four_pixels true false) [Swaps [(0, 1)]; Swaps []] 1.

(** What a run shows of the engine: the result, and the rank grid, traces
    and maximum trace length it leaves. *)
Definition observe {A} (r : result A)
  : option (outcome A * (list (list Z) * list trace * Z)) :=
  match r with
  | Ret a e => Some (Done a, (replaced e, swaps e, max_swaps e))
  | Exc x e => Some (Raise x, (replaced e, swaps e, max_swaps e))
  | Timeout => None
  end.

(** ** Well-formed engines *)

(** The codec of the engine is the one [__init__] builds from a
    rectangular RGB image. *)
Definition encoded (e : SortingVisualiser) : Prop :=
  well_shaped (original e) ∧ depth (original e) = 3%nat ∧
  rows e = height (original e) ∧ columns e = width (original e) ∧
  replace_dict e = (replace_with_integers (original e)).2.

(** A frame of shape (R, C, 3). *)
Definition frame_shaped (R C : nat) (f : frame) : Prop :=
  length f = R ∧ Forall (λ row, length row = C ∧ Forall (λ p, length p = 3%nat) row) f.

(** The pixel a dictionary holds for a rank. *)
Definition pixel_of (d : gmap Z pixel) (key : Z) : pixel := default [] (d !! key).

(** [max(len(t), m)] over the traces [ts], from left to right. *)
Definition longest (m : Z) (ts : list trace) : Z :=
  foldl (λ acc t, len t `max` acc) m ts.

(** Swaps whose positions are indices of a row of length [n]. *)
Definition valid_swaps (n : nat) (l : list (Z * Z)) : Prop :=
  Forall (λ p, - Z.of_nat n ≤ p.1 < Z.of_nat n ∧ - Z.of_nat n ≤ p.2 < Z.of_nat n) l.

(** An image without rows, and its engine. *)
Definition no_rows : image := Image 0 2 3 [].

Definition empty_engine : SortingVisualiser :=
  init stand_ins keep no_rows false false.

(** An engine ready for swap replay: its codec is that of an RGB image,
    the grid has its rows, every row holds the ranks 0, ..., C-1 once
    each, and every row has a trace of swaps of positions of the row that
    is not longer than the maximum. *)
Definition swap_ready (e : SortingVisualiser) : Prop :=
  encoded e ∧ length (replaced e) = rows e ∧
  Forall (λ r, r ≡ₚ ranks (columns e)) (replaced e) ∧
  ∀ row, (row < rows e)%nat →
    ∃ l, swaps e !! row = Some (Swaps l) ∧ Z.of_nat (length l) ≤ max_swaps e
         ∧ valid_swaps (columns e) l.

(** ** The grid behind a snapshot replay *)

(** A row of the grid after the first [s] values of its trace [l] were
    written at the cursor, which starts at column 0 and goes back to it
    after column [C - 1]: the column [j] holds the last of the values
    [l[i]], i < s, with i = j modulo C, and its old value when there is
    none. *)
Definition spliced (C : nat) (r l : list Z) (s : Z) : list Z :=
  imap (λ j x,
    if decide (Z.of_nat j < s)
    then default x (l !! Z.to_nat (s - 1 - (s - 1 - Z.of_nat j) `mod` Z.of_nat C))
    else x) r.

(** An engine ready for snapshot replay: its codec is that of an RGB
    image, the grid has its rows, at least one, of cells that hold ranks,
    and every row has a trace of ranks that is as long as the maximum. *)
Definition splice_ready (e : SortingVisualiser) : Prop :=
  encoded e ∧ length (replaced e) = rows e ∧ (0 < rows e)%nat ∧
  Forall (λ r, length r = columns e ∧ Forall (λ k, 0 ≤ k < Z.of_nat (columns e)) r)
    (replaced e) ∧
  ∀ row, (row < rows e)%nat →
    ∃ l, swaps e !! row = Some (Values l) ∧ Z.of_nat (length l) = max_swaps e
         ∧ Forall (λ k, 0 ≤ k < Z.of_nat (columns e)) l.

(** The engine [e1] is [e0] with every row of the grid spliced up to
    [s]. *)
Definition spliced_to (e0 e1 : SortingVisualiser) (s : Z) : Prop :=
  regridded e0 e1 ∧ length (replaced e1) = rows e0 ∧
  ∀ row r l, replaced e0 !! row = Some r → swaps e0 !! row = Some (Values l) →
    replaced e1 !! row = Some (spliced (columns e0) r l s).

(** * Properties *)

(** ** Rank codec *)

Lemma for_each_map {A B} (f : A → outcome B) (g : A → B) (xs : list A) :
  (∀ x, x ∈ xs → f x = Done (g x)) → for_each f xs = Done (g <$> xs).
Proof.
  induction xs as [|x xs IH]; intros Hf; [done|].
  cbn. rewrite Hf by left. cbn.
  rewrite IH; [done|]. intros y Hy. apply Hf. by right.
Qed.

(** The two accumulators of the inner loop do not depend on each other. *)
Lemma encode_cells im i js (rep : list (list Z)) (d : gmap Z pixel) :
  fold_left (encode_cell im i) js (rep, d)
  = (alter (λ r, row_ranks r js) i rep, row_dict im i js d).
Proof.
  revert rep d. induction js as [|j js IH]; intros rep d; cbn.
  - f_equal. symmetry. by apply list_alter_id.
  - rewrite IH. f_equal. by rewrite list_alter_alter_eq.
Qed.

Lemma encode_rows im is_ (rep : list (list Z)) (dicts : list (gmap Z pixel)) :
  fold_left (encode_row im) is_ (rep, dicts)
  = (fold_left (λ rep i, alter (λ r, row_ranks r (seq 0 (width im))) i rep) is_ rep,
     dicts ++ ((λ i, row_dict im i (seq 0 (width im)) ∅) <$> is_)).
Proof.
  revert rep dicts. induction is_ as [|i is_ IH]; intros rep dicts; cbn.
  - by rewrite app_nil_r.
  - rewrite encode_cells, IH. by rewrite <- app_assoc.
Qed.

Lemma row_ranks_length r js : length (row_ranks r js) = length r.
Proof.
  revert r. induction js as [|j js IH]; intros r; cbn; [done|].
  unfold row_ranks in IH. by rewrite IH, length_insert.
Qed.

Lemma row_ranks_lookup r js (j : nat) :
  j ∈ js → (j < length r)%nat → row_ranks r js !! j = Some (Z.of_nat j).
Proof.
  assert (Hkeep : ∀ js r, r !! j = Some (Z.of_nat j) →
                           row_ranks r js !! j = Some (Z.of_nat j)).
  { clear. induction js as [|k js IH]; intros r Hr; cbn; [done|].
    apply IH. destruct (decide (k = j)) as [->|Hne].
    - apply list_lookup_insert_eq. by eapply lookup_lt_Some.
    - by rewrite list_lookup_insert_ne. }
  revert r. induction js as [|k js IH]; intros r Hin Hlt.
  - by apply not_elem_of_nil in Hin.
  - cbn. destruct (decide (k = j)) as [->|Hne].
    + apply Hkeep. by apply list_lookup_insert_eq.
    + apply elem_of_cons in Hin as [?|Hin]; [congruence|].
      apply IH; [done|]. by rewrite length_insert.
Qed.

Lemma row_dict_lookup im i js d (j : nat) :
  j ∈ js → row_dict im i js d !! Z.of_nat j = Some (cell im i j).
Proof.
  assert (Hkeep : ∀ js d, d !! Z.of_nat j = Some (cell im i j) →
                           row_dict im i js d !! Z.of_nat j = Some (cell im i j)).
  { clear. induction js as [|k js IH]; intros d Hd; cbn; [done|].
    apply IH. destruct (decide (k = j)) as [->|Hne].
    - apply lookup_insert_eq.
    - rewrite lookup_insert_ne; [done|lia]. }
  revert d. induction js as [|k js IH]; intros d Hin.
  - by apply not_elem_of_nil in Hin.
  - cbn. destruct (decide (k = j)) as [->|Hne].
    + apply Hkeep, lookup_insert_eq.
    + apply elem_of_cons in Hin as [?|Hin]; [congruence|]. by apply IH.
Qed.

(** The rank grid after the rows [is_] have been encoded. *)
Lemma encoded_grid_lookup C is_ (rep : list (list Z)) (i j : nat) :
  i ∈ is_ → (j < C)%nat →
  (∃ r, rep !! i = Some r ∧ length r = C) →
  (fold_left (λ rep i, alter (λ r, row_ranks r (seq 0 C)) i rep) is_ rep
     !! i ≫= (.!! j)) = Some (Z.of_nat j).
Proof.
  intros Hin Hj.
  assert (Hkeep : ∀ is_ (rep : list (list Z)),
            (rep !! i ≫= (.!! j)) = Some (Z.of_nat j) →
            (∃ r, rep !! i = Some r ∧ length r = C) →
            (fold_left (λ rep i, alter (λ r, row_ranks r (seq 0 C)) i rep) is_ rep
               !! i ≫= (.!! j)) = Some (Z.of_nat j)).
  { clear Hin is_ rep. intros is_.
    induction is_ as [|k is_ IH]; intros rep Hrep Hrow; [done|]. cbn.
    destruct Hrow as (r & Hr & Hlen).
    apply IH.
    - destruct (decide (k = i)) as [->|Hne].
      + rewrite list_lookup_alter_eq, Hr. cbn.
        apply row_ranks_lookup; [|lia]. apply elem_of_seq. lia.
      + by rewrite list_lookup_alter_ne.
    - destruct (decide (k = i)) as [->|Hne].
      + rewrite list_lookup_alter_eq, Hr. cbn. eexists; split; [done|].
        by rewrite row_ranks_length.
      + rewrite list_lookup_alter_ne by done. eauto. }
  revert rep. induction is_ as [|k is_ IH]; intros rep (r & Hr & Hlen).
  - by apply not_elem_of_nil in Hin.
  - cbn. destruct (decide (k = i)) as [->|Hne].
    + apply Hkeep.
      * rewrite list_lookup_alter_eq, Hr. cbn.
        apply row_ranks_lookup; [|lia]. apply elem_of_seq. lia.
      * rewrite list_lookup_alter_eq, Hr. cbn. eexists; split; [done|].
        by rewrite row_ranks_length.
    + apply elem_of_cons in Hin as [?|Hin]; [congruence|].
      apply IH; [done|]. rewrite list_lookup_alter_ne by done. eauto.
Qed.

Lemma cell_lookup im i j r p :
  cells im !! i = Some r → r !! j = Some p → cell im i j = p.
Proof.
  intros Hr Hp. unfold cell. rewrite Hr.
  change (Some r ≫= (.!! j)) with (r !! j). by rewrite Hp.
Qed.

Lemma cells_of_well_shaped im :
  well_shaped im →
  (λ i, cell im i <$> seq 0 (width im)) <$> seq 0 (height im) = cells im.
Proof.
  intros [Hrows Hcols]. apply list_eq. intros i.
  rewrite list_lookup_fmap.
  destruct (cells im !! i) as [r|] eqn:Hr.
  - assert (i < height im)%nat as Hi by (rewrite <- Hrows; by eapply lookup_lt_Some).
    rewrite lookup_seq_lt by done. cbn. f_equal.
    rewrite Forall_lookup in Hcols. destruct (Hcols _ _ Hr) as [Hlen _].
    apply list_eq. intros j. rewrite list_lookup_fmap.
    destruct (r !! j) as [p|] eqn:Hp.
    + assert (j < width im)%nat by (rewrite <- Hlen; by eapply lookup_lt_Some).
      rewrite lookup_seq_lt by done. cbn. f_equal. by eapply cell_lookup.
    + apply lookup_ge_None in Hp.
      rewrite lookup_seq_ge by lia. done.
  - apply lookup_ge_None in Hr. rewrite lookup_seq_ge by lia. done.
Qed.

Lemma cell_depth im i j :
  well_shaped im → (i < height im)%nat → (j < width im)%nat →
  length (cell im i j) = depth im.
Proof.
  intros [Hrows Hcols] Hi Hj.
  destruct (lookup_lt_is_Some_2 (cells im) i) as [r Hr]; [lia|].
  rewrite Forall_lookup in Hcols. destruct (Hcols _ _ Hr) as [Hlen Hdepth].
  destruct (lookup_lt_is_Some_2 r j) as [p Hp]; [lia|].
  rewrite (cell_lookup _ _ _ _ _ Hr Hp).
  rewrite Forall_lookup in Hdepth. by eapply Hdepth.
Qed.

Lemma store_pixel_rgb p : length p = 3%nat → store_pixel p = Done p.
Proof. destruct p as [|a [|b [|c [|? ?]]]]; cbn; intros; done || lia. Qed.

(** What [__replace_with_integers] returns, cell by cell. *)
Lemma replace_with_integers_lookup im (i j : nat) :
  (i < height im)%nat → (j < width im)%nat →
  ((replace_with_integers im).1 !! i ≫= (.!! j)) = Some (Z.of_nat j) ∧
  ∃ d, (replace_with_integers im).2 !! i = Some d
       ∧ d !! Z.of_nat j = Some (cell im i j).
Proof.
  intros Hi Hj. unfold replace_with_integers. rewrite encode_rows. cbn. split.
  - apply encoded_grid_lookup; [apply elem_of_seq; lia|done|].
    exists (replicate (width im) 0). split.
    + by apply lookup_replicate_2.
    + apply length_replicate.
  - eexists. split.
    + rewrite list_lookup_fmap, lookup_seq_lt by done. done.
    + apply row_dict_lookup, elem_of_seq. lia.
Qed.

Lemma init_plain algos shuffle im :
  init algos shuffle im false false
  = Engine im (height im) (width im) (replace_with_integers im).1
      (replace_with_integers im).2 [] 0 (registry algos).
Proof. unfold init. by destruct (replace_with_integers im). Qed.

(** C4, as amended: for every rectangular image whose colour values have
    three channels, decoding the rank grid that the encoder produced,
    through the replace map that it produced and with no shuffle or
    reverse in between, gives back the image, cell for cell. *)
Theorem decode_encode_rgb algos shuffle im :
  well_shaped im → depth im = 3%nat →
  replace_with_pixels (init algos shuffle im false false) = Done (cells im).
Proof.
  intros Hshape Hdepth. rewrite init_plain. unfold replace_with_pixels, decode. cbn.
  trans (Done ((λ i, cell im i <$> seq 0 (width im)) <$> seq 0 (height im)));
    [|by rewrite cells_of_well_shaped].
  apply for_each_map. intros i Hi%elem_of_seq.
  apply for_each_map. intros j Hj%elem_of_seq.
  destruct (replace_with_integers_lookup im i j) as (Hrank & d & Hd & Hcell); [lia..|].
  rewrite Hrank. cbn. rewrite Hd. cbn. rewrite Hcell. cbn.
  apply store_pixel_rgb. rewrite <- Hdepth. apply cell_depth; [done|lia..].
Qed.

Lemma decode_encode_rgb_witness :
  well_shaped four_pixels ∧ depth four_pixels = 3%nat ∧
  replace_with_pixels (init stand_ins keep four_pixels false false)
  = Done (cells four_pixels).
Proof.
  assert (well_shaped four_pixels) as Hshape
    by (split; [reflexivity|repeat constructor]).
  split; [done|]. split; [reflexivity|].
  apply decode_encode_rgb; [done|reflexivity].
Defined.

(** C4, as stated, fails on an image with four channels: the frame array
    has three, and the pixel does not fit. *)
Lemma decode_encode_rgba_fails :
  well_shaped rgba_pixel ∧
  replace_with_pixels (init stand_ins keep rgba_pixel false false) = Raise ValueError.
Proof. split; [split; [reflexivity|repeat constructor]|reflexivity]. Qed.

(** ** The grid of a new engine *)

Lemma encoded_grid_shape C is_ (rep : list (list Z)) :
  Forall (λ r, length r = C) rep →
  Forall (λ r, length r = C)
    (fold_left (λ rep i, alter (λ r, row_ranks r (seq 0 C)) i rep) is_ rep)
  ∧ length (fold_left (λ rep i, alter (λ r, row_ranks r (seq 0 C)) i rep) is_ rep)
    = length rep.
Proof.
  revert rep. induction is_ as [|i is_ IH]; intros rep Hrep; cbn; [done|].
  destruct (IH (alter (λ r, row_ranks r (seq 0 C)) i rep)) as [Hshape Hlen].
  - apply Forall_alter; [done|]. intros r _ Hr. by rewrite row_ranks_length.
  - split; [done|]. by rewrite Hlen, length_alter.
Qed.

(** [__replace_with_integers] leaves the ranks 0, ..., C-1, in order, in
    every row. *)
Lemma replace_with_integers_ranks im :
  (replace_with_integers im).1 = replicate (height im) (ranks (width im)).
Proof.
  unfold replace_with_integers. rewrite encode_rows. cbn [fst].
  set (g := fold_left _ _ _).
  destruct (encoded_grid_shape (width im) (seq 0 (height im))
              (replicate (height im) (replicate (width im) 0))) as [Hshape Hlen].
  { apply Forall_replicate, length_replicate. }
  fold g in Hshape, Hlen. rewrite length_replicate in Hlen.
  apply list_eq_same_length with (height im); [by rewrite length_replicate|done|].
  intros i r r' Hi Hr Hr'. apply lookup_replicate in Hr' as [-> _].
  rewrite Forall_lookup in Hshape. pose proof (Hshape _ _ Hr) as Hrlen.
  apply list_eq_same_length with (width im);
    [unfold ranks; by rewrite length_fmap, length_seq|done|].
  intros j x y Hj Hx Hy.
  unfold ranks in Hy. rewrite list_lookup_fmap, lookup_seq_lt in Hy by done.
  cbn in Hy. simplify_eq.
  pose proof (encoded_grid_lookup (width im) (seq 0 (height im))
                (replicate (height im) (replicate (width im) 0)) i j) as Hcell.
  fold g in Hcell. rewrite Hr in Hcell. cbn in Hcell.
  assert (r !! j = Some (Z.of_nat j)) as Hrj.
  { apply Hcell; [apply elem_of_seq; lia|done|].
    exists (replicate (width im) 0). split; [by apply lookup_replicate_2|].
    apply length_replicate. }
  congruence.
Qed.

(** Whatever the shuffle and the flip, every row of the grid of a new
    engine holds the ranks 0, ..., C-1 once each. *)
Lemma init_ranks algos shuffle im randomise reverse_ :
  (∀ i r, shuffle i r ≡ₚ r) →
  let e := init algos shuffle im randomise reverse_ in
  Forall (λ r, r ≡ₚ ranks (columns e)) (replaced e).
Proof.
  intros Hshuffle. unfold init.
  pose proof (replace_with_integers_ranks im) as Hranks.
  destruct (replace_with_integers im) as [g d]. cbn [fst] in Hranks. subst g. cbn.
  assert (Forall (λ r, r ≡ₚ ranks (width im))
            (replicate (height im) (ranks (width im)))) as H0
    by (by apply Forall_replicate).
  assert (Forall (λ r, r ≡ₚ ranks (width im))
            (if randomise
             then randomise_image shuffle (replicate (height im) (ranks (width im)))
             else replicate (height im) (ranks (width im)))) as H1.
  { destruct randomise; [|done]. apply Forall_lookup. intros i r Hr.
    unfold randomise_image in Hr. rewrite list_lookup_imap in Hr.
    destruct (replicate _ _ !! i) as [r0|] eqn:Hr0; [|done]. cbn in Hr. simplify_eq.
    apply lookup_replicate in Hr0 as [-> _]. apply Hshuffle. }
  destruct reverse_; [|done]. unfold reverse_image.
  apply Forall_reverse, Forall_fmap. eapply Forall_impl; [exact H1|].
  intros r Hr. cbn. by rewrite reverse_Permutation.
Qed.

(** ** Running computations on the engine *)

Lemma bind_Ret {A B} (m : M A) (k : A → M B) e b e2 :
  bind m k e = Ret b e2 ↔ ∃ a e1, m e = Ret a e1 ∧ k a e1 = Ret b e2.
Proof.
  unfold bind. split.
  - destruct (m e) as [a e1| |]; [eauto|done..].
  - by intros (a & e1 & -> & ?).
Qed.

Lemma lift_Ret {A} (o : outcome A) e a e' :
  lift o e = Ret a e' ↔ o = Done a ∧ e' = e.
Proof. unfold lift. destruct o; split; [intros [= -> ->]|intros [[= ->] ->]|intros [=]|intros [[=] _]]; done. Qed.

Lemma set_replaced_id e : set_replaced e (replaced e) = e.
Proof. by destruct e. Qed.

Lemma regridded_refl e : regridded e e.
Proof. unfold regridded. by rewrite set_replaced_id. Qed.

Lemma regridded_trans e1 e2 e3 : regridded e1 e2 → regridded e2 e3 → regridded e1 e3.
Proof. unfold regridded. intros -> ->. done. Qed.

Lemma regridded_set e g : regridded e (set_replaced e g).
Proof. done. Qed.

(** An invariant of the body is an invariant of the [for] loop. *)
Lemma for_invariant {A} (I : SortingVisualiser → Prop) (xs : list A) body e e' :
  (∀ x e1 e2, x ∈ xs → I e1 → body x e1 = Ret () e2 → I e2) →
  I e → for_ xs body e = Ret () e' → I e'.
Proof.
  revert e. induction xs as [|x xs IH]; intros e Hbody HI Hrun.
  - cbv in Hrun. by simplify_eq.
  - cbn in Hrun. apply bind_Ret in Hrun as ([] & e1 & Hx & Hrest).
    eapply IH; [|eapply Hbody; [left|..]; done|done].
    intros y ? ? Hy. apply Hbody. by right.
Qed.

(** ** The grid under [sort] *)

(** [sort] works on copies of the rows: the grid stays as it is. *)
Lemma sort_keeps_grid m e e' : sort m e = Ret () e' → replaced e' = replaced e.
Proof.
  unfold sort, bind at 1, get.
  apply (for_invariant (λ e1, replaced e1 = replaced e)); [|done].
  intros row e1 e2 _ H1 Hrow.
  apply bind_Ret in Hrow as (r & ea & Hr & Hrow).
  unfold get_row, bind, get in Hr. apply lift_Ret in Hr as [_ ->].
  unfold bind at 1, get in Hrow.
  apply bind_Ret in Hrow as (f & eb & [_ ->]%lift_Ret & Hput).
  cbv [put] in Hput. by simplify_eq.
Qed.

(** ** Swaps keep the values of a row *)

Lemma insert_head_perm (t : list Z) (k : nat) (v a : Z) :
  t !! k = Some v → v :: <[k := a]> t ≡ₚ a :: t.
Proof.
  revert k. induction t as [|b t IH]; intros [|k] Hk; simplify_eq/=.
  - apply Permutation_swap.
  - rewrite (Permutation_swap b v). rewrite (IH _ Hk). apply Permutation_swap.
Qed.

Lemma swap_perm (r : list Z) (i j : nat) (vi vj : Z) :
  r !! i = Some vi → r !! j = Some vj → <[j := vi]> (<[i := vj]> r) ≡ₚ r.
Proof.
  revert i j. induction r as [|a r IH]; intros [|i] [|j] Hi Hj; simplify_eq/=.
  - done.
  - by apply insert_head_perm.
  - by apply insert_head_perm.
  - f_equiv. by apply IH.
Qed.

Lemma swap_cells_perm r i j r' : swap_cells r i j = Done r' → r' ≡ₚ r.
Proof.
  unfold swap_cells. intros H.
  destruct (Py.index (length r) j) as [j'|]; [|done]. cbn in H.
  destruct (r !! j') as [vj|] eqn:Hj; [|done]. cbn in H.
  destruct (Py.index (length r) i) as [i'|]; [|done]. cbn in H.
  destruct (r !! i') as [vi|] eqn:Hi; [|done]. cbn in H.
  simplify_eq. by apply swap_perm.
Qed.

Lemma apply_swaps_perm r ps r' : apply_swaps r ps = Done r' → r' ≡ₚ r.
Proof.
  revert r. induction ps as [|[i j] ps IH]; intros r H; cbn in H.
  - by simplify_eq.
  - destruct (swap_cells r i j) as [r1|] eqn:H1; [|done]. cbn in H.
    rewrite (IH _ H). by eapply swap_cells_perm.
Qed.

(** ** [__swap_pixels] *)

(** The loop over the swaps of a slice, on a row that is there. *)
Lemma swap_steps_run row ps e r r' :
  replaced e !! row = Some r → apply_swaps r ps = Done r' →
  for_ ps (λ '(i, j),
      r <- get_row row ;; r' <- lift (swap_cells r i j) ;; put_row row r') e
  = Ret () (set_replaced e (<[row := r']> (replaced e))).
Proof.
  revert e r. induction ps as [|[i j] ps IH]; intros e r Hr Hps; cbn in Hps.
  - simplify_eq. cbn. unfold ret. by rewrite list_insert_id, set_replaced_id.
  - destruct (swap_cells r i j) as [r1|] eqn:H1; [|done]. cbn in Hps.
    cbn. unfold bind at 1. unfold get_row, put_row, bind, get, lift, put.
    rewrite Hr. cbn. rewrite H1.
    erewrite IH; [|by apply list_lookup_insert_eq, lookup_lt_is_Some_1|done].
    cbn. by rewrite list_insert_insert_eq.
Qed.

Lemma swap_steps_inv row ps e e' r :
  replaced e !! row = Some r →
  for_ ps (λ '(i, j),
      r <- get_row row ;; r' <- lift (swap_cells r i j) ;; put_row row r') e
  = Ret () e' →
  ∃ r', apply_swaps r ps = Done r' ∧ e' = set_replaced e (<[row := r']> (replaced e)).
Proof.
  revert e r. induction ps as [|[i j] ps IH]; intros e r Hr Hrun.
  - cbv in Hrun. simplify_eq. exists r. split; [done|].
    by rewrite list_insert_id, set_replaced_id.
  - cbn in Hrun. apply bind_Ret in Hrun as ([] & e1 & Hstep & Hrest).
    unfold get_row, put_row, bind, get, lift, put in Hstep.
    rewrite Hr in Hstep. cbn in Hstep.
    destruct (swap_cells r i j) as [r1|] eqn:H1; [|done]. simplify_eq.
    eapply IH in Hrest as (r' & Hps & ->);
      [|by apply list_lookup_insert_eq, lookup_lt_is_Some_1].
    exists r'. cbn. rewrite H1. cbn. split; [done|].
    by rewrite list_insert_insert_eq.
Qed.

(** [__swap_pixels] on a row that has a trace of swaps and a row in the
    grid: the swaps of the slice, applied in order. *)
Lemma swap_pixels_run row a b e l r r' :
  swaps e !! row = Some (Swaps l) → replaced e !! row = Some r →
  apply_swaps r (Py.slice l a b) = Done r' →
  swap_pixels row a b e = Ret () (set_replaced e (<[row := r']> (replaced e))).
Proof.
  intros Ht Hr Hps. unfold swap_pixels, bind at 1 2, get, lift. rewrite Ht. cbn.
  by eapply swap_steps_run.
Qed.

Lemma swap_pixels_inv row a b e e' :
  swap_pixels row a b e = Ret () e' →
  e' = e ∨
  ∃ l r r', swaps e !! row = Some (Swaps l) ∧ replaced e !! row = Some r
            ∧ apply_swaps r (Py.slice l a b) = Done r'
            ∧ e' = set_replaced e (<[row := r']> (replaced e)).
Proof.
  unfold swap_pixels, bind at 1 2, get, lift.
  destruct (swaps e !! row) as [[l|l]|] eqn:Ht; cbn; [| |done].
  - destruct (replaced e !! row) as [r|] eqn:Hr.
    + intros (r' & ? & ->)%(swap_steps_inv _ _ _ _ r); [|done]. right. naive_solver.
    + destruct (Py.slice l a b) as [|[i j] ps]; [cbv; intros; left; by simplify_eq|].
      cbn. unfold bind at 1, get_row, bind, get, lift. rewrite Hr. done.
  - destruct (Py.slice l a b); [cbv; intros; left; by simplify_eq|done].
Qed.

(** In one row the values are shuffled, the other rows are untouched, and
    nothing else in the engine changes. *)
Lemma swap_pixels_rows row a b e e' :
  swap_pixels row a b e = Ret () e' →
  regridded e e' ∧ Forall2 (≡ₚ) (replaced e') (replaced e).
Proof.
  intros [->|(l & r & r' & Ht & Hr & Hps & ->)]%swap_pixels_inv.
  - split; [apply regridded_refl|].
    apply Forall_Forall2_diag, Forall_forall. done.
  - split; [apply regridded_set|]. cbn.
    apply Forall2_same_length_lookup_2; [by rewrite length_insert|].
    intros k x y Hx Hy. destruct (decide (k = row)) as [->|Hne].
    + rewrite list_lookup_insert_eq in Hx by (by eapply lookup_lt_Some).
      simplify_eq. by eapply apply_swaps_perm.
    + rewrite list_lookup_insert_ne in Hx by done. by simplify_eq.
Qed.

(** ** The loops of [visualise] *)

Section Loops.

Context {X : Type} (emit : SortingVisualiser → outcome X).

Lemma snapshot_Ret e f e' :
  snapshot emit e = Ret f e' ↔ emit e = Done f ∧ e' = e.
Proof. unfold snapshot, bind, get. apply lift_Ret. Qed.

Lemma swap_frame_inv a b e f e' :
  swap_frame emit a b e = Ret f e' →
  for_ (range (rows e)) (λ row, swap_pixels row a b) e = Ret () e'
  ∧ emit e' = Done f ∧ max_swaps e ≠ 0.
Proof.
  unfold swap_frame. unfold bind at 1, get.
  intros ([] & e1 & Hrows & H)%bind_Ret.
  apply bind_Ret in H as (f' & e2 & [Hf ->]%snapshot_Ret & H).
  apply bind_Ret in H as ([] & e3 & [Hz ->]%lift_Ret & H).
  cbv in H. simplify_eq. repeat split; [done..|].
  intros Hm. by rewrite Hm in Hz.
Qed.

(** One turn of each loop. *)
Lemma swap_loop_turn fuel sn step rem frames e :
  swap_loop emit (S fuel) sn step rem frames e
  = if sn <=? max_swaps e then
      bind (swap_frame emit sn (sn + step + (take_extra rem).1))
        (λ f, swap_loop emit fuel (sn + step + (take_extra rem).1) step
                (take_extra rem).2 (frames ++ [f])) e
    else Ret frames e.
Proof.
  cbn [swap_loop]. unfold bind at 1, get.
  destruct (sn <=? max_swaps e); [|done]. by destruct (take_extra rem).
Qed.

Lemma splice_loop_turn fuel pos sn step rem frames e :
  splice_loop emit (S fuel) pos sn step rem frames e
  = if sn <? max_swaps e then
      bind (splice_frame emit pos sn (sn + step + (take_extra rem).1))
        (λ fp, splice_loop emit fuel fp.2 (sn + step + (take_extra rem).1) step
                 (take_extra rem).2 (frames ++ [fp.1])) e
    else Ret frames e.
Proof.
  cbn [splice_loop]. unfold bind at 1, get.
  destruct (sn <? max_swaps e); [|done]. destruct (take_extra rem). cbn [fst snd].
  unfold bind. by destruct (splice_frame _ _ _ _ _) as [[??]?| |].
Qed.

(** An invariant [I] of [__swap_pixels] and a property [K] of the frames
    so far that every new frame extends hold when the in-place loop
    ends. *)
Lemma swap_loop_invariant (I : SortingVisualiser → Prop)
    (K : list X → SortingVisualiser → Prop) :
  (∀ row a b e1 e2, I e1 → swap_pixels row a b e1 = Ret () e2 → I e2) →
  (∀ fs e1 e2 f, K fs e1 → I e2 → emit e2 = Done f → K (fs ++ [f]) e2) →
  ∀ fuel swap_num swap_step remainder frames e frames' e',
    I e → K frames e →
    swap_loop emit fuel swap_num swap_step remainder frames e = Ret frames' e' →
    I e' ∧ K frames' e'.
Proof.
  intros Hswap Hframe fuel.
  induction fuel as [|fuel IH]; intros sn step rem frames e frames' e' HI HK Hrun;
    [done|].
  rewrite swap_loop_turn in Hrun.
  destruct (sn <=? max_swaps e); [|simplify_eq; by split].
  apply bind_Ret in Hrun as (f & e1 & Hbody & Hrest).
  apply swap_frame_inv in Hbody as (Hrows & Hf & _).
  assert (I e1) as HI1.
  { eapply (for_invariant I); [|exact HI|exact Hrows]. intros x ea eb _ Ha Hb. eapply Hswap; [exact Ha|exact Hb]. }
  eapply IH; [exact HI1| |exact Hrest]. by eapply Hframe.
Qed.

Lemma splice_frame_inv pos a b e f pos_end e' :
  splice_frame emit pos a b e = Ret (f, pos_end) e' →
  cursor_end e pos a b = Done pos_end
  ∧ for_ (range (rows e)) (splice_row pos pos_end a b) e = Ret () e'
  ∧ emit e' = Done f.
Proof.
  unfold splice_frame. unfold bind at 1, get.
  intros (p & e1 & [Hc ->]%lift_Ret & H)%bind_Ret.
  apply bind_Ret in H as ([] & e2 & Hrows & H).
  apply bind_Ret in H as (f' & e3 & [Hf ->]%snapshot_Ret & H).
  cbv in H. by simplify_eq.
Qed.

Lemma splice_loop_invariant (I : SortingVisualiser → Prop)
    (K : list X → SortingVisualiser → Prop) :
  (∀ pos pos_end a b row e1 e2,
      I e1 → splice_row pos pos_end a b row e1 = Ret () e2 → I e2) →
  (∀ fs e1 e2 f, K fs e1 → I e2 → emit e2 = Done f → K (fs ++ [f]) e2) →
  ∀ fuel pos swap_num swap_step remainder frames e frames' e',
    I e → K frames e →
    splice_loop emit fuel pos swap_num swap_step remainder frames e = Ret frames' e' →
    I e' ∧ K frames' e'.
Proof.
  intros Hrow Hframe fuel.
  induction fuel as [|fuel IH];
    intros pos sn step rem frames e frames' e' HI HK Hrun; [done|].
  rewrite splice_loop_turn in Hrun.
  destruct (sn <? max_swaps e); [|simplify_eq; by split].
  apply bind_Ret in Hrun as ([f pos_end] & e1 & Hbody & Hrest).
  apply splice_frame_inv in Hbody as (_ & Hrows & Hf).
  assert (I e1) as HI1.
  { eapply (for_invariant I); [|exact HI|exact Hrows]. intros x ea eb _ Ha Hb. eapply Hrow; [exact Ha|exact Hb]. }
  eapply IH; [exact HI1| |exact Hrest]. by eapply Hframe.
Qed.

(** [visualise] on an engine that has its traces: the first frame, then
    one of the two loops. *)
Lemma visualise_in_place fuel num_frames m e p l ts f0 :
  swaps e = Swaps (p :: l) :: ts → emit e = Done f0 → num_frames - 1 ≠ 0 →
  visualise_with emit fuel num_frames m e
  = swap_loop emit fuel 0 (max_swaps e `div` (num_frames - 1))
      (max_swaps e `mod` (num_frames - 1)) [f0] e.
Proof.
  intros Hs Hf Hn. unfold visualise_with, bind at 1, get.
  rewrite Hs. unfold bind at 1, ret. unfold bind at 1, snapshot, bind at 1, get.
  rewrite Hf. cbn. unfold bind at 1, first_is_tuple, bind at 1, get. rewrite Hs. cbn.
  unfold Py.floordiv, Py.modulo.
  destruct (Z.eqb_spec (num_frames - 1) 0); [done|]. done.
Qed.

Lemma visualise_out_of_place fuel num_frames m e v l ts f0 :
  swaps e = Values (v :: l) :: ts → emit e = Done f0 → num_frames - 1 ≠ 0 →
  visualise_with emit fuel num_frames m e
  = splice_loop emit fuel 0 0 (max_swaps e `quot` (num_frames - 1))
      (max_swaps e `mod` (num_frames - 1)) [f0] e.
Proof.
  intros Hs Hf Hn. unfold visualise_with, bind at 1, get.
  rewrite Hs. unfold bind at 1, ret. unfold bind at 1, snapshot, bind at 1, get.
  rewrite Hf. cbn. unfold bind at 1, first_is_tuple, bind at 1, get. rewrite Hs. cbn.
  unfold Py.int_truediv, Py.modulo.
  destruct (Z.eqb_spec (num_frames - 1) 0); [done|]. done.
Qed.

(** A first trace without a first step: the test of its type raises. *)
Lemma visualise_empty_first fuel num_frames m e t ts f0 :
  swaps e = t :: ts → len t = 0 → emit e = Done f0 →
  visualise_with emit fuel num_frames m e = Exc IndexError e.
Proof.
  intros Hs Hlen Hf. unfold visualise_with, bind at 1, get.
  rewrite Hs. unfold bind at 1, ret. unfold bind at 1, snapshot, bind at 1, get.
  rewrite Hf. cbn. unfold bind at 1, first_is_tuple, bind at 1, get. rewrite Hs. cbn.
  destruct t as [[|? ?]|[|? ?]]; cbn in Hlen; done || lia.
Qed.

(** A request for one frame: the division by [num_frames - 1] raises. *)
Lemma visualise_one_frame fuel m e t ts f0 :
  swaps e = t :: ts → len t ≠ 0 → emit e = Done f0 →
  visualise_with emit fuel 1 m e = Exc ZeroDivisionError e.
Proof.
  intros Hs Hlen Hf. unfold visualise_with, bind at 1, get.
  rewrite Hs. unfold bind at 1, ret. unfold bind at 1, snapshot, bind at 1, get.
  rewrite Hf. cbn. unfold bind at 1, first_is_tuple, bind at 1, get. rewrite Hs. cbn.
  destruct t as [[|? ?]|[|? ?]]; cbn in Hlen; done || lia.
Qed.

(** What a run that returns went through. *)
Lemma visualise_inv fuel num_frames m e frames e' :
  swaps e ≠ [] →
  visualise_with emit fuel num_frames m e = Ret frames e' →
  ∃ f0, emit e = Done f0 ∧ num_frames - 1 ≠ 0 ∧
    ((∃ p l ts, swaps e = Swaps (p :: l) :: ts) ∧
     swap_loop emit fuel 0 (max_swaps e `div` (num_frames - 1))
       (max_swaps e `mod` (num_frames - 1)) [f0] e = Ret frames e'
     ∨
     (∃ v l ts, swaps e = Values (v :: l) :: ts) ∧
     splice_loop emit fuel 0 0 (max_swaps e `quot` (num_frames - 1))
       (max_swaps e `mod` (num_frames - 1)) [f0] e = Ret frames e').
Proof.
  intros Hs Hrun. destruct (swaps e) as [|t ts] eqn:Hsw; [done|].
  destruct (emit e) as [f0|x] eqn:Hf.
  2:{ unfold visualise_with, bind at 1, get in Hrun. rewrite Hsw in Hrun.
      unfold bind at 1, ret in Hrun.
      unfold bind at 1, snapshot, bind at 1, get in Hrun. by rewrite Hf in Hrun. }
  exists f0. split; [done|].
  destruct (decide (len t = 0)) as [Hlen|Hlen].
  { by rewrite (visualise_empty_first _ _ _ _ _ _ _ Hsw Hlen Hf) in Hrun. }
  destruct (decide (num_frames - 1 = 0)) as [Hn|Hn].
  { replace num_frames with 1 in Hrun by lia.
    by rewrite (visualise_one_frame _ _ _ _ _ _ Hsw Hlen Hf) in Hrun. }
  split; [done|].
  destruct t as [[|p l]|[|v l]]; cbn in Hlen; try done.
  - left. split; [eauto|]. by erewrite <- visualise_in_place.
  - right. split; [eauto|]. by erewrite <- visualise_out_of_place.
Qed.

End Loops.

(** ** Replay only writes the rank grid *)

Lemma splice_regridded row lo hi a b e e' :
  splice row lo hi a b e = Ret () e' → regridded e e'.
Proof.
  unfold splice. unfold bind at 1, get.
  intros (t & e1 & [_ ->]%lift_Ret & H)%bind_Ret.
  apply bind_Ret in H as (r & e2 & Hr & H).
  unfold get_row, bind, get in Hr. apply lift_Ret in Hr as [_ ->].
  apply bind_Ret in H as (r' & e3 & [_ ->]%lift_Ret & H).
  cbv [put_row bind get put] in H. simplify_eq. apply regridded_set.
Qed.

Lemma splice_row_regridded pos pos_end a b row e e' :
  splice_row pos pos_end a b row e = Ret () e' → regridded e e'.
Proof.
  unfold splice_row. unfold bind at 1, get.
  destruct (pos_end <? pos).
  - intros (r & e1 & Hr & H)%bind_Ret.
    unfold get_row, bind, get in Hr. apply lift_Ret in Hr as [_ ->].
    apply bind_Ret in H as ([] & e2 & H1%splice_regridded & H2%splice_regridded).
    by eapply regridded_trans.
  - apply splice_regridded.
Qed.

Lemma swap_rows_regridded a b rs e e' :
  for_ rs (λ row, swap_pixels row a b) e = Ret () e' → regridded e e'.
Proof.
  apply (for_invariant (regridded e)); [|apply regridded_refl].
  intros row e1 e2 _ H1 [H2 _]%swap_pixels_rows. by eapply regridded_trans.
Qed.

Lemma splice_rows_regridded pos pos_end a b rs e e' :
  for_ rs (splice_row pos pos_end a b) e = Ret () e' → regridded e e'.
Proof.
  apply (for_invariant (regridded e)); [|apply regridded_refl].
  intros row e1 e2 _ H1 H2%splice_row_regridded. by eapply regridded_trans.
Qed.

(** ** The ghost run

    [rank_frames] goes through the same states as [visualise] and
    records, for every frame, the rank grid it was decoded from. *)

Section Ghost.

Context {X : Type} (emit : SortingVisualiser → outcome X).

Let grid_of : SortingVisualiser → outcome (list (list Z)) := λ e, Done (replaced e).

Lemma swap_frame_ghost a b e f e' :
  swap_frame emit a b e = Ret f e' →
  swap_frame grid_of a b e = Ret (replaced e') e'.
Proof.
  intros (Hrows & Hf & Hm)%swap_frame_inv.
  unfold swap_frame, bind at 1, get, bind at 1. rewrite Hrows.
  unfold bind at 1, snapshot, bind at 1, get, grid_of, lift at 1.
  unfold bind, lift, ret. by destruct (Z.eqb_spec (max_swaps e) 0).
Qed.

Lemma splice_frame_ghost pos a b e f pos_end e' :
  splice_frame emit pos a b e = Ret (f, pos_end) e' →
  splice_frame grid_of pos a b e = Ret (replaced e', pos_end) e'.
Proof.
  intros (Hc & Hrows & Hf)%splice_frame_inv.
  unfold splice_frame, bind at 1, get, bind at 1. rewrite Hc. unfold lift at 1.
  unfold bind at 1. rewrite Hrows. done.
Qed.

Lemma swap_loop_ghost (R : list (list Z) → X → Prop) e0 fuel :
  (∀ e f, regridded e0 e → emit e = Done f → R (replaced e) f) →
  ∀ sn step rem fs gs e fs' e',
    regridded e0 e → Forall2 R gs fs →
    swap_loop emit fuel sn step rem fs e = Ret fs' e' →
    ∃ gs', swap_loop grid_of fuel sn step rem gs e = Ret gs' e' ∧ Forall2 R gs' fs'.
Proof.
  intros HR. induction fuel as [|fuel IH];
    intros sn step rem fs gs e fs' e' He Hgs Hrun; [done|].
  rewrite swap_loop_turn in Hrun. rewrite swap_loop_turn.
  destruct (sn <=? max_swaps e); [|simplify_eq; eauto].
  apply bind_Ret in Hrun as (f & e1 & Hbody & Hrest).
  unfold bind. rewrite (swap_frame_ghost _ _ _ _ _ Hbody).
  apply swap_frame_inv in Hbody as (Hrows%swap_rows_regridded & Hf & _).
  assert (regridded e0 e1) by (by eapply regridded_trans).
  eapply IH; [done| |exact Hrest].
  apply Forall2_app; [done|]. constructor; [|done]. by apply HR.
Qed.

Lemma splice_loop_ghost (R : list (list Z) → X → Prop) e0 fuel :
  (∀ e f, regridded e0 e → emit e = Done f → R (replaced e) f) →
  ∀ pos sn step rem fs gs e fs' e',
    regridded e0 e → Forall2 R gs fs →
    splice_loop emit fuel pos sn step rem fs e = Ret fs' e' →
    ∃ gs', splice_loop grid_of fuel pos sn step rem gs e = Ret gs' e'
           ∧ Forall2 R gs' fs'.
Proof.
  intros HR. induction fuel as [|fuel IH];
    intros pos sn step rem fs gs e fs' e' He Hgs Hrun; [done|].
  rewrite splice_loop_turn in Hrun. rewrite splice_loop_turn.
  destruct (sn <? max_swaps e); [|simplify_eq; eauto].
  apply bind_Ret in Hrun as ([f pos_end] & e1 & Hbody & Hrest).
  unfold bind. rewrite (splice_frame_ghost _ _ _ _ _ _ _ Hbody).
  apply splice_frame_inv in Hbody as (_ & Hrows%splice_rows_regridded & Hf).
  assert (regridded e0 e1) by (by eapply regridded_trans).
  eapply IH; [done| |exact Hrest].
  apply Forall2_app; [done|]. constructor; [|done]. by apply HR.
Qed.

Lemma visualise_ghost (R : list (list Z) → X → Prop) fuel num_frames m e fs e' :
  (∀ e1 f, regridded e e1 → emit e1 = Done f → R (replaced e1) f) →
  swaps e ≠ [] →
  visualise_with emit fuel num_frames m e = Ret fs e' →
  ∃ gs, visualise_with grid_of fuel num_frames m e = Ret gs e' ∧ Forall2 R gs fs.
Proof.
  intros HR Hs (f0 & Hf0 & Hn & Hloop)%visualise_inv; [|done].
  assert (Forall2 R [replaced e] [f0]) as H0
    by (repeat constructor; apply HR; [apply regridded_refl|done]).
  destruct Hloop as [[(p & l & ts & Hsw) Hrun]|[(v & l & ts & Hsw) Hrun]].
  - erewrite visualise_in_place; [|done..].
    eapply swap_loop_ghost; [exact HR|apply regridded_refl|done..].
  - erewrite visualise_out_of_place; [|done..].
    eapply splice_loop_ghost; [exact HR|apply regridded_refl|done..].
Qed.

End Ghost.

(** Every frame of [visualise] is the decoding of the grid that
    [rank_frames] has at its place. *)
Lemma visualise_rank_frames fuel num_frames m e frames e' :
  swaps e ≠ [] →
  visualise fuel num_frames m e = Ret frames e' →
  ∃ grids, rank_frames fuel num_frames m e = Ret grids e' ∧
    Forall2 (λ g f, decode (rows e) (columns e) g (replace_dict e) = Done f)
      grids frames.
Proof.
  intros Hs Hrun. eapply visualise_ghost; [|done..].
  intros e1 f -> Hf. exact Hf.
Qed.

(** ** The ranks of a row under replay *)

Lemma swap_pixels_ranks C row a b e e' :
  Forall (λ r, r ≡ₚ ranks C) (replaced e) →
  swap_pixels row a b e = Ret () e' →
  Forall (λ r, r ≡ₚ ranks C) (replaced e').
Proof.
  intros Hperm [_ Hrows]%swap_pixels_rows.
  induction Hrows as [|r' r g' g Hr _ IH]; [done|].
  apply Forall_cons in Hperm as [Hp Hperm].
  constructor; [by rewrite Hr|by apply IH].
Qed.

(** C3, as amended: in swap-replay mode, at every frame that [visualise]
    returns, every row of the rank grid it was decoded from holds the
    ranks 0, ..., C-1 once each, as the rows of the grid did before the
    replay. *)
Theorem swap_replay_keeps_ranks fuel num_frames m e frames e' :
  (∃ p l ts, swaps e = Swaps (p :: l) :: ts) →
  Forall (λ r, r ≡ₚ ranks (columns e)) (replaced e) →
  visualise fuel num_frames m e = Ret frames e' →
  ∃ grids, rank_frames fuel num_frames m e = Ret grids e' ∧
    Forall2 (λ g f, decode (rows e) (columns e) g (replace_dict e) = Done f)
      grids frames ∧
    Forall (Forall (λ r, r ≡ₚ ranks (columns e))) grids.
Proof.
  intros (p & l & ts & Hsw) Hperm Hrun.
  destruct (visualise_rank_frames fuel num_frames m e frames e') as (grids & Hg & Hdec);
    [by rewrite Hsw|done|].
  exists grids. split; [done|]. split; [done|].
  apply visualise_inv in Hg as (g0 & Hg0 & _ & Hloop); [|by rewrite Hsw].
  simplify_eq.
  destruct Hloop as [[_ Hloop]|[(? & ? & ? & ?) _]]; [|congruence].
  eapply (swap_loop_invariant _ (λ e1, Forall (λ r, r ≡ₚ ranks (columns e)) (replaced e1))
            (λ gs _, Forall (Forall (λ r, r ≡ₚ ranks (columns e))) gs)) in Hloop
    as [_ ?]; [done| | |done|by repeat constructor].
  - intros row a b e1 e2. apply swap_pixels_ranks.
  - intros gs _ e2 g Hgs He2 [= <-]. apply Forall_app. by repeat constructor.
Qed.

Lemma swap_replay_keeps_ranks_witness :
  (∃ p l ts, swaps swapped_engine = Swaps (p :: l) :: ts) ∧
  Forall (λ r, r ≡ₚ ranks (columns swapped_engine)) (replaced swapped_engine) ∧
  ∃ frames grids e',
    visualise 3 2 "bubble_sort" swapped_engine = Ret frames e' ∧
    rank_frames 3 2 "bubble_sort" swapped_engine = Ret grids e' ∧
    grids = [ [[1; 0]]; [[0; 1]]; [[0; 1]] ] ∧
    Forall (Forall (λ r, r ≡ₚ ranks (columns swapped_engine))) grids.
Proof.
  assert (∃ p l ts, swaps swapped_engine = Swaps (p :: l) :: ts) as Hsw
    by (by exists (0, 1), [], []).
  assert (Forall (λ r, r ≡ₚ ranks (columns swapped_engine)) (replaced swapped_engine))
    as Hperm by (repeat constructor; apply Permutation_swap).
  split; [done|]. split; [done|].
  destruct (visualise 3 2 "bubble_sort" swapped_engine) as [frames e'| |] eqn:Hrun;
    [|by vm_compute in Hrun..].
  destruct (swap_replay_keeps_ranks 3 2 "bubble_sort" swapped_engine frames e'
              Hsw Hperm Hrun) as (grids & Hg & _ & Hall).
  exists frames, grids, e'. split; [done|]. split; [done|]. split; [|done].
  vm_compute in Hrun. vm_compute in Hg. congruence.
Defined.

(** C3, as stated, fails in snapshot-splice mode: splicing the first half
    of the sorted values over the row [1, 0] leaves [0, 0] behind the
    second of three frames. *)
Lemma splice_replay_repeats_a_rank :
  observe (rank_frames 3 3 "counting_sort" spliced_engine)
  = Some (Done [ [[1; 0]]; [[0; 0]]; [[0; 1]] ],
          ([[0; 1]], [Values [0; 1]], 2))
  ∧ ¬ [0; 0] ≡ₚ ranks 2.
Proof.
  split; [reflexivity|].
  intros H. assert (1 ∈ [0; 0]) as Hin.
  { rewrite H. change (1 ∈ [0; 1]). by right; left. }
  repeat (apply elem_of_cons in Hin as [?|Hin]; [done|]).
  by apply not_elem_of_nil in Hin.
Qed.

(** ** Invariants of a whole run *)

Section Run.

Context {X : Type} (emit : SortingVisualiser → outcome X).

(** On an engine that has its traces, an invariant [I] of the writes to
    the grid, and a property [K] of the frames that holds of the first
    frame and that every new frame extends, hold when [visualise]
    returns. *)
Lemma visualise_invariant (I : SortingVisualiser → Prop)
    (K : list X → SortingVisualiser → Prop) fuel num_frames m e frames e' :
  (∀ row a b e1 e2, I e1 → swap_pixels row a b e1 = Ret () e2 → I e2) →
  (∀ pos pos_end a b row e1 e2,
      I e1 → splice_row pos pos_end a b row e1 = Ret () e2 → I e2) →
  (∀ fs e1 e2 f, K fs e1 → I e2 → emit e2 = Done f → K (fs ++ [f]) e2) →
  (∀ f0, emit e = Done f0 → K [f0] e) →
  swaps e ≠ [] → I e →
  visualise_with emit fuel num_frames m e = Ret frames e' →
  I e' ∧ K frames e'.
Proof.
  intros Hswap Hsplice Hframe Hfirst Hs HI (f0 & Hf0 & _ & Hloop)%visualise_inv;
    [|done].
  destruct Hloop as [[_ Hrun]|[_ Hrun]].
  - eapply swap_loop_invariant; [exact Hswap|exact Hframe|exact HI| |exact Hrun].
    by apply Hfirst.
  - eapply splice_loop_invariant; [exact Hsplice|exact Hframe|exact HI| |exact Hrun].
    by apply Hfirst.
Qed.

(** Replay leaves everything but the rank grid as it was, and the last
    frame shows the grid it leaves. *)
Lemma visualise_last fuel num_frames m e frames e' :
  swaps e ≠ [] →
  visualise_with emit fuel num_frames m e = Ret frames e' →
  regridded e e' ∧ ∃ f, last frames = Some f ∧ emit e' = Done f.
Proof.
  intros Hs.
  apply (visualise_invariant (regridded e)
           (λ fs e1, ∃ f, last fs = Some f ∧ emit e1 = Done f));
    [| | | |done|apply regridded_refl].
  - intros row a b e1 e2 H1 [H2 _]%swap_pixels_rows. by eapply regridded_trans.
  - intros pos pos_end a b row e1 e2 H1 H2%splice_row_regridded.
    by eapply regridded_trans.
  - intros fs e1 e2 f _ _ Hf. exists f. by rewrite last_snoc.
  - intros f0 Hf0. by exists f0.
Qed.

(** The first frame shows the grid as it is at the call. *)
Lemma visualise_first fuel num_frames m e frames e' :
  swaps e ≠ [] →
  visualise_with emit fuel num_frames m e = Ret frames e' →
  ∃ f, head frames = Some f ∧ emit e = Done f.
Proof.
  intros Hs Hrun. destruct (emit e) as [f0|x] eqn:Hf0.
  2:{ apply visualise_inv in Hrun as (? & ? & _); [congruence|done]. }
  exists f0. split; [|done].
  eapply (visualise_invariant (λ _, True) (λ fs _, head fs = Some f0)) in Hrun
    as [_ ?]; [done|done|done| | |done|done].
  - intros fs _ _ f Hfs _ _. by destruct fs.
  - intros f1 Hf1. rewrite Hf0 in Hf1. by simplify_eq.
Qed.

End Run.

(** C8, as amended: [visualise] on an engine with captured traces leaves
    the traces, the maximum trace length and the replace map as they
    were, but not the rank grid, which stays as the last frame shows it:
    a second call with the same arguments on the same instance starts from
    the last frame of the first call. *)
Theorem second_call_resumes fuel fuel' num_frames m e frames e' frames' e'' :
  swaps e ≠ [] →
  visualise fuel num_frames m e = Ret frames e' →
  visualise fuel' num_frames m e' = Ret frames' e'' →
  swaps e' = swaps e ∧ max_swaps e' = max_swaps e ∧ replace_dict e' = replace_dict e
  ∧ is_Some (last frames) ∧ head frames' = last frames.
Proof.
  intros Hs [Hre (f & Hlast & Hf)]%visualise_last Hrun'; [|done].
  assert (swaps e' = swaps e) as Hsw by (by rewrite Hre).
  split; [done|]. split; [by rewrite Hre|]. split; [by rewrite Hre|].
  apply visualise_first in Hrun' as (f' & Hhead & Hf'); [|by rewrite Hsw].
  rewrite Hlast, Hhead. split; [eauto|]. unfold replace_with_pixels in *. congruence.
Qed.

Lemma second_call_resumes_witness :
  swaps swapped_engine ≠ [] ∧
  ∃ frames e' frames' e'',
    visualise 3 2 "bubble_sort" swapped_engine = Ret frames e' ∧
    visualise 3 2 "bubble_sort" e' = Ret frames' e'' ∧
    head frames' = last frames.
Proof.
  assert (swaps swapped_engine ≠ []) as Hs by done.
  split; [done|].
  destruct (visualise 3 2 "bubble_sort" swapped_engine) as [frames e'| |] eqn:Hrun;
    [|by vm_compute in Hrun..].
  destruct (visualise 3 2 "bubble_sort" e') as [frames' e''| |] eqn:Hrun';
    [|vm_compute in Hrun; simplify_eq; by vm_compute in Hrun'..].
  exists frames, e', frames', e''. split; [done|]. split; [done|].
  by destruct (second_call_resumes 3 3 2 "bubble_sort" swapped_engine
                 frames e' frames' e'' Hs Hrun Hrun') as (_ & _ & _ & _ & ?).
Defined.

(** C8, as stated, fails: the first call leaves the grid sorted, and the
    second call replays the swap on the sorted grid. *)
Lemma second_call_differs :
  ∃ e' e'',
    visualise 3 2 "bubble_sort" swapped_engine
    = Ret [ [[ [x04; x05; x06]; [x01; x02; x03] ]];
            [[ [x01; x02; x03]; [x04; x05; x06] ]];
            [[ [x01; x02; x03]; [x04; x05; x06] ]] ] e' ∧
    visualise 3 2 "bubble_sort" e'
    = Ret [ [[ [x01; x02; x03]; [x04; x05; x06] ]];
            [[ [x04; x05; x06]; [x01; x02; x03] ]];
            [[ [x04; x05; x06]; [x01; x02; x03] ]] ] e''.
Proof.
  exists (set_replaced swapped_engine [[0; 1]]), (set_replaced swapped_engine [[1; 0]]).
  split; vm_compute; reflexivity.
Qed.

(** ** Configuration errors *)

Lemma sort_unknown m e :
  sorting_methods e !! m = None → (0 < rows e)%nat → is_Some (replaced e !! 0%nat) →
  sort m e = Exc KeyError e.
Proof.
  intros Hm Hrows [r Hr]. unfold sort, bind at 1, get.
  destruct (rows e) as [|n] eqn:Hn; [lia|].
  unfold range. cbn [seq for_]. unfold bind at 1, bind at 1, get_row, bind at 1, get.
  rewrite Hr. unfold or_raise at 1, lift at 1.
  unfold bind at 1, get. unfold bind at 1. by rewrite Hm.
Qed.

(** C9, as amended: an algorithm identifier that is not in the registry
    makes [sort], and [visualise] when it has to sort first, fail with a
    KeyError at the first row of a grid that has one, before any trace is
    stored and with the engine as it was; a request for one frame on an
    engine that has its traces fails with a ZeroDivisionError, with the
    engine as it was. *)
Theorem configuration_errors fuel m e :
  (sorting_methods e !! m = None → (0 < rows e)%nat → is_Some (replaced e !! 0%nat) →
   sort m e = Exc KeyError e ∧
   (swaps e = [] → ∀ num_frames, visualise fuel num_frames m e = Exc KeyError e))
  ∧
  ((∃ t ts, swaps e = t :: ts ∧ len t ≠ 0) → (∃ f0, replace_with_pixels e = Done f0) →
   visualise fuel 1 m e = Exc ZeroDivisionError e).
Proof.
  split.
  - intros Hm Hrows Hr. split; [by apply sort_unknown|].
    intros Hs num_frames. unfold visualise, visualise_with, bind at 1, get.
    rewrite Hs. unfold bind at 1. by rewrite sort_unknown.
  - intros (t & ts & Hs & Hlen) [f0 Hf0]. by eapply visualise_one_frame.
Qed.

Lemma configuration_errors_witness :
  (sorting_methods shuffled_engine !! "bogo_sort"%string = None ∧
   (0 < rows shuffled_engine)%nat ∧ is_Some (replaced shuffled_engine !! 0%nat) ∧
   swaps shuffled_engine = [] ∧
   sort "bogo_sort" shuffled_engine = Exc KeyError shuffled_engine ∧
   visualise 3 3 "bogo_sort" shuffled_engine = Exc KeyError shuffled_engine)
  ∧
  ((∃ t ts, swaps swapped_engine = t :: ts ∧ len t ≠ 0) ∧
   (∃ f0, replace_with_pixels swapped_engine = Done f0) ∧
   visualise 3 1 "bubble_sort" swapped_engine = Exc ZeroDivisionError swapped_engine).
Proof.
  assert (sorting_methods shuffled_engine !! "bogo_sort"%string = None) as Hm
    by (by vm_compute).
  assert (0 < rows shuffled_engine)%nat as Hrows by (cbv; lia).
  assert (is_Some (replaced shuffled_engine !! 0%nat)) as Hr by (by eexists).
  assert (∃ t ts, swaps swapped_engine = t :: ts ∧ len t ≠ 0) as Hs
    by (by exists (Swaps [(0, 1)]), []).
  assert (∃ f0, replace_with_pixels swapped_engine = Done f0) as Hf
    by (eexists; by vm_compute).
  destruct (configuration_errors 3 "bogo_sort" shuffled_engine) as [Ha _].
  destruct (configuration_errors 3 "bubble_sort" swapped_engine) as [_ Hb].
  destruct (Ha Hm Hrows Hr) as [Hsort Hvis].
  split; [|by auto].
  do 5 (split; [done|]). by apply Hvis.
Defined.

(** C9, as stated, fails for a request of one frame on an engine that has
    not sorted yet: the division by zero is raised after [sort] has
    stored the traces and the maximum trace length. *)
Lemma one_frame_fails_after_sorting :
  swaps shuffled_engine = [] ∧ max_swaps shuffled_engine = 0 ∧
  observe (visualise 3 1 "bubble_sort" shuffled_engine)
  = Some (Raise ZeroDivisionError, ([[1; 0]], [Swaps [(0, 1)]], 1)).
Proof. repeat split; reflexivity. Qed.

(** ** Slices *)

Lemma slice_length {A} (l : list A) (a b : Z) :
  0 ≤ a ≤ b →
  Z.of_nat (length (Py.slice l a b))
  = (b - a) `min` (0 `max` (Z.of_nat (length l) - a)).
Proof.
  intros Hab. unfold Py.slice, Py.bound.
  rewrite length_take, length_drop.
  destruct (Z.ltb_spec a 0), (Z.ltb_spec b 0); lia.
Qed.

Lemma slice_past_end {A} (l : list A) (a b : Z) :
  Z.of_nat (length l) ≤ a → 0 ≤ a → Py.slice l a b = [].
Proof.
  intros Hlen Ha. unfold Py.slice, Py.bound.
  destruct (Z.ltb_spec a 0); [lia|].
  rewrite drop_ge by lia. by rewrite take_nil.
Qed.

Lemma slice_to_end {A} (l : list A) (a b : Z) :
  0 ≤ a → Z.of_nat (length l) ≤ b → Py.slice l a b = drop (Z.to_nat a) l.
Proof.
  intros Ha Hb. unfold Py.slice, Py.bound.
  destruct (Z.ltb_spec a 0), (Z.ltb_spec b 0); try lia.
  destruct (decide (a ≤ Z.of_nat (length l))).
  - replace (Z.to_nat (a `min` Z.of_nat (length l))) with (Z.to_nat a) by lia.
    apply take_ge. rewrite length_drop. lia.
  - rewrite !drop_ge by lia. by rewrite take_nil.
Qed.

Lemma slice_len_clipped t a b :
  0 ≤ a ≤ b → slice_len t a b = (b - a) `min` (0 `max` (len t - a)).
Proof. intros Hab. destruct t; cbn; by apply slice_length. Qed.

(** ** Slice assignment *)

Lemma patch_lookup (r vals : list Z) (lo m j : nat) :
  length vals = m → (lo + m ≤ length r)%nat →
  length (take lo r ++ vals ++ drop (lo + m) r) = length r
  ∧ ((j < lo ∨ lo + m ≤ j)%nat →
     (take lo r ++ vals ++ drop (lo + m) r) !! j = r !! j).
Proof.
  intros Hv Hle. split.
  - rewrite !length_app, length_take, length_drop. lia.
  - intros [Hj|Hj].
    + rewrite lookup_app_l by (rewrite length_take; lia). by apply lookup_take_lt.
    + rewrite lookup_app_r by (rewrite length_take; lia).
      rewrite lookup_app_r by (rewrite length_take; lia).
      rewrite lookup_drop, length_take. f_equal. lia.
Qed.



(** ** The write cursor *)















(** ** The chunks of a replay *)

Lemma boundary_next M n k :
  0 < n → 0 ≤ k →
  boundary M n (k + 1)
  = boundary M n k + M `div` n + (take_extra (0 `max` (M `mod` n - k))).1
  ∧ (take_extra (0 `max` (M `mod` n - k))).2 = 0 `max` (M `mod` n - (k + 1)).
Proof.
  intros Hn Hk. unfold boundary, take_extra.
  destruct (Z.ltb_spec 0 (0 `max` (M `mod` n - k))); cbn [fst snd]; lia.
Qed.

Lemma boundary_first M n : 0 < n → boundary M n 0 = 0.
Proof. intros Hn. unfold boundary. pose proof (Z.mod_pos_bound M n Hn). lia. Qed.

Lemma boundary_last M n : 0 < n → 0 ≤ M → boundary M n n = M.
Proof.
  intros Hn HM. unfold boundary.
  pose proof (Z.mod_pos_bound M n Hn). pose proof (Z.div_mod M n). lia.
Qed.

Lemma boundary_size M n k :
  0 < n → 0 ≤ k →
  boundary M n (k + 1) - boundary M n k
  = M `div` n + (if k <? M `mod` n then 1 else 0).
Proof.
  intros Hn Hk. unfold boundary. destruct (Z.ltb_spec k (M `mod` n)); lia.
Qed.

Lemma boundary_mono M n k :
  0 < n → 0 ≤ M → 0 ≤ k → boundary M n k ≤ boundary M n (k + 1).
Proof.
  intros Hn HM Hk. rewrite <- Z.le_0_sub, boundary_size by done.
  pose proof (Z.div_pos M n HM Hn). destruct (k <? M `mod` n); lia.
Qed.

Lemma boundary_below M n k :
  0 < n → n ≤ M → 0 ≤ k < n → boundary M n k < M.
Proof.
  intros Hn HM Hk. rewrite <- (boundary_last M n) at 2 by lia. unfold boundary.
  pose proof (Z.mod_pos_bound M n Hn).
  assert (1 ≤ M `div` n) by (apply Z.div_le_lower_bound; lia).
  nia.
Qed.

Lemma boundary_le M n k :
  0 < n → 0 ≤ M → 0 ≤ k ≤ n → boundary M n k ≤ M.
Proof.
  intros Hn HM Hk. rewrite <- (boundary_last M n) at 2 by lia. unfold boundary.
  pose proof (Z.mod_pos_bound M n Hn). pose proof (Z.div_pos M n HM Hn). nia.
Qed.

Lemma chunks_from_S M n k j :
  chunks_from M n k (S j)
  = (boundary M n k, boundary M n (k + 1)) :: chunks_from M n (k + 1) j.
Proof.
  unfold chunks_from. cbn [seq fmap list_fmap]. rewrite Z.add_0_r. f_equal.
  rewrite <- fmap_S_seq, <- list_fmap_compose. apply list_fmap_ext.
  intros _ i _. cbn. by replace (k + 1 + Z.of_nat i) with (k + Z.of_nat (S i)) by lia.
Qed.

(** The out-of-place loop visits the [n] chunks of the split, when no
    chunk is empty. *)
Lemma splice_chunks_from M n k j fuel :
  0 < n → n ≤ M → 0 ≤ k → k + Z.of_nat j = n → (j < fuel)%nat →
  splice_chunks fuel M (boundary M n k) (M `div` n) (0 `max` (M `mod` n - k))
  = Some (chunks_from M n k j).
Proof.
  intros Hn HM. revert k fuel.
  induction j as [|j IH]; intros k [|fuel] Hk Hkj Hfuel; try lia; cbn [splice_chunks].
  - replace k with n by lia. rewrite boundary_last by lia.
    by rewrite Z.ltb_irrefl.
  - destruct (Z.ltb_spec (boundary M n k) M) as [_|Hge];
      [|pose proof (boundary_below M n k); lia].
    destruct (boundary_next M n k Hn Hk) as [Hnext Hrem].
    destruct (take_extra (0 `max` (M `mod` n - k))) as [extra rem'] eqn:Hex.
    cbn [fst snd] in *. subst rem'.
    replace (boundary M n k + M `div` n + extra) with (boundary M n (k + 1)) by lia.
    rewrite IH by lia. by rewrite chunks_from_S.
Qed.

(** The in-place loop visits the same chunks, and then one more that
    starts at the end. *)
Lemma swap_chunks_from M n k j fuel :
  0 < n → n ≤ M → 0 ≤ k → k + Z.of_nat j = n → (S j < fuel)%nat →
  swap_chunks fuel M (boundary M n k) (M `div` n) (0 `max` (M `mod` n - k))
  = Some (chunks_from M n k j ++ [(M, M + M `div` n)]).
Proof.
  intros Hn HM. assert (1 ≤ M `div` n) by (apply Z.div_le_lower_bound; lia).
  pose proof (Z.mod_pos_bound M n Hn).
  revert k fuel.
  induction j as [|j IH]; intros k [|fuel] Hk Hkj Hfuel; try lia; cbn [swap_chunks].
  - replace k with n by lia. rewrite boundary_last by lia.
    rewrite Z.leb_refl. unfold take_extra.
    destruct (Z.ltb_spec 0 (0 `max` (M `mod` n - n))); [lia|].
    destruct fuel as [|fuel]; [lia|]. cbn [swap_chunks].
    destruct (Z.leb_spec (M + M `div` n + 0) M); [lia|].
    cbn. by rewrite Z.add_0_r.
  - destruct (Z.leb_spec (boundary M n k) M) as [_|Hgt];
      [|pose proof (boundary_le M n k); lia].
    destruct (boundary_next M n k Hn Hk) as [Hnext Hrem].
    destruct (take_extra (0 `max` (M `mod` n - k))) as [extra rem'] eqn:Hex.
    cbn [fst snd] in *. subst rem'.
    replace (boundary M n k + M `div` n + extra) with (boundary M n (k + 1)) by lia.
    rewrite IH by lia. by rewrite chunks_from_S.
Qed.

(** With a step of zero, the in-place loop never gets past the end. *)
Lemma swap_chunks_stuck fuel M sn rem :
  0 ≤ rem → sn + rem ≤ M → swap_chunks fuel M sn 0 rem = None.
Proof.
  revert sn rem. induction fuel as [|fuel IH]; intros sn rem Hrem Hle; [done|].
  cbn [swap_chunks]. destruct (Z.leb_spec sn M); [|lia].
  unfold take_extra. destruct (Z.ltb_spec 0 rem); rewrite IH; done || lia.
Qed.

Lemma swap_chunks_mono fuel fuel' M sn step rem cs :
  swap_chunks fuel M sn step rem = Some cs → (fuel ≤ fuel')%nat →
  swap_chunks fuel' M sn step rem = Some cs.
Proof.
  revert fuel' sn rem cs.
  induction fuel as [|fuel IH]; intros [|fuel'] sn rem cs H Hle; try done; [lia|].
  cbn [swap_chunks] in *. destruct (sn <=? M); [|done].
  destruct (take_extra rem) as [extra rem'].
  destruct (swap_chunks fuel _ _ _ _) as [cs'|] eqn:Hcs; [|done].
  erewrite IH; [done..|lia].
Qed.

Lemma splice_chunks_mono fuel fuel' M sn step rem cs :
  splice_chunks fuel M sn step rem = Some cs → (fuel ≤ fuel')%nat →
  splice_chunks fuel' M sn step rem = Some cs.
Proof.
  revert fuel' sn rem cs.
  induction fuel as [|fuel IH]; intros [|fuel'] sn rem cs H Hle; try done; [lia|].
  cbn [splice_chunks] in *. destruct (sn <? M); [|done].
  destruct (take_extra rem) as [extra rem'].
  destruct (splice_chunks fuel _ _ _ _) as [cs'|] eqn:Hcs; [|done].
  erewrite IH; [done..|lia].
Qed.


Lemma chunks_from_lookup M n k j (i : nat) :
  (i < j)%nat →
  chunks_from M n k j !! i
  = Some (boundary M n (k + Z.of_nat i), boundary M n (k + Z.of_nat i + 1)).
Proof.
  intros Hi. unfold chunks_from. by rewrite list_lookup_fmap, lookup_seq_lt.
Qed.

Section LoopChunks.

Context {X : Type} (emit : SortingVisualiser → outcome X).

Lemma swap_frame_max a b e f e' :
  swap_frame emit a b e = Ret f e' → max_swaps e' = max_swaps e.
Proof. intros (->%swap_rows_regridded & _)%swap_frame_inv. done. Qed.

Lemma splice_frame_max pos a b e fp e' :
  splice_frame emit pos a b e = Ret fp e' → max_swaps e' = max_swaps e.
Proof.
  destruct fp. intros (_ & ->%splice_rows_regridded & _)%splice_frame_inv. done.
Qed.

(** The in-place loop is the replay of the chunks that its tests and
    updates of [swap_num] visit. *)
Lemma swap_loop_chunks fuel sn step rem frames e chunks :
  swap_chunks fuel (max_swaps e) sn step rem = Some chunks →
  swap_loop emit fuel sn step rem frames e = swap_frames emit chunks frames e.
Proof.
  revert sn rem frames e chunks.
  induction fuel as [|fuel IH]; intros sn rem frames e chunks Hcs; [done|].
  rewrite swap_loop_turn. cbn [swap_chunks] in Hcs.
  destruct (sn <=? max_swaps e); [|by simplify_eq].
  destruct (take_extra rem) as [extra rem']. cbn [fst snd].
  destruct (swap_chunks fuel _ _ _ _) as [cs|] eqn:Hrest; [|done].
  cbn in Hcs. simplify_eq. cbn [swap_frames]. unfold bind.
  destruct (swap_frame emit sn (sn + step + extra) e) as [f e1| |] eqn:Hbody;
    [|done..].
  apply IH. by rewrite (swap_frame_max _ _ _ _ _ Hbody).
Qed.

Lemma splice_loop_chunks fuel pos sn step rem frames e chunks :
  splice_chunks fuel (max_swaps e) sn step rem = Some chunks →
  splice_loop emit fuel pos sn step rem frames e
  = splice_frames emit chunks pos frames e.
Proof.
  revert pos sn rem frames e chunks.
  induction fuel as [|fuel IH]; intros pos sn rem frames e chunks Hcs; [done|].
  rewrite splice_loop_turn. cbn [splice_chunks] in Hcs.
  destruct (sn <? max_swaps e); [|by simplify_eq].
  destruct (take_extra rem) as [extra rem']. cbn [fst snd].
  destruct (splice_chunks fuel _ _ _ _) as [cs|] eqn:Hrest; [|done].
  cbn in Hcs. simplify_eq. cbn [splice_frames]. unfold bind.
  destruct (splice_frame emit pos sn (sn + step + extra) e) as [fp e1| |] eqn:Hbody;
    [|done..].
  apply IH. by rewrite (splice_frame_max _ _ _ _ _ _ Hbody).
Qed.

(** A loop that returns has visited all its chunks, and appended one
    frame for each. *)
Lemma swap_loop_returns fuel sn step rem frames e frames' e' :
  swap_loop emit fuel sn step rem frames e = Ret frames' e' →
  ∃ chunks, swap_chunks fuel (max_swaps e) sn step rem = Some chunks
            ∧ length frames' = (length frames + length chunks)%nat.
Proof.
  revert sn rem frames e.
  induction fuel as [|fuel IH]; intros sn rem frames e Hrun; [done|].
  rewrite swap_loop_turn in Hrun. cbn [swap_chunks].
  destruct (sn <=? max_swaps e); [|simplify_eq; exists []; cbn; split; [done|lia]].
  destruct (take_extra rem) as [extra rem']. cbn [fst snd] in Hrun.
  apply bind_Ret in Hrun as (f & e1 & Hbody & Hrest).
  apply IH in Hrest as (cs & Hcs & Hlen).
  rewrite (swap_frame_max _ _ _ _ _ Hbody) in Hcs. rewrite Hcs.
  eexists. split; [done|]. rewrite Hlen, length_app. cbn. lia.
Qed.

Lemma splice_loop_returns fuel pos sn step rem frames e frames' e' :
  splice_loop emit fuel pos sn step rem frames e = Ret frames' e' →
  ∃ chunks, splice_chunks fuel (max_swaps e) sn step rem = Some chunks
            ∧ length frames' = (length frames + length chunks)%nat.
Proof.
  revert pos sn rem frames e.
  induction fuel as [|fuel IH]; intros pos sn rem frames e Hrun; [done|].
  rewrite splice_loop_turn in Hrun. cbn [splice_chunks].
  destruct (sn <? max_swaps e); [|simplify_eq; exists []; cbn; split; [done|lia]].
  destruct (take_extra rem) as [extra rem']. cbn [fst snd] in Hrun.
  apply bind_Ret in Hrun as (fp & e1 & Hbody & Hrest).
  apply IH in Hrest as (cs & Hcs & Hlen).
  rewrite (splice_frame_max _ _ _ _ _ _ Hbody) in Hcs. rewrite Hcs.
  eexists. split; [done|]. rewrite Hlen, length_app. cbn. lia.
Qed.

End LoopChunks.

Lemma chunks_from_length M n k j : length (chunks_from M n k j) = j.
Proof. unfold chunks_from. by rewrite length_fmap, length_seq. Qed.

(** The two loops from their start, for a trace that is not shorter than
    the number [n] of chunks. *)
Lemma splice_chunks_whole M n fuel :
  0 < n → n ≤ M → (Z.to_nat n < fuel)%nat →
  splice_chunks fuel M 0 (M `quot` n) (M `mod` n)
  = Some (chunks_from M n 0 (Z.to_nat n)).
Proof.
  intros Hn HM Hfuel. rewrite Z.quot_div_nonneg by lia.
  pose proof (splice_chunks_from M n 0 (Z.to_nat n) fuel Hn HM) as H.
  rewrite boundary_first in H by done.
  replace (0 `max` (M `mod` n - 0)) with (M `mod` n) in H
    by (pose proof (Z.mod_pos_bound M n Hn); lia).
  apply H; lia.
Qed.

Lemma swap_chunks_whole M n fuel :
  0 < n → n ≤ M → (S (Z.to_nat n) < fuel)%nat →
  swap_chunks fuel M 0 (M `div` n) (M `mod` n)
  = Some (chunks_from M n 0 (Z.to_nat n) ++ [(M, M + M `div` n)]).
Proof.
  intros Hn HM Hfuel.
  pose proof (swap_chunks_from M n 0 (Z.to_nat n) fuel Hn HM) as H.
  rewrite boundary_first in H by done.
  replace (0 `max` (M `mod` n - 0)) with (M `mod` n) in H
    by (pose proof (Z.mod_pos_bound M n Hn); lia).
  apply H; lia.
Qed.




(** ** The number of frames *)

(** In swap-replay mode a run that returns has one frame more than asked
    for: the loop goes on while [swap_num <= max_swaps], and so once more
    when the trace is used up. *)
Lemma in_place_frame_count fuel num_frames m e p l ts frames e' :
  swaps e = Swaps (p :: l) :: ts →
  2 ≤ num_frames → num_frames - 1 ≤ max_swaps e →
  visualise fuel num_frames m e = Ret frames e' →
  Z.of_nat (length frames) = num_frames + 1.
Proof.
  intros Hs Hnf HM (f0 & _ & _ & Hloop)%visualise_inv; [|by rewrite Hs].
  destruct Hloop as [[_ Hrun]|[(? & ? & ? & ?) _]]; [|congruence].
  apply swap_loop_returns in Hrun as (chunks & Hcs & ->).
  set (k := S (S (Z.to_nat (num_frames - 1)))).
  apply (swap_chunks_mono _ (fuel `max` k)%nat) in Hcs; [|lia].
  rewrite swap_chunks_whole in Hcs by lia. simplify_eq.
  rewrite length_app, chunks_from_length. cbn. lia.
Qed.

(** In swap-replay mode with a trace shorter than the number of chunks,
    the step is zero and the loop never ends. *)
Lemma in_place_never_returns fuel num_frames m e p l ts frames e' :
  swaps e = Swaps (p :: l) :: ts →
  0 ≤ max_swaps e < num_frames - 1 →
  visualise fuel num_frames m e ≠ Ret frames e'.
Proof.
  intros Hs HM (f0 & _ & _ & Hloop)%visualise_inv; [|by rewrite Hs].
  destruct Hloop as [[_ Hrun]|[(? & ? & ? & ?) _]]; [|congruence].
  apply swap_loop_returns in Hrun as (chunks & Hcs & _).
  rewrite Z.div_small, Z.mod_small in Hcs by lia.
  rewrite swap_chunks_stuck in Hcs; [done|lia..].
Qed.

(** In snapshot-splice mode a run that returns has the frames asked for,
    when the trace is not shorter than the number of chunks. *)
Lemma out_of_place_frame_count fuel num_frames m e v l ts frames e' :
  swaps e = Values (v :: l) :: ts →
  2 ≤ num_frames → num_frames - 1 ≤ max_swaps e →
  visualise fuel num_frames m e = Ret frames e' →
  Z.of_nat (length frames) = num_frames.
Proof.
  intros Hs Hnf HM (f0 & _ & _ & Hloop)%visualise_inv; [|by rewrite Hs].
  destruct Hloop as [[(? & ? & ? & ?) _]|[_ Hrun]]; [congruence|].
  apply splice_loop_returns in Hrun as (chunks & Hcs & ->).
  set (k := S (Z.to_nat (num_frames - 1))).
  apply (splice_chunks_mono _ (fuel `max` k)%nat) in Hcs; [|lia].
  rewrite splice_chunks_whole in Hcs by lia. simplify_eq.
  rewrite chunks_from_length. cbn. lia.
Qed.

(** C1 fails in swap-replay mode: two frames are asked for of the 1 x 2
    image whose row was shuffled to [1, 0], with a bubble sort that makes
    one swap, and three come back, the last one twice. *)
Theorem one_frame_too_many :
  ∃ e',
    visualise 3 2 "bubble_sort" shuffled_engine
    = Ret [ [[ [x04; x05; x06]; [x01; x02; x03] ]];
            [[ [x01; x02; x03]; [x04; x05; x06] ]];
            [[ [x01; x02; x03]; [x04; x05; x06] ]] ] e'
    ∧ swaps e' = [Swaps [(0, 1)]] ∧ max_swaps e' = 1.
Proof.
  exists (set_replaced swapped_engine [[0; 1]]). split; [|done].
  vm_compute. reflexivity.
Qed.

(** ** Runs that sort first *)

Lemma visualise_sorts_first {X} (emit : SortingVisualiser → outcome X)
    fuel num_frames m e e1 :
  swaps e = [] → sort m e = Ret () e1 → swaps e1 ≠ [] →
  visualise_with emit fuel num_frames m e = visualise_with emit fuel num_frames m e1.
Proof.
  intros Hs Hsort Hs1. unfold visualise_with.
  set (rest := λ _ : (), bind (snapshot emit) _).
  cbv [bind get]. rewrite Hs, Hsort. by destruct (swaps e1).
Qed.

(** The sample engines with traces are what [sort] leaves. *)
Lemma sort_sorted_engine :
  sort "bubble_sort" sorted_engine = Ret () (set_swaps sorted_engine [Swaps []] 0).
Proof. vm_compute. reflexivity. Qed.

Lemma sort_shuffled_engine :
  sort "bubble_sort" shuffled_engine = Ret () swapped_engine.
Proof. vm_compute. reflexivity. Qed.

Lemma counting_sort_shuffled_engine :
  sort "counting_sort" shuffled_engine = Ret () spliced_engine.
Proof. vm_compute. reflexivity. Qed.

Lemma sort_uneven_engine :
  sort "bubble_sort" (init stand_ins flip_first four_pixels true false)
  = Ret () uneven_engine.
Proof. vm_compute. reflexivity. Qed.

(** ** Traces without steps *)

(** C7 fails: five frames are asked for of the 1 x 2 image whose row is
    already sorted, the bubble sort records no swap, and the test of the
    type of the first step of the first trace raises an IndexError. *)
Theorem no_steps_no_frames fuel :
  observe (visualise fuel 5 "bubble_sort" sorted_engine)
  = Some (Raise IndexError, ([[0; 1]], [Swaps []], 0)).
Proof.
  unfold visualise.
  rewrite (visualise_sorts_first _ fuel 5 _ sorted_engine _ eq_refl sort_sorted_engine)
    by done.
  by erewrite visualise_empty_first.
Qed.

(** ** Traces shorter than the number of chunks *)

Lemma slice_empty {A} (l : list A) (a : Z) : Py.slice l a a = [].
Proof. unfold Py.slice. by rewrite Nat.sub_diag, take_0. Qed.

Lemma swap_pixels_nothing row a e :
  is_Some (swaps e !! row) → swap_pixels row a a e = Ret () e.
Proof.
  intros [t Ht]. unfold swap_pixels, bind at 1 2, get. rewrite Ht. cbn.
  destruct t; by rewrite slice_empty.
Qed.

Lemma swap_rows_nothing a e rs :
  (∀ row, row ∈ rs → is_Some (swaps e !! row)) →
  for_ rs (λ row, swap_pixels row a a) e = Ret () e.
Proof.
  induction rs as [|row rs IH]; intros Hrs; [done|].
  cbn [for_]. unfold bind. rewrite swap_pixels_nothing by (apply Hrs; left).
  apply IH. intros ? ?. apply Hrs. by right.
Qed.

(** Once the step and the remainder are zero, every turn of the in-place
    loop replays an empty slice and the loop goes on for ever. *)
Lemma stuck_loop_times_out {X} (emit : SortingVisualiser → outcome X) e f sn :
  (∀ row, (row < rows e)%nat → is_Some (swaps e !! row)) →
  emit e = Done f → max_swaps e ≠ 0 → sn ≤ max_swaps e →
  ∀ fuel frames, swap_loop emit fuel sn 0 0 frames e = Timeout.
Proof.
  intros Hrows Hf Hm Hsn fuel. induction fuel as [|fuel IH]; intros frames; [done|].
  rewrite swap_loop_turn. destruct (Z.leb_spec sn (max_swaps e)); [|lia].
  cbn [take_extra Z.ltb Z.compare fst snd]. rewrite !Z.add_0_r.
  assert (swap_frame emit sn sn e = Ret f e) as Hbody.
  { unfold swap_frame, bind at 1, get, bind at 1.
    rewrite swap_rows_nothing by (intros row ?%elem_of_seq; apply Hrows; lia).
    unfold bind at 1, snapshot, bind at 1, get. rewrite Hf. cbn.
    by destruct (Z.eqb_spec (max_swaps e) 0). }
  unfold bind. rewrite Hbody. apply IH.
Qed.

(** C5 fails where the last frame never comes: three frames are asked
    for of the 1 x 2 image whose row was shuffled to [1, 0]; the bubble
    sort records one swap, the step is 1 div 2 = 0, and after the first
    chunk [swap_num] stays at 1 <= 1 for ever. *)
Theorem short_trace_never_ends fuel :
  visualise fuel 3 "bubble_sort" shuffled_engine = Timeout.
Proof.
  unfold visualise.
  rewrite (visualise_sorts_first _ fuel 3 _ shuffled_engine _ eq_refl
             sort_shuffled_engine) by done.
  erewrite visualise_in_place; [|reflexivity|by vm_compute|done].
  destruct fuel as [|fuel]; [done|].
  rewrite swap_loop_turn.
  change (max_swaps swapped_engine) with 1. cbn [Z.leb Z.compare].
  change (take_extra (1 `mod` (3 - 1))) with (1, 0). cbn [fst snd].
  change (1 `div` (3 - 1)) with 0.
  unfold bind.
  replace (swap_frame replace_with_pixels 0 (0 + 0 + 1) swapped_engine)
    with (Ret [[ [x01; x02; x03]; [x04; x05; x06] ]]
            (set_replaced swapped_engine [[0; 1]])) by (vm_compute; reflexivity).
  eapply stuck_loop_times_out; [|by vm_compute|done|done].
  intros row Hrow. change (rows _) with 1%nat in Hrow.
  destruct row; [by eexists|lia].
Qed.

(** ** Rows with short traces *)

(** C6, as amended: in swap-replay mode a row whose trace is shorter than
    the others, or empty, raises nothing for being short: a chunk that
    starts at or after the end of its trace leaves the engine as it is,
    and a chunk that ends after the end of its trace replays the swaps
    that the row has left, as a chunk that ends with the trace does. *)
Theorem short_rows_are_skipped row a b e l :
  swaps e !! row = Some (Swaps l) → 0 ≤ a →
  (Z.of_nat (length l) ≤ a → swap_pixels row a b e = Ret () e)
  ∧ (Z.of_nat (length l) ≤ b →
     swap_pixels row a b e = swap_pixels row a (Z.of_nat (length l)) e).
Proof.
  intros Ht Ha. split; intros Hlen.
  - unfold swap_pixels, bind at 1 2, get. rewrite Ht. cbn.
    by rewrite slice_past_end.
  - assert (Py.slice l a b = Py.slice l a (Z.of_nat (length l))) as Heq
      by (by rewrite !slice_to_end by lia).
    unfold swap_pixels. cbv [bind get lift]. rewrite Ht. cbv [or_raise].
    by rewrite Heq.
Qed.

Lemma short_rows_are_skipped_witness :
  swaps uneven_engine !! 1%nat = Some (Swaps []) ∧ 0 ≤ 0 ∧
  Z.of_nat (length (@nil (Z * Z))) ≤ 0 ∧ Z.of_nat (length (@nil (Z * Z))) ≤ 1 ∧
  swap_pixels 1 0 1 uneven_engine = Ret () uneven_engine ∧
  observe (rank_frames 3 2 "bubble_sort" uneven_engine)
  = Some (Done [ [[1; 0]; [0; 1]]; [[0; 1]; [0; 1]]; [[0; 1]; [0; 1]] ],
          ([[0; 1]; [0; 1]], [Swaps [(0, 1)]; Swaps []], 1)).
Proof.
  assert (swaps uneven_engine !! 1%nat = Some (Swaps [])) as Ht by done.
  destruct (short_rows_are_skipped 1 0 1 uneven_engine [] Ht (Z.le_refl 0))
    as [Hskip _].
  split; [done|]. split; [done|]. split; [done|]. split; [done|].
  split; [by apply Hskip|reflexivity].
Defined.

(** C6, as stated, fails in snapshot-splice mode: the second row has no
    values for the column that the first chunk writes, and the slice
    assignment raises a ValueError. *)
Lemma short_row_stops_the_splice :
  max_swaps ragged_engine = 2 ∧ swaps ragged_engine !! 1%nat = Some (Values []) ∧
  observe (visualise 3 3 "counting_sort" ragged_engine)
  = Some (Raise ValueError, ([[0; 1]; [0; 1]], [Values [0; 1]; Values []], 2)).
Proof. repeat split; reflexivity. Qed.

(** ** The last frame of a swap replay *)

Lemma apply_swaps_app r xs ys :
  apply_swaps r (xs ++ ys) = r' ← apply_swaps r xs; apply_swaps r' ys.
Proof.
  revert r. induction xs as [|[i j] xs IH]; intros r; cbn; [done|].
  destruct (swap_cells r i j); cbn; [apply IH|done].
Qed.

Lemma slice_app {A} (l : list A) (a b c : Z) :
  0 ≤ a ≤ b → b ≤ c → Py.slice l a b ++ Py.slice l b c = Py.slice l a c.
Proof.
  intros Hab Hbc. unfold Py.slice, Py.bound.
  destruct (Z.ltb_spec a 0), (Z.ltb_spec b 0), (Z.ltb_spec c 0); try lia.
  set (n := Z.of_nat (length l)).
  set (a' := Z.to_nat (a `min` n)). set (b' := Z.to_nat (b `min` n)).
  set (c' := Z.to_nat (c `min` n)).
  assert (a' ≤ b' ≤ c')%nat as [Hab' Hbc'] by lia.
  replace (drop b' l) with (drop (b' - a') (drop a' l))
    by (rewrite drop_drop; f_equal; lia).
  replace (c' - a')%nat with ((b' - a') + (c' - b'))%nat by lia.
  by rewrite take_take_drop.
Qed.

Lemma contiguous_app cs cs' a b c :
  contiguous cs a b → contiguous cs' b c → contiguous (cs ++ cs') a c.
Proof.
  revert a. induction cs as [|[s t] cs IH]; intros a; cbn.
  - by intros ->.
  - intros (-> & Hle & Hcs) Hcs'. eauto.
Qed.

Lemma contiguous_le cs a b : contiguous cs a b → a ≤ b.
Proof.
  revert a. induction cs as [|[s t] cs IH]; intros a; cbn; [lia|].
  intros (-> & Hle & Hcs%IH). lia.
Qed.

Lemma chunks_from_contiguous M n k j :
  0 < n → 0 ≤ M → 0 ≤ k →
  contiguous (chunks_from M n k j) (boundary M n k) (boundary M n (k + Z.of_nat j)).
Proof.
  intros Hn HM. revert k. induction j as [|j IH]; intros k Hk.
  - cbn. by rewrite Z.add_0_r.
  - rewrite chunks_from_S. cbn [contiguous]. split; [done|].
    split; [by apply boundary_mono|].
    replace (k + Z.of_nat (S j)) with (k + 1 + Z.of_nat j) by lia. apply IH. lia.
Qed.

(** [__swap_pixels] on a row that is there and has swaps. *)
Lemma swap_pixels_effect row a b e e' l r :
  swaps e !! row = Some (Swaps l) → replaced e !! row = Some r →
  swap_pixels row a b e = Ret () e' →
  ∃ r', apply_swaps r (Py.slice l a b) = Done r'
        ∧ e' = set_replaced e (<[row := r']> (replaced e)).
Proof.
  intros Ht Hr. unfold swap_pixels, bind at 1 2, get, lift. rewrite Ht. cbn.
  by apply swap_steps_inv.
Qed.

(** The loop over the rows replays, in every row of [rs], the slice of
    its own trace, and leaves the other rows alone. *)
Lemma swap_rows_effect a b rs e e' :
  NoDup rs →
  (∀ row, row ∈ rs → ∃ l, swaps e !! row = Some (Swaps l)) →
  for_ rs (λ row, swap_pixels row a b) e = Ret () e' →
  ∀ row r, replaced e !! row = Some r →
    (row ∉ rs → replaced e' !! row = Some r) ∧
    (∀ l, row ∈ rs → swaps e !! row = Some (Swaps l) →
       ∃ r', apply_swaps r (Py.slice l a b) = Done r' ∧ replaced e' !! row = Some r').
Proof.
  revert e. induction rs as [|k rs IH]; intros e Hnd Hts Hrun row r Hr.
  - cbv in Hrun. simplify_eq. split; [done|]. by intros l ?%not_elem_of_nil.
  - apply NoDup_cons in Hnd as [Hk Hnd].
    cbn [for_] in Hrun. apply bind_Ret in Hrun as ([] & e1 & Hstep & Hrest).
    destruct (Hts k) as [lk Hlk]; [left|].
    assert (swaps e1 = swaps e) as Hsw
      by (apply swap_pixels_rows in Hstep as [-> _]; done).
    assert (∀ row', row' ∈ rs → ∃ l, swaps e1 !! row' = Some (Swaps l)) as Hts1.
    { intros row' Hin. rewrite Hsw. apply Hts. by right. }
    destruct (decide (row = k)) as [->|Hne].
    + destruct (swap_pixels_effect _ _ _ _ _ _ _ Hlk Hr Hstep) as (r' & Hr' & ->).
      assert (replaced (set_replaced e (<[k := r']> (replaced e))) !! k = Some r')
        as Hk1 by (cbn; apply list_lookup_insert_eq; by eapply lookup_lt_Some).
      destruct (IH _ Hnd Hts1 Hrest k r' Hk1) as [Hout _].
      split; [intros Hnot; exfalso; apply Hnot; left|].
      intros l _ Hl. rewrite Hlk in Hl. simplify_eq. eauto.
    + assert (replaced e1 !! row = Some r) as Hr1.
      { destruct (replaced e !! k) as [rk|] eqn:Hrk.
        - destruct (swap_pixels_effect _ _ _ _ _ _ _ Hlk Hrk Hstep) as (r' & _ & ->).
          cbn. by rewrite list_lookup_insert_ne.
        - apply swap_pixels_inv in Hstep as [->|(? & ? & ? & _ & ? & _)];
            [done|congruence]. }
      destruct (IH _ Hnd Hts1 Hrest row r Hr1) as [Hout Hin]. split.
      * intros Hnot. apply Hout. intros ?. apply Hnot. by right.
      * intros l [?|Hrow]%elem_of_cons Hl; [done|]. apply Hin; [done|].
        by rewrite Hsw.
Qed.

Section LastFrame.

Context {X : Type} (emit : SortingVisualiser → outcome X).

(** The in-place loop over chunks that follow each other from [a] to [b]
    replays, in every row, the slice [a:b] of its trace. *)
Lemma swap_frames_effect chunks a b frames e frames' e' :
  contiguous chunks a b → 0 ≤ a →
  (∀ row, (row < rows e)%nat → ∃ l, swaps e !! row = Some (Swaps l)) →
  swap_frames emit chunks frames e = Ret frames' e' →
  ∀ row r l, (row < rows e)%nat →
    replaced e !! row = Some r → swaps e !! row = Some (Swaps l) →
    ∃ r', apply_swaps r (Py.slice l a b) = Done r' ∧ replaced e' !! row = Some r'.
Proof.
  revert a frames e.
  induction chunks as [|[s t] chunks IH]; intros a frames e Hcs Ha Hts Hrun row r l Hrow Hr Hl.
  - cbn in Hcs. subst b. cbv [swap_frames ret] in Hrun. simplify_eq.
    exists r. by rewrite slice_empty.
  - cbn in Hcs. destruct Hcs as (-> & Hle & Hcs).
    cbn [swap_frames] in Hrun. apply bind_Ret in Hrun as (f & e1 & Hbody & Hrest).
    apply swap_frame_inv in Hbody as (Hrows & _ & _).
    pose proof (swap_rows_regridded _ _ _ _ _ Hrows) as Hre.
    assert (rows e1 = rows e ∧ swaps e1 = swaps e) as [Hrows1 Hsw1] by (by rewrite Hre).
    destruct (swap_rows_effect a t (range (rows e)) e e1) with (row := row) (r := r)
      as [_ Hin]; [apply NoDup_seq| |done|done|].
    { intros k Hk%elem_of_seq. apply Hts. lia. }
    destruct (Hin l) as (r1 & Hr1 & Hrow1); [apply elem_of_seq; lia|done|].
    destruct (IH t (frames ++ [f]) e1 Hcs) with (row := row) (r := r1) (l := l)
      as (r' & Hr' & Hrow'); [lia|by rewrite Hrows1, Hsw1|done|by rewrite Hrows1|done|by rewrite Hsw1|].
    exists r'. split; [|done].
    rewrite <- (slice_app l a t b); [|lia|by eapply contiguous_le].
    rewrite apply_swaps_app, Hr1. done.
Qed.

End LastFrame.

(** When the swap-replay loop ends (the longest trace is not shorter than
    the number of chunks), every row of the grid it leaves is the row
    before the replay with its whole trace applied, and the last frame
    shows that grid. *)
Lemma in_place_last_frame fuel num_frames m e p l0 ts frames e' :
  swaps e = Swaps (p :: l0) :: ts →
  2 ≤ num_frames → num_frames - 1 ≤ max_swaps e →
  (∀ row, (row < rows e)%nat →
     ∃ l, swaps e !! row = Some (Swaps l) ∧ Z.of_nat (length l) ≤ max_swaps e) →
  visualise fuel num_frames m e = Ret frames e' →
  (∀ row r l, (row < rows e)%nat →
     replaced e !! row = Some r → swaps e !! row = Some (Swaps l) →
     ∃ r', apply_swaps r l = Done r' ∧ replaced e' !! row = Some r')
  ∧ ∃ f, last frames = Some f
         ∧ decode (rows e) (columns e) (replaced e') (replace_dict e) = Done f.
Proof.
  intros Hs Hnf HM Hts Hrun. split.
  - apply visualise_inv in Hrun as (f0 & _ & _ & Hloop); [|by rewrite Hs].
    destruct Hloop as [[_ Hloop]|[(? & ? & ? & ?) _]]; [|congruence].
    set (n := num_frames - 1) in *.
    destruct (swap_loop_returns _ _ _ _ _ _ _ _ _ Hloop) as (chunks & Hcs & _).
    rewrite (swap_loop_chunks _ _ _ _ _ _ _ _ Hcs) in Hloop.
    apply (swap_chunks_mono _ (fuel `max` S (S (Z.to_nat n)))%nat) in Hcs; [|lia].
    rewrite swap_chunks_whole in Hcs by lia. simplify_eq.
    intros row r l Hrow Hr Hl.
    destruct (Hts row Hrow) as (l' & Hl' & Hlen). rewrite Hl in Hl'. simplify_eq.
    assert (0 ≤ max_swaps e `div` n) by (apply Z.div_pos; lia).
    eapply (swap_frames_effect _ _ 0 (max_swaps e + max_swaps e `div` n)) in Hloop
      as (r' & Hr' & Hrow'); [| |done| |exact Hrow|exact Hr|exact Hl].
    + exists r'. split; [|done].
      rewrite slice_to_end in Hr' by lia. by rewrite drop_0 in Hr'.
    + eapply contiguous_app.
      * pose proof (chunks_from_contiguous (max_swaps e) n 0 (Z.to_nat n)) as Hc.
        rewrite boundary_first in Hc by lia. apply Hc; lia.
      * rewrite Z.add_0_l, Z2Nat.id, boundary_last by lia. cbn. lia.
    + intros k Hk. destruct (Hts k Hk) as (? & ? & _). eauto.
  - apply visualise_last in Hrun as [Hre (f & Hlast & Hf)]; [|by rewrite Hs].
    exists f. split; [done|]. unfold replace_with_pixels in Hf. by rewrite Hre in Hf.
Qed.

(** * Further properties *)

(** ** The rank codec on any grid *)

Lemma row_dict_lookup_other im i js d (k : Z) :
  (∀ j, j ∈ js → Z.of_nat j ≠ k) → row_dict im i js d !! k = d !! k.
Proof.
  unfold row_dict. revert d. induction js as [|j js IH]; intros d Hk; [done|].
  cbn. rewrite IH by (intros ? ?; apply Hk; by right).
  apply lookup_insert_ne. apply Hk. by left.
Qed.

(** The dictionaries of [__replace_with_integers]: one per row, whose
    keys are exactly 0, ..., C-1. *)
Lemma replace_with_integers_dicts im :
  length (replace_with_integers im).2 = height im
  ∧ ∀ i d, (replace_with_integers im).2 !! i = Some d →
      ∀ k : Z, d !! k = if decide (0 ≤ k < Z.of_nat (width im))
                        then Some (cell im i (Z.to_nat k)) else None.
Proof.
  unfold replace_with_integers. rewrite encode_rows. cbn [snd app].
  split; [by rewrite length_fmap, length_seq|].
  intros i d Hd k. rewrite list_lookup_fmap in Hd.
  destruct (seq 0 (height im) !! i) as [i'|] eqn:Hi; [|done].
  apply lookup_seq in Hi as [-> _]. cbn in Hd. simplify_eq.
  case_decide as Hk.
  - rewrite <- (Z2Nat.id k) at 1 by lia. apply row_dict_lookup, elem_of_seq. lia.
  - rewrite row_dict_lookup_other; [done|]. intros j Hj%elem_of_seq. lia.
Qed.

(** X1: [__replace_with_integers] returns a grid in which every row is
    0, ..., C-1 in order, and one dictionary per row whose keys are exactly
    0, ..., C-1, the key j holding the pixel of column j of that row. *)
Theorem replace_with_integers_spec im :
  (replace_with_integers im).1 = replicate (height im) (ranks (width im))
  ∧ length (replace_with_integers im).2 = height im
  ∧ ∀ i d, (replace_with_integers im).2 !! i = Some d →
      ∀ k : Z, d !! k = if decide (0 ≤ k < Z.of_nat (width im))
                        then Some (cell im i (Z.to_nat k)) else None.
Proof.
  split; [apply replace_with_integers_ranks|apply replace_with_integers_dicts].
Qed.

Lemma for_each_inv {A B} (f : A → outcome B) xs ys :
  for_each f xs = Done ys → Forall2 (λ x y, f x = Done y) xs ys.
Proof.
  revert ys. induction xs as [|x xs IH]; intros ys H; cbn in H.
  - simplify_eq. constructor.
  - destruct (f x) as [y|] eqn:Hy; [|done]. cbn in H.
    destruct (for_each f xs) as [ys'|]; [|done]. injection H as <-.
    constructor; [done|by apply IH].
Qed.

Lemma for_each_raise {A B} (f : A → outcome B) xs x0 (x : exn) :
  (∀ a, a ∈ xs → (∃ b, f a = Done b) ∨ f a = Raise x) →
  x0 ∈ xs → f x0 = Raise x → for_each f xs = Raise x.
Proof.
  induction xs as [|a xs IH]; intros Hall Hin Hx0; [by apply not_elem_of_nil in Hin|].
  cbn. destruct (Hall a) as [[b Hb]|Ha]; [left| |by rewrite Ha].
  rewrite Hb. cbn.
  apply elem_of_cons in Hin as [->|Hin]; [congruence|].
  rewrite IH; [done| |done..]. intros ? ?. apply Hall. by right.
Qed.

Lemma store_pixel_shape p q : store_pixel p = Done q → length q = 3%nat.
Proof. destruct p as [|a [|b [|c [|? ?]]]]; cbn; intros; by simplify_eq. Qed.

(** A frame that [_replace_with_pixels] returns has the shape (rows,
    columns, 3), whatever the grid and the dictionaries. *)
Lemma decode_shape R C g dict f :
  decode R C g dict = Done f → frame_shaped R C f.
Proof.
  intros Hrows%for_each_inv. split.
  - apply Forall2_length in Hrows. by rewrite length_seq in Hrows.
  - apply Forall_forall. intros row Hrow.
    apply list_elem_of_lookup in Hrow as [i Hi].
    destruct (Forall2_lookup_r _ _ _ _ _ Hrows Hi) as (i' & _ & Hcols%for_each_inv).
    split.
    + apply Forall2_length in Hcols. by rewrite length_seq in Hcols.
    + apply Forall_forall. intros p Hp.
      apply list_elem_of_lookup in Hp as [j Hj].
      destruct (Forall2_lookup_r _ _ _ _ _ Hcols Hj) as (j' & _ & Hcell).
      destruct (g !! i' ≫= (.!! j')) as [key|]; [|done]. cbn in Hcell.
      destruct (dict !! i') as [d|]; [|done]. cbn in Hcell.
      destruct (d !! key) as [q|]; [|done]. cbn in Hcell.
      by eapply store_pixel_shape.
Qed.

(** One row of [_replace_with_pixels], when the ranks of the row are keys
    of its dictionary and the pixels have three channels. *)
Lemma decode_row C (g : list (list Z)) (dict : list (gmap Z pixel)) i r d :
  g !! i = Some r → length r = C → dict !! i = Some d →
  (∀ key, key ∈ r → ∃ p, d !! key = Some p ∧ length p = 3%nat) →
  for_each (λ column,
      key ← (g !! i ≫= (.!! column)) ?! IndexError;
      d ← (dict !! i) ?! IndexError;
      p ← (d !! key) ?! KeyError;
      store_pixel p) (seq 0 C)
  = Done (pixel_of d <$> r).
Proof.
  intros Hr Hlen Hd Hkeys.
  rewrite (for_each_map _ (λ column, pixel_of d (default 0 (r !! column)))).
  - f_equal. apply list_eq. intros j. rewrite !list_lookup_fmap.
    destruct (r !! j) as [key|] eqn:Hj.
    + rewrite lookup_seq_lt by (rewrite <- Hlen; by eapply lookup_lt_Some).
      cbn. by rewrite Hj.
    + apply lookup_ge_None in Hj. by rewrite lookup_seq_ge by lia.
  - intros j Hj%elem_of_seq. rewrite Hr. cbn.
    destruct (lookup_lt_is_Some_2 r j) as [key Hkey]; [lia|].
    rewrite Hkey, Hd. cbn.
    destruct (Hkeys key) as (p & Hp & Hp3); [by eapply list_elem_of_lookup_2|].
    unfold pixel_of. rewrite Hp. cbn. by apply store_pixel_rgb.
Qed.

Lemma ranks_elem_of C key : key ∈ ranks C ↔ 0 ≤ key < Z.of_nat C.
Proof.
  unfold ranks. rewrite list_elem_of_fmap. split.
  - intros (j & -> & Hj%elem_of_seq). lia.
  - intros Hk. exists (Z.to_nat key). split; [lia|]. apply elem_of_seq. lia.
Qed.

(** [_replace_with_pixels] through the dictionaries of
    [__replace_with_integers] for a rectangular RGB image: the cell that
    holds rank k in row i becomes the pixel of column k of row i of the
    image. *)
Lemma decode_rows im g :
  well_shaped im → depth im = 3%nat → length g = height im →
  Forall (λ r, length r = width im ∧ Forall (λ k, 0 ≤ k < Z.of_nat (width im)) r) g →
  decode (height im) (width im) g (replace_with_integers im).2
  = Done (imap (λ i r, (λ k, cell im i (Z.to_nat k)) <$> r) g).
Proof.
  intros Hshape Hdepth Hlen Hrows.
  destruct (replace_with_integers_dicts im) as (Hdicts & Hdict).
  set (dict := (replace_with_integers im).2) in *.
  rewrite Forall_lookup in Hrows.
  set (row_of := λ i : nat,
         (λ k, cell im i (Z.to_nat k)) <$> default [] (g !! i)).
  trans (Done (row_of <$> seq 0 (height im))).
  - unfold decode. apply for_each_map. intros i Hi%elem_of_seq.
    destruct (lookup_lt_is_Some_2 g i) as [r Hr]; [lia|].
    destruct (lookup_lt_is_Some_2 dict i) as [d Hd]; [lia|].
    destruct (Hrows _ _ Hr) as [Hri Hkeys]. rewrite Forall_forall in Hkeys.
    unfold row_of. replace (default [] (g !! i)) with r by (by rewrite Hr).
    rewrite (decode_row (width im) g dict i r d); [|done..|].
    + f_equal. apply list_fmap_ext. intros j k Hk%list_elem_of_lookup_2.
      unfold pixel_of. rewrite (Hdict _ _ Hd), decide_True by (by apply Hkeys). done.
    + intros key Hkey. rewrite (Hdict _ _ Hd), decide_True by (by apply Hkeys).
      eexists. split; [done|]. specialize (Hkeys _ Hkey).
      rewrite <- Hdepth. apply cell_depth; [done|lia..].
  - f_equal. apply list_eq. intros i.
    rewrite list_lookup_fmap, list_lookup_imap. rewrite <- Hlen.
    destruct (g !! i) as [r|] eqn:Hr.
    + rewrite lookup_seq_lt by (by eapply lookup_lt_Some). cbn.
      unfold row_of. by rewrite Hr.
    + apply lookup_ge_None in Hr. by rewrite lookup_seq_ge by lia.
Qed.

Lemma ranks_length C : length (ranks C) = C.
Proof. unfold ranks. by rewrite length_fmap, length_seq. Qed.

Lemma ranks_rows C (g : list (list Z)) :
  Forall (λ r, r ≡ₚ ranks C) g →
  Forall (λ r, length r = C ∧ Forall (λ k, 0 ≤ k < Z.of_nat C) r) g.
Proof.
  intros Hg. eapply Forall_impl; [exact Hg|]. cbn.
  intros r Hr. split; [by rewrite Hr, ranks_length|].
  apply Forall_forall. intros k Hk. rewrite Hr in Hk. by apply ranks_elem_of.
Qed.

Lemma cells_row im i r :
  well_shaped im → cells im !! i = Some r →
  (λ k, cell im i (Z.to_nat k)) <$> ranks (width im) = r.
Proof.
  intros Hshape Hr. pose proof (cells_of_well_shaped im Hshape) as Hcells.
  rewrite <- Hcells in Hr. rewrite list_lookup_fmap in Hr.
  destruct (seq 0 (height im) !! i) as [i'|] eqn:Hi; [|done].
  apply lookup_seq in Hi as [-> _]. cbn in Hr. simplify_eq.
  unfold ranks. rewrite <- list_fmap_compose. apply list_fmap_ext.
  intros j' j _. cbn. by rewrite Nat2Z.id.
Qed.

Lemma decode_rows_perm im g :
  well_shaped im → length g = height im → Forall (λ r, r ≡ₚ ranks (width im)) g →
  Forall2 (≡ₚ) (imap (λ i r, (λ k, cell im i (Z.to_nat k)) <$> r) g) (cells im).
Proof.
  intros Hshape Hlen Hperm. apply Forall2_same_length_lookup_2.
  - rewrite length_imap, Hlen. symmetry. apply Hshape.
  - intros i f r. rewrite list_lookup_imap. intros Hf Hr.
    destruct (g !! i) as [ri|] eqn:Hri; [|done]. cbn in Hf. simplify_eq.
    rewrite Forall_lookup in Hperm. rewrite (Hperm _ _ Hri).
    by rewrite (cells_row im i r).
Qed.

(** X2: through the dictionaries of [__replace_with_integers] for a
    rectangular RGB image, [_replace_with_pixels] decodes every grid whose
    rows hold the ranks 0, ..., C-1 once each, and every row of the frame
    holds the pixels of the same row of the image, reordered: pixels are
    conserved. *)
Theorem decode_conserves_pixels im g :
  well_shaped im → depth im = 3%nat →
  length g = height im → Forall (λ r, r ≡ₚ ranks (width im)) g →
  ∃ f, decode (height im) (width im) g (replace_with_integers im).2 = Done f
       ∧ Forall2 (≡ₚ) f (cells im).
Proof.
  intros Hshape Hdepth Hlen Hperm. eexists. split.
  - apply decode_rows; [done..|]. by apply ranks_rows.
  - by apply decode_rows_perm.
Qed.

Lemma decode_conserves_pixels_witness :
  well_shaped four_pixels ∧ depth four_pixels = 3%nat ∧
  length [[1; 0]; [0; 1]] = height four_pixels ∧
  Forall (λ r, r ≡ₚ ranks (width four_pixels)) [[1; 0]; [0; 1]] ∧
  ∃ f, decode 2 2 [[1; 0]; [0; 1]] (replace_with_integers four_pixels).2 = Done f
       ∧ Forall2 (≡ₚ) f (cells four_pixels).
Proof.
  assert (well_shaped four_pixels) as Hshape
    by (split; [reflexivity|repeat constructor]).
  assert (Forall (λ r, r ≡ₚ ranks (width four_pixels)) [[1; 0]; [0; 1]]) as Hperm
    by (repeat constructor; apply Permutation_swap).
  split; [done|]. split; [done|]. split; [done|]. split; [done|].
  by apply (decode_conserves_pixels four_pixels [[1; 0]; [0; 1]]).
Defined.

(** X3: a value that is not one of 0, ..., C-1 in a grid of the shape
    (rows, columns) makes [_replace_with_pixels] raise a KeyError, for the
    dictionaries of a rectangular RGB image. *)
Theorem decode_stray_rank im g i r j v :
  well_shaped im → depth im = 3%nat →
  length g = height im → Forall (λ r, length r = width im) g →
  g !! i = Some r → r !! j = Some v → ¬ 0 ≤ v < Z.of_nat (width im) →
  decode (height im) (width im) g (replace_with_integers im).2 = Raise KeyError.
Proof.
  intros Hshape Hdepth Hlen Hrows Hr Hv Hstray.
  destruct (replace_with_integers_dicts im) as (Hdicts & Hdict).
  set (dict := (replace_with_integers im).2) in *.
  rewrite Forall_lookup in Hrows.
  assert (∀ i' r' j' v', g !! i' = Some r' → r' !! j' = Some v' →
            ((∃ p, (key ← (g !! i' ≫= (.!! j')) ?! IndexError;
                    d ← (dict !! i') ?! IndexError;
                    p ← (d !! key) ?! KeyError; store_pixel p) = Done p)
             ∧ 0 ≤ v' < Z.of_nat (width im))
            ∨ ((key ← (g !! i' ≫= (.!! j')) ?! IndexError;
                d ← (dict !! i') ?! IndexError;
                p ← (d !! key) ?! KeyError; store_pixel p) = Raise KeyError
               ∧ ¬ 0 ≤ v' < Z.of_nat (width im))) as Hcell.
  { intros i' r' j' v' Hr' Hv'. rewrite Hr'. cbn. rewrite Hv'. cbn.
    destruct (lookup_lt_is_Some_2 dict i') as [d Hd];
      [rewrite Hdicts, <- Hlen; by eapply lookup_lt_Some|].
    rewrite Hd. cbn. rewrite (Hdict _ _ Hd). case_decide as Hk; cbn.
    - left. split; [|done]. eexists. apply store_pixel_rgb.
      rewrite <- Hdepth. apply cell_depth; [done| |lia].
      rewrite <- Hlen. by eapply lookup_lt_Some.
    - by right. }
  unfold decode. apply (for_each_raise _ _ i).
  - intros i' Hi'%elem_of_seq.
    destruct (lookup_lt_is_Some_2 g i') as [r' Hr']; [lia|].
    pose proof (Hrows _ _ Hr') as Hlen'.
    destruct (decide (Forall (λ v', 0 ≤ v' < Z.of_nat (width im)) r')) as [Hall|Hex].
    + left. destruct (lookup_lt_is_Some_2 dict i') as [d Hd]; [lia|].
      eexists. apply (decode_row _ _ _ _ r' d); [done..|].
      intros key Hkey. rewrite Forall_forall in Hall.
      rewrite (Hdict _ _ Hd). rewrite decide_True by (by apply Hall).
      eexists. split; [done|].
      rewrite <- Hdepth. apply cell_depth; [done|lia|]. specialize (Hall _ Hkey). lia.
    + right. apply not_Forall_Exists in Hex; [|apply _].
      apply Exists_exists in Hex as (v' & Hin & Hbad).
      apply list_elem_of_lookup in Hin as [j' Hv'].
      apply (for_each_raise _ _ j').
      * intros j'' Hj''%elem_of_seq.
        destruct (lookup_lt_is_Some_2 r' j'') as [v'' Hv'']; [lia|].
        destruct (Hcell _ _ _ _ Hr' Hv'') as [[[p Hp] _]|[Hraise _]]; eauto.
      * apply elem_of_seq. apply lookup_lt_Some in Hv'. lia.
      * by destruct (Hcell _ _ _ _ Hr' Hv') as [[_ ?]|[? _]].
  - apply elem_of_seq. apply lookup_lt_Some in Hr. lia.
  - apply (for_each_raise _ _ j).
    + intros j' Hj'%elem_of_seq. pose proof (Hrows _ _ Hr) as Hlen'.
      destruct (lookup_lt_is_Some_2 r j') as [v' Hv']; [lia|].
      destruct (Hcell _ _ _ _ Hr Hv') as [[[p Hp] _]|[Hraise _]]; eauto.
    + apply elem_of_seq. pose proof (Hrows _ _ Hr). apply lookup_lt_Some in Hv. lia.
    + by destruct (Hcell _ _ _ _ Hr Hv) as [[_ ?]|[? _]].
Qed.

Lemma decode_stray_rank_witness :
  well_shaped two_pixels ∧ depth two_pixels = 3%nat ∧
  decode 1 2 [[0; 2]] (replace_with_integers two_pixels).2 = Raise KeyError.
Proof.
  assert (well_shaped two_pixels) as Hshape
    by (split; [reflexivity|repeat constructor]).
  split; [done|]. split; [done|].
  apply (decode_stray_rank two_pixels [[0; 2]] 0 [0; 2] 1 2); try done.
  - by apply Forall_singleton.
  - change (¬ 0 ≤ 2 < 2). lia.
Defined.

(** ** The row sorter driver *)

Lemma longest_snoc m ts t : longest m (ts ++ [t]) = len t `max` longest m ts.
Proof. unfold longest. by rewrite foldl_app. Qed.

Lemma longest_cons m t ts : longest m (t :: ts) = longest (len t `max` m) ts.
Proof. done. Qed.

Lemma longest_bounds m ts :
  m ≤ longest m ts ∧ Forall (λ t, len t ≤ longest m ts) ts
  ∧ (longest m ts = m ∨ ∃ t, t ∈ ts ∧ longest m ts = len t).
Proof.
  revert m. induction ts as [|t ts IH]; intros m.
  - cbn. split; [lia|]. split; [constructor|by left].
  - rewrite longest_cons. destruct (IH (len t `max` m)) as (Hm & Hts & Hwhich).
    split; [lia|]. split.
    + constructor; [lia|done].
    + destruct Hwhich as [Heq|(t' & Hin & Heq)].
      * destruct (Z.max_spec (len t) m) as [[_ Hmax]|[_ Hmax]]; rewrite Hmax in *.
        -- by left.
        -- right. exists t. split; [left|done].
      * right. exists t'. split; [by right|done].
Qed.

Lemma longest_again m ts : longest (longest m ts) ts = longest m ts.
Proof.
  destruct (longest_bounds m ts) as (_ & Hts & _).
  generalize dependent (longest m ts). intros M HM.
  induction ts as [|t ts IH]; [done|].
  apply Forall_cons in HM as [Ht Hts]. rewrite longest_cons.
  rewrite Z.max_r by done. by apply IH.
Qed.

(** The loop of [sort] over the rows [a, ..., a+n-1]. *)
Lemma sort_rows m f a n e :
  sorting_methods e !! m = Some f → (a + n ≤ length (replaced e))%nat →
  for_ (seq a n) (λ row_index,
      row <- get_row row_index ;;
      e <- get ;;
      f <- lift (sorting_methods e !! m ?! KeyError) ;;
      let temp_swaps := f row in
      put (set_swaps e (swaps e ++ [temp_swaps]) (len temp_swaps `max` max_swaps e))) e
  = Ret () (set_swaps e (swaps e ++ (f <$> take n (drop a (replaced e))))
              (longest (max_swaps e) (f <$> take n (drop a (replaced e))))).
Proof.
  revert a e. induction n as [|n IH]; intros a e Hm Hlen.
  - cbn. rewrite app_nil_r. unfold ret. by destruct e.
  - destruct (lookup_lt_is_Some_2 (replaced e) a) as [r Hr]; [lia|].
    cbn [seq for_]. unfold bind at 1, bind at 1, get_row, bind at 1, get.
    rewrite Hr. unfold or_raise at 1, lift at 1.
    unfold bind at 1, get. unfold bind at 1. rewrite Hm.
    unfold or_raise at 1, lift at 1. unfold put.
    rewrite IH by (cbn; done || lia). cbn [replaced swaps max_swaps set_swaps].
    rewrite (drop_S _ _ _ Hr). cbn [take fmap list_fmap].
    rewrite <- app_assoc. cbn [app]. by rewrite longest_cons.
Qed.

Lemma sort_run m f e :
  sorting_methods e !! m = Some f → (rows e ≤ length (replaced e))%nat →
  sort m e
  = Ret () (set_swaps e (swaps e ++ (f <$> take (rows e) (replaced e)))
              (longest (max_swaps e) (f <$> take (rows e) (replaced e)))).
Proof.
  intros Hm Hlen. unfold sort, bind at 1, get, range.
  rewrite (sort_rows m f) by (done || lia). by rewrite drop_0.
Qed.

(** X4: with an algorithm of the registry, [sort] appends to the traces,
    in row order, what the algorithm returns for a copy of each row of
    the grid; the maximum trace length becomes the largest of its old
    value and the lengths of the new traces; the grid and the rest of the
    engine stay as they are. *)
Theorem sort_appends_traces m f e :
  sorting_methods e !! m = Some f → length (replaced e) = rows e →
  ∃ e', sort m e = Ret () e'
    ∧ swaps e' = swaps e ++ (f <$> replaced e)
    ∧ e' = set_swaps e (swaps e') (max_swaps e')
    ∧ max_swaps e ≤ max_swaps e'
    ∧ Forall (λ r, len (f r) ≤ max_swaps e') (replaced e)
    ∧ (max_swaps e' = max_swaps e ∨ ∃ r, r ∈ replaced e ∧ max_swaps e' = len (f r)).
Proof.
  intros Hm Hlen. eexists. split; [apply (sort_run m f); [done|lia]|].
  rewrite <- Hlen, firstn_all. cbn [swaps max_swaps set_swaps].
  destruct (longest_bounds (max_swaps e) (f <$> replaced e)) as (H1 & H2 & H3).
  split; [done|]. split; [done|]. split; [done|]. split.
  - rewrite Forall_fmap in H2. exact H2.
  - destruct H3 as [?|(t & (r & -> & ?)%list_elem_of_fmap & ?)]; eauto.
Qed.

Lemma sort_appends_traces_witness :
  sorting_methods shuffled_engine !! "bubble_sort"%string = Some recording_bubble_sort ∧
  length (replaced shuffled_engine) = rows shuffled_engine ∧
  ∃ e', sort "bubble_sort" shuffled_engine = Ret () e'
        ∧ swaps e' = [Swaps [(0, 1)]] ∧ max_swaps e' = 1.
Proof.
  assert (sorting_methods shuffled_engine !! "bubble_sort"%string
          = Some recording_bubble_sort) as Hm by (by vm_compute).
  assert (length (replaced shuffled_engine) = rows shuffled_engine) as Hlen by done.
  split; [done|]. split; [done|].
  destruct (sort_appends_traces "bubble_sort" recording_bubble_sort shuffled_engine
              Hm Hlen) as (e' & Hrun & Hs & He' & _).
  exists e'. split; [done|]. split; [by rewrite Hs|].
  rewrite sort_shuffled_engine in Hrun. by simplify_eq.
Defined.

(** X5: [sort] does not notice that it has run: a second call appends the
    same traces once more, and leaves the maximum trace length as the
    first call set it. *)
Theorem sort_twice_doubles_traces m f e :
  sorting_methods e !! m = Some f → length (replaced e) = rows e →
  ∃ e1 e2, sort m e = Ret () e1 ∧ sort m e1 = Ret () e2
    ∧ swaps e2 = swaps e ++ (f <$> replaced e) ++ (f <$> replaced e)
    ∧ max_swaps e2 = max_swaps e1 ∧ replaced e2 = replaced e.
Proof.
  intros Hm Hlen. do 2 eexists.
  split; [apply (sort_run m f); [done|lia]|].
  split; [apply (sort_run m f); cbn; [done|lia]|].
  cbn [swaps max_swaps replaced rows set_swaps].
  rewrite <- Hlen, firstn_all. split; [by rewrite <- app_assoc|].
  split; [apply longest_again|done].
Qed.

Lemma sort_twice_doubles_traces_witness :
  sorting_methods shuffled_engine !! "bubble_sort"%string = Some recording_bubble_sort ∧
  length (replaced shuffled_engine) = rows shuffled_engine ∧
  ∃ e1 e2, sort "bubble_sort" shuffled_engine = Ret () e1
    ∧ sort "bubble_sort" e1 = Ret () e2
    ∧ swaps e2 = [Swaps [(0, 1)]; Swaps [(0, 1)]] ∧ max_swaps e2 = 1.
Proof.
  assert (sorting_methods shuffled_engine !! "bubble_sort"%string
          = Some recording_bubble_sort) as Hm by (by vm_compute).
  assert (length (replaced shuffled_engine) = rows shuffled_engine) as Hlen by done.
  split; [done|]. split; [done|].
  destruct (sort_twice_doubles_traces "bubble_sort" recording_bubble_sort
              shuffled_engine Hm Hlen) as (e1 & e2 & H1 & H2 & Hs & Hmax & _).
  exists e1, e2. split; [done|]. split; [done|]. split; [by rewrite Hs|].
  rewrite Hmax. rewrite sort_shuffled_engine in H1. by simplify_eq.
Defined.

(** ** Runs of [visualise] *)

(** [sort] only writes the traces and the maximum trace length. *)
Lemma sort_writes_traces m e e' :
  sort m e = Ret () e' → e' = set_swaps e (swaps e') (max_swaps e').
Proof.
  unfold sort, bind at 1, get.
  apply (for_invariant (λ e1, e1 = set_swaps e (swaps e1) (max_swaps e1)));
    [|by destruct e].
  intros row e1 e2 _ H1 Hrow.
  apply bind_Ret in Hrow as (r & ea & Hr & Hrow).
  unfold get_row, bind, get in Hr. apply lift_Ret in Hr as [_ ->].
  unfold bind at 1, get in Hrow.
  apply bind_Ret in Hrow as (f & eb & [_ ->]%lift_Ret & Hput).
  cbv [put] in Hput. simplify_eq. rewrite H1. done.
Qed.

(** A run on an engine without traces that returns has sorted first. *)
Lemma visualise_inv_sort {X} (emit : SortingVisualiser → outcome X)
    fuel num_frames m e frames e' :
  swaps e = [] →
  visualise_with emit fuel num_frames m e = Ret frames e' →
  ∃ e1, sort m e = Ret () e1 ∧ swaps e1 ≠ []
        ∧ visualise_with emit fuel num_frames m e1 = Ret frames e'.
Proof.
  intros Hs Hrun. destruct (sort m e) as [[] e1| |] eqn:Hsort.
  - exists e1. split; [done|].
    destruct (swaps e1) as [|t ts] eqn:Hs1.
    + exfalso. revert Hrun. unfold visualise_with.
      set (rest := λ _ : (), bind (snapshot emit) _).
      cbv [bind get]. rewrite Hs, Hsort. subst rest. cbv [bind snapshot get lift].
      destruct (emit e1); [|done]. cbv [first_is_tuple bind get lift]. by rewrite Hs1.
    + split; [done|].
      by rewrite <- (visualise_sorts_first emit fuel num_frames m e e1 Hs Hsort)
        by (by rewrite Hs1).
  - exfalso. revert Hrun. unfold visualise_with.
    set (rest := λ _ : (), bind (snapshot emit) _).
    cbv [bind get]. by rewrite Hs, Hsort.
  - exfalso. revert Hrun. unfold visualise_with.
    set (rest := λ _ : (), bind (snapshot emit) _).
    cbv [bind get]. by rewrite Hs, Hsort.
Qed.

(** X6: the frames that [visualise] returns are at least one, and each
    has the shape (rows, columns, 3). *)
Theorem frames_have_shape fuel num_frames m e frames e' :
  visualise fuel num_frames m e = Ret frames e' →
  frames ≠ [] ∧ Forall (frame_shaped (rows e) (columns e)) frames.
Proof.
  assert (∀ e0 : SortingVisualiser, swaps e0 ≠ [] →
            visualise fuel num_frames m e0 = Ret frames e' →
            frames ≠ [] ∧ Forall (frame_shaped (rows e0) (columns e0)) frames) as Hhave.
  { intros e0 Hs Hrun.
    eapply (visualise_invariant _ (regridded e0)
              (λ fs _, fs ≠ [] ∧ Forall (frame_shaped (rows e0) (columns e0)) fs))
      in Hrun as [_ ?]; [done| | | | |done|apply regridded_refl].
    - intros row a b e1 e2 H1 [H2 _]%swap_pixels_rows. by eapply regridded_trans.
    - intros pos pos_end a b row e1 e2 H1 H2%splice_row_regridded.
      by eapply regridded_trans.
    - intros fs _ e2 f [_ Hfs] -> Hf. split; [by destruct fs|].
      apply Forall_app. split; [done|]. apply Forall_singleton.
      by apply decode_shape in Hf.
    - intros f0 Hf0%decode_shape. split; [done|]. by apply Forall_singleton. }
  intros Hrun. destruct (swaps e) as [|t ts] eqn:Hs.
  - apply visualise_inv_sort in Hrun as (e1 & Hsort%sort_writes_traces & Hs1 & Hrun);
      [|done].
    apply Hhave in Hrun; [|done]. by rewrite Hsort in Hrun.
  - apply Hhave; [by rewrite Hs|done].
Qed.

Lemma frames_have_shape_witness :
  ∃ frames e',
    visualise 3 2 "bubble_sort" shuffled_engine = Ret frames e' ∧
    frames ≠ [] ∧
    Forall (frame_shaped (rows shuffled_engine) (columns shuffled_engine)) frames.
Proof.
  destruct (visualise 3 2 "bubble_sort" shuffled_engine) as [frames e'| |] eqn:Hrun;
    [|by vm_compute in Hrun..].
  exists frames, e'. split; [done|].
  by apply (frames_have_shape 3 2 "bubble_sort" shuffled_engine frames e').
Defined.

(** X7: on an image without rows [sort] has nothing to do and stores no
    trace, whatever the algorithm identifier, and [visualise] then raises
    an IndexError at [self.swaps[0]], whatever the number of frames. *)
Theorem no_rows_index_error fuel num_frames m e :
  rows e = 0%nat → swaps e = [] →
  sort m e = Ret () e ∧ visualise fuel num_frames m e = Exc IndexError e.
Proof.
  intros Hrows Hs.
  assert (sort m e = Ret () e) as Hsort by (unfold sort, bind, get; by rewrite Hrows).
  split; [done|]. unfold visualise, visualise_with.
  set (rest := λ _ : (), bind (snapshot replace_with_pixels) _).
  cbv [bind get]. rewrite Hs, Hsort. subst rest.
  cbv [bind snapshot get lift replace_with_pixels decode]. rewrite Hrows. cbn.
  cbv [first_is_tuple bind get lift]. by rewrite Hs.
Qed.

Lemma no_rows_index_error_witness :
  rows empty_engine = 0%nat ∧ swaps empty_engine = [] ∧
  sort "bogo_sort" empty_engine = Ret () empty_engine ∧
  visualise 3 5 "bogo_sort" empty_engine = Exc IndexError empty_engine.
Proof.
  assert (rows empty_engine = 0%nat) as Hrows by done.
  assert (swaps empty_engine = []) as Hs by done.
  split; [done|]. split; [done|].
  apply (no_rows_index_error 3 5 "bogo_sort" empty_engine Hrows Hs).
Defined.

(** X8: the algorithm identifier is only looked up when [visualise] has
    to sort: on an engine that has its traces, [visualise] does the same
    with any identifier, one that is not in the registry too; on an engine
    that has none, it does what it does after [sort]. *)
Theorem sort_method_only_sorts fuel num_frames m e :
  (swaps e ≠ [] →
   ∀ m', visualise fuel num_frames m' e = visualise fuel num_frames m e)
  ∧ (swaps e = [] → ∀ e1, sort m e = Ret () e1 → swaps e1 ≠ [] →
     visualise fuel num_frames m e = visualise fuel num_frames m e1).
Proof.
  split.
  - intros Hs m'. unfold visualise, visualise_with.
    set (rest := λ _ : (), bind (snapshot replace_with_pixels) _).
    cbv [bind get]. by destruct (swaps e).
  - intros Hs e1 Hsort Hs1. by apply visualise_sorts_first.
Qed.

Lemma sort_method_only_sorts_witness :
  swaps swapped_engine ≠ [] ∧ swaps shuffled_engine = [] ∧
  visualise 3 2 "bogo_sort" swapped_engine = visualise 3 2 "bubble_sort" swapped_engine ∧
  visualise 3 2 "bubble_sort" shuffled_engine
  = visualise 3 2 "bubble_sort" swapped_engine.
Proof.
  assert (swaps swapped_engine ≠ []) as Hs by done.
  split; [done|]. split; [done|].
  destruct (sort_method_only_sorts 3 2 "bubble_sort" swapped_engine) as [Hany _].
  destruct (sort_method_only_sorts 3 2 "bubble_sort" shuffled_engine) as [_ Hfirst].
  split; [by apply Hany|].
  by apply (Hfirst eq_refl swapped_engine sort_shuffled_engine).
Defined.

(** ** Swaps and flips *)

Lemma index_lt n i k : Py.index n i = Some k → (k < n)%nat.
Proof.
  unfold Py.index. intros H.
  destruct (Z.leb_spec 0 i), (Z.ltb_spec i (Z.of_nat n)); cbn in H; simplify_eq; try lia.
  all: destruct (Z.leb_spec (- Z.of_nat n) i), (Z.ltb_spec i 0); cbn in H;
    simplify_eq; lia.
Qed.

Lemma swap_cells_inv r i j r' :
  swap_cells r i j = Done r' →
  ∃ i' j' vi vj, Py.index (length r) i = Some i' ∧ Py.index (length r) j = Some j'
    ∧ r !! i' = Some vi ∧ r !! j' = Some vj ∧ r' = <[j' := vi]> (<[i' := vj]> r).
Proof.
  unfold swap_cells. intros H.
  destruct (Py.index (length r) j) as [j'|]; [|done]. cbn in H.
  destruct (r !! j') as [vj|] eqn:Hj; [|done]. cbn in H.
  destruct (Py.index (length r) i) as [i'|]; [|done]. cbn in H.
  destruct (r !! i') as [vi|] eqn:Hi; [|done]. cbn in H.
  simplify_eq. by exists i', j', vi, vj.
Qed.

(** X9: the swap of [__swap_pixels] undoes itself: the same pair of
    positions a second time gives the row back; the row keeps its
    length. *)
Theorem swap_twice_restores r i j r' :
  swap_cells r i j = Done r' →
  length r' = length r ∧ swap_cells r' i j = Done r.
Proof.
  intros (i' & j' & vi & vj & Hi & Hj & Hvi & Hvj & ->)%swap_cells_inv.
  assert (length (<[j' := vi]> (<[i' := vj]> r)) = length r) as Hlen
    by (by rewrite !length_insert).
  split; [done|].
  pose proof (lookup_lt_Some _ _ _ Hvi) as Hi'.
  pose proof (lookup_lt_Some _ _ _ Hvj) as Hj'.
  unfold swap_cells. rewrite Hlen, Hi, Hj. cbn.
  rewrite list_lookup_insert_eq by (by rewrite length_insert). cbn.
  destruct (decide (i' = j')) as [->|Hne].
  - rewrite list_lookup_insert_eq by (by rewrite length_insert). cbn.
    simplify_eq. by rewrite !list_insert_insert_eq, list_insert_id.
  - rewrite list_lookup_insert_ne, list_lookup_insert_eq by done. cbn. f_equal.
    apply list_eq. intros k.
    destruct (decide (k = j')) as [->|Hkj].
    + rewrite list_lookup_insert_eq by (by rewrite !length_insert). done.
    + rewrite list_lookup_insert_ne by done.
      destruct (decide (k = i')) as [->|Hki].
      * rewrite list_lookup_insert_eq by (by rewrite !length_insert). done.
      * by rewrite !list_lookup_insert_ne by done.
Qed.

Lemma swap_twice_restores_witness :
  swap_cells [3; 1; 2; 0] 0 (-1) = Done [0; 1; 2; 3] ∧
  swap_cells [0; 1; 2; 3] 0 (-1) = Done [3; 1; 2; 0].
Proof.
  assert (swap_cells [3; 1; 2; 0] 0 (-1) = Done [0; 1; 2; 3]) as H by done.
  split; [done|]. by apply (swap_twice_restores [3; 1; 2; 0] 0 (-1)).
Defined.

(** X10: [__reverse_image] puts the value of row i and column j at row
    R-1-i and column C-1-j, and so undoes itself. *)
Theorem reverse_image_cells (g : list (list Z)) C :
  Forall (λ r, length r = C) g →
  (∀ i j, (i < length g)%nat → (j < C)%nat →
     (reverse_image g !! (length g - 1 - i)%nat ≫= (.!! (C - 1 - j)%nat))
     = (g !! i ≫= (.!! j)))
  ∧ reverse_image (reverse_image g) = g.
Proof.
  intros Hrows. split.
  - intros i j Hi Hj. unfold reverse_image.
    destruct (lookup_lt_is_Some_2 g i) as [r Hr]; [done|].
    rewrite Forall_lookup in Hrows. pose proof (Hrows _ _ Hr) as Hlen.
    rewrite reverse_lookup by (rewrite length_fmap; lia).
    rewrite length_fmap.
    replace (length g - S (length g - 1 - i))%nat with i by lia.
    rewrite list_lookup_fmap, Hr. cbn.
    rewrite reverse_lookup by lia. rewrite Hlen. f_equal. lia.
  - unfold reverse_image. rewrite fmap_reverse, reverse_involutive.
    rewrite <- list_fmap_compose. rewrite <- (list_fmap_id g) at 2.
    apply list_fmap_ext. intros _ r _. cbn. apply reverse_involutive.
Qed.

Lemma reverse_image_cells_witness :
  Forall (λ r, length r = 2%nat) [[0; 1]; [2; 3]] ∧
  reverse_image [[0; 1]; [2; 3]] = [[3; 2]; [1; 0]] ∧
  reverse_image (reverse_image [[0; 1]; [2; 3]]) = [[0; 1]; [2; 3]].
Proof.
  assert (Forall (λ r, length r = 2%nat) [[0; 1]; [2; 3]]) as Hrows
    by (by repeat constructor).
  split; [done|]. split; [done|].
  by destruct (reverse_image_cells [[0; 1]; [2; 3]] 2 Hrows) as [_ ?].
Defined.

(** ** Requests that the loops cannot serve *)

Lemma swap_chunks_backwards fuel M sn step rem :
  step ≤ 0 → rem ≤ 0 → sn ≤ M → swap_chunks fuel M sn step rem = None.
Proof.
  intros Hstep Hrem. revert sn. induction fuel as [|fuel IH]; intros sn Hsn; [done|].
  cbn [swap_chunks]. destruct (Z.leb_spec sn M); [|lia].
  unfold take_extra. destruct (Z.ltb_spec 0 rem); [lia|]. rewrite IH; [done|lia].
Qed.

Lemma splice_chunks_backwards fuel M sn step rem :
  step ≤ 0 → rem ≤ 0 → sn < M → splice_chunks fuel M sn step rem = None.
Proof.
  intros Hstep Hrem. revert sn. induction fuel as [|fuel IH]; intros sn Hsn; [done|].
  cbn [splice_chunks]. destruct (Z.ltb_spec sn M); [|lia].
  unfold take_extra. destruct (Z.ltb_spec 0 rem); [lia|]. rewrite IH; [done|lia].
Qed.

(** X11: a request for no frame, or for a negative number of frames, is
    not refused: with a positive maximum trace length the step is not
    positive, [swap_num] never passes the maximum, and [visualise] never
    returns, in either mode. *)
Theorem nonpositive_frames_never_return fuel num_frames m e frames e' :
  swaps e ≠ [] → 0 < max_swaps e → num_frames ≤ 0 →
  visualise fuel num_frames m e ≠ Ret frames e'.
Proof.
  intros Hs HM Hnf (f0 & _ & _ & Hloop)%visualise_inv; [|done].
  set (n := num_frames - 1) in *. assert (n < 0) as Hn by (unfold n; lia).
  pose proof (Z.mod_neg_bound (max_swaps e) n Hn) as Hmod.
  assert (max_swaps e `div` n ≤ 0) as Hdiv.
  { pose proof (Z.div_mod (max_swaps e) n ltac:(lia)). nia. }
  assert (max_swaps e `quot` n ≤ 0) as Hquot.
  { replace n with (- - n) by lia. rewrite Z.quot_opp_r by lia.
    pose proof (Z.quot_pos (max_swaps e) (- n)). lia. }
  destruct Hloop as [[_ Hrun]|[_ Hrun]].
  - apply swap_loop_returns in Hrun as (chunks & Hcs & _).
    rewrite swap_chunks_backwards in Hcs; [done|lia..].
  - apply splice_loop_returns in Hrun as (chunks & Hcs & _).
    rewrite splice_chunks_backwards in Hcs; [done|lia..].
Qed.

Lemma nonpositive_frames_never_return_witness :
  swaps swapped_engine ≠ [] ∧ 0 < max_swaps swapped_engine ∧ 0 ≤ 0 ∧
  visualise 50 0 "bubble_sort" swapped_engine = Timeout.
Proof.
  assert (swaps swapped_engine ≠ []) as Hs by done.
  assert (0 < max_swaps swapped_engine) as HM by done.
  split; [done|]. split; [done|]. split; [done|].
  destruct (visualise 50 0 "bubble_sort" swapped_engine) as [frames e'|x e'|] eqn:Hrun;
    [|by vm_compute in Hrun|done].
  by destruct (nonpositive_frames_never_return 50 0 "bubble_sort" swapped_engine
                 frames e' Hs HM (Z.le_refl 0)).
Defined.

(** X12: in snapshot-splice mode a request for two frames makes one
    chunk of the whole trace; when the length of the trace of row 0 is a
    multiple of the number of columns (as it is after whole passes) and
    longer than one value, the cursor comes back to where it is, the
    target slice is empty, and the assignment raises a ValueError before
    anything is written. *)
Theorem one_chunk_splice_fails fuel m e l ts r f0 k :
  swaps e = Values l :: ts → max_swaps e = Z.of_nat (length l) →
  (0 < rows e)%nat → replaced e !! 0%nat = Some r →
  length l = (k * columns e)%nat → (2 ≤ length l)%nat →
  replace_with_pixels e = Done f0 →
  visualise (S fuel) 2 m e = Exc ValueError e.
Proof.
  intros Hs HM Hrows Hr Hk Hlen Hf0.
  destruct l as [|v l']; [cbn in Hlen; lia|].
  unfold visualise. erewrite visualise_out_of_place; [|done|done|lia].
  rewrite splice_loop_turn.
  destruct (Z.ltb_spec 0 (max_swaps e)) as [_|]; [|cbn [length] in HM; lia].
  replace (max_swaps e `mod` (2 - 1)) with 0 by (by rewrite Z.mod_1_r).
  replace (max_swaps e `quot` (2 - 1)) with (max_swaps e) by (by rewrite Z.quot_1_r).
  cbn [take_extra Z.ltb Z.compare fst snd]. rewrite Z.add_0_l, Z.add_0_r.
  assert (columns e ≠ 0%nat) as HC by (intros HC; rewrite HC in Hk; lia).
  assert (cursor_end e 0 0 (max_swaps e) = Done 0) as Hcursor.
  { unfold cursor_end. rewrite Hs. cbn [lookup list_lookup or_raise mbind outcome_bind].
    rewrite slice_len_clipped by lia. cbn [len]. rewrite <- HM.
    replace (0 + (max_swaps e - 0) `min` (0 `max` (max_swaps e - 0)))
      with (max_swaps e) by lia.
    unfold Py.modulo. destruct (Z.eqb_spec (Z.of_nat (columns e)) 0); [lia|].
    rewrite HM, Hk, Nat2Z.inj_mul, Z.mod_mul by lia. done. }
  unfold bind at 1, splice_frame, bind at 1, get. unfold bind at 1.
  rewrite Hcursor. unfold lift at 1. unfold bind at 1.
  destruct (rows e) as [|n] eqn:Hn; [lia|].
  unfold range. cbn [seq for_]. unfold bind at 1.
  assert (splice_row 0 0 0 (max_swaps e) 0 e = Exc ValueError e) as Hrow.
  { unfold splice_row, bind at 1, get. cbn [Z.ltb Z.compare].
    unfold splice, bind at 1, get. unfold bind at 1. rewrite Hs.
    cbn [lookup list_lookup or_raise lift]. unfold bind at 1, get_row, bind at 1, get.
    rewrite Hr. cbn [or_raise lift]. unfold bind at 1.
    rewrite slice_to_end by lia. rewrite drop_0.
    unfold Np.assign_slice. cbn [Z.to_nat]. rewrite Nat.min_0_l, Nat.sub_diag.
    destruct (decide (length (v :: l') = 0%nat)) as [Hz|_]; [cbn in Hz; lia|].
    destruct l' as [|? ?]; [cbn in Hlen; lia|]. done. }
  by rewrite Hrow.
Qed.

Lemma one_chunk_splice_fails_witness :
  swaps spliced_engine = [Values [0; 1]] ∧
  max_swaps spliced_engine = Z.of_nat (length [0; 1]) ∧
  visualise 1 2 "counting_sort" spliced_engine = Exc ValueError spliced_engine.
Proof.
  split; [done|]. split; [done|].
  apply (one_chunk_splice_fails 0 "counting_sort" spliced_engine [0; 1] [] [1; 0]
           [[ [x04; x05; x06]; [x01; x02; x03] ]] 1).
  - reflexivity.
  - reflexivity.
  - cbv. lia.
  - reflexivity.
  - reflexivity.
  - cbv. lia.
  - vm_compute. reflexivity.
Defined.

(** ** Swap replay on a well-formed engine *)

Lemma index_valid n i :
  - Z.of_nat n ≤ i < Z.of_nat n → ∃ k, Py.index n i = Some k.
Proof.
  intros Hi. unfold Py.index.
  destruct (Z.leb_spec 0 i), (Z.ltb_spec i (Z.of_nat n)); cbn; eauto; try lia.
  destruct (Z.leb_spec (- Z.of_nat n) i), (Z.ltb_spec i 0); cbn; eauto; lia.
Qed.

Lemma swap_cells_valid r i j :
  - Z.of_nat (length r) ≤ i < Z.of_nat (length r) →
  - Z.of_nat (length r) ≤ j < Z.of_nat (length r) →
  ∃ r', swap_cells r i j = Done r' ∧ length r' = length r.
Proof.
  intros [i' Hi]%index_valid [j' Hj]%index_valid. unfold swap_cells.
  rewrite Hi, Hj. cbn.
  destruct (lookup_lt_is_Some_2 r i') as [vi Hvi]; [by eapply index_lt|].
  destruct (lookup_lt_is_Some_2 r j') as [vj Hvj]; [by eapply index_lt|].
  rewrite Hvi, Hvj. cbn. eexists. split; [done|]. by rewrite !length_insert.
Qed.

Lemma apply_swaps_valid r ps :
  valid_swaps (length r) ps → ∃ r', apply_swaps r ps = Done r'.
Proof.
  revert r. induction ps as [|[i j] ps IH]; intros r Hps; cbn; [eauto|].
  apply Forall_cons in Hps as [[Hi Hj] Hps]. cbn in Hi, Hj.
  destruct (swap_cells_valid r i j Hi Hj) as (r1 & -> & Hlen). cbn.
  apply IH. by rewrite Hlen.
Qed.

Lemma valid_swaps_slice n l a b : valid_swaps n l → valid_swaps n (Py.slice l a b).
Proof. intros Hl. unfold Py.slice. by apply Forall_take, Forall_drop. Qed.

Lemma swap_ready_regridded e e' :
  swap_ready e → regridded e e' → Forall2 (≡ₚ) (replaced e') (replaced e) →
  swap_ready e'.
Proof.
  intros (Henc & Hlen & Hperm & Hts) Hre Hrows. rewrite Hre. unfold swap_ready. cbn.
  split; [exact Henc|]. split; [by rewrite (Forall2_length _ _ _ Hrows)|].
  split; [|done].
  apply Forall_lookup. intros i r' Hr'.
  destruct (Forall2_lookup_l _ _ _ _ _ Hrows Hr') as (r & Hr & Hrr).
  rewrite Hrr. by eapply (proj1 (Forall_lookup _ _) Hperm).
Qed.

Lemma swap_pixels_ready row a b e :
  swap_ready e → (row < rows e)%nat →
  ∃ e', swap_pixels row a b e = Ret () e' ∧ swap_ready e'.
Proof.
  intros Hready Hrow. pose proof Hready as (_ & Hlen & Hperm & Hts).
  destruct (Hts row Hrow) as (l & Hl & _ & Hvalid).
  destruct (lookup_lt_is_Some_2 (replaced e) row) as [r Hr]; [lia|].
  rewrite Forall_lookup in Hperm. pose proof (Hperm _ _ Hr) as Hrp.
  destruct (apply_swaps_valid r (Py.slice l a b)) as [r' Hr'].
  { apply valid_swaps_slice. by rewrite Hrp, ranks_length. }
  exists (set_replaced e (<[row := r']> (replaced e))).
  pose proof (swap_pixels_run row a b e l r r' Hl Hr Hr') as Hrun.
  split; [done|]. apply swap_pixels_rows in Hrun as [Hre Hrows].
  by eapply swap_ready_regridded.
Qed.

(** A loop whose body always returns and keeps [I] returns and keeps [I]. *)
Lemma for_progress {A} (I : SortingVisualiser → Prop) (xs : list A) body e :
  (∀ x e1, x ∈ xs → I e1 → ∃ e2, body x e1 = Ret () e2 ∧ I e2) →
  I e → ∃ e', for_ xs body e = Ret () e' ∧ I e'.
Proof.
  revert e. induction xs as [|x xs IH]; intros e Hbody HI; [by exists e|].
  destruct (Hbody x e) as (e1 & Hx & HI1); [left|done|].
  destruct (IH e1) as (e' & Hrest & HI'); [|done|].
  { intros y ? ? ?. apply Hbody; [by right|done]. }
  exists e'. cbn [for_]. unfold bind. by rewrite Hx.
Qed.

Lemma swap_ready_decodes e :
  swap_ready e →
  ∃ f, replace_with_pixels e = Done f ∧ Forall2 (≡ₚ) f (cells (original e)).
Proof.
  intros ((Hshape & Hdepth & Hrows & Hcols & Hdict) & Hlen & Hperm & _).
  unfold replace_with_pixels. rewrite Hrows, Hcols, Hdict. rewrite Hcols in Hperm.
  eexists. split.
  - apply decode_rows; [done..|lia|]. by apply ranks_rows.
  - apply decode_rows_perm; [done|lia|done].
Qed.

Lemma swap_rows_ready a b e :
  swap_ready e →
  ∃ e', for_ (range (rows e)) (λ row, swap_pixels row a b) e = Ret () e'
        ∧ swap_ready e' ∧ regridded e e'.
Proof.
  intros Hready.
  destruct (for_progress (λ e1, swap_ready e1 ∧ regridded e e1)
              (range (rows e)) (λ row, swap_pixels row a b) e) as (e' & He' & ? & ?).
  - intros row e1 Hrow [Hr1 Hre].
    destruct (swap_pixels_ready row a b e1 Hr1) as (e2 & He2 & Hr2).
    { rewrite Hre. cbn. unfold range in Hrow. apply elem_of_seq in Hrow. lia. }
    exists e2. split; [done|]. split; [done|].
    eapply regridded_trans; [done|]. by apply swap_pixels_rows in He2 as [? _].
  - split; [done|apply regridded_refl].
  - by exists e'.
Qed.

Lemma swap_frame_ready a b e :
  swap_ready e → max_swaps e ≠ 0 →
  ∃ f e', swap_frame replace_with_pixels a b e = Ret f e'
          ∧ swap_ready e' ∧ regridded e e'.
Proof.
  intros Hready Hmax.
  destruct (swap_rows_ready a b e Hready) as (e' & Hrows & Hready' & Hre).
  destruct (swap_ready_decodes e' Hready') as (f & Hf & _).
  exists f, e'. split; [|done].
  unfold swap_frame, bind at 1 2, get. rewrite Hrows.
  unfold bind at 1, snapshot, bind at 1, get, lift. rewrite Hf.
  unfold bind, lift, ret. by destruct (Z.eqb_spec (max_swaps e) 0).
Qed.

Lemma swap_frames_ready chunks frames e :
  swap_ready e → max_swaps e ≠ 0 →
  ∃ frames' e', swap_frames replace_with_pixels chunks frames e = Ret frames' e'
                ∧ swap_ready e' ∧ regridded e e'.
Proof.
  revert frames e. induction chunks as [|[a b] chunks IH]; intros frames e Hready Hmax.
  - exists frames, e. split; [done|]. split; [done|apply regridded_refl].
  - destruct (swap_frame_ready a b e Hready Hmax) as (f & e1 & Hf & Hready1 & Hre1).
    destruct (IH (frames ++ [f]) e1 Hready1) as (frames' & e' & Hrest & Hready' & Hre').
    { rewrite Hre1. done. }
    exists frames', e'. cbn [swap_frames]. unfold bind. rewrite Hf.
    split; [done|]. split; [done|]. by eapply regridded_trans.
Qed.

(** X13: swap replay on a well-formed engine returns.  When every row of
    the grid holds the ranks 0, ..., C-1 once each, every row has a trace
    of swaps of positions of the row, the first trace is not empty, and
    2 <= num_frames <= max_swaps + 1, [visualise] returns num_frames + 1
    frames, every row of the grid it leaves is the row it found with the
    whole trace of the row applied, the last frame is that grid decoded,
    every frame holds in each row the pixels of that row of the image,
    reordered, and the engine is again well formed, with
    nothing but its grid changed. *)
Theorem swap_replay_runs fuel num_frames m e p l0 ts :
  swap_ready e → swaps e = Swaps (p :: l0) :: ts →
  2 ≤ num_frames → num_frames - 1 ≤ max_swaps e → (Z.to_nat num_frames < fuel)%nat →
  ∃ frames e',
    visualise fuel num_frames m e = Ret frames e'
    ∧ Z.of_nat (length frames) = num_frames + 1
    ∧ swap_ready e' ∧ regridded e e'
    ∧ Forall (λ f, Forall2 (≡ₚ) f (cells (original e))) frames
    ∧ (∀ row r l, (row < rows e)%nat →
         replaced e !! row = Some r → swaps e !! row = Some (Swaps l) →
         ∃ r', apply_swaps r l = Done r' ∧ replaced e' !! row = Some r')
    ∧ ∃ f, last frames = Some f ∧ replace_with_pixels e' = Done f.
Proof.
  intros Hready Hs Hnf Hmax Hfuel.
  destruct (swap_ready_decodes e Hready) as (f0 & Hf0 & Hperm0).
  pose proof (visualise_in_place replace_with_pixels fuel num_frames m e p l0 ts f0
                Hs Hf0 ltac:(lia)) as Hloop. fold visualise in Hloop.
  assert (∃ frames e', visualise fuel num_frames m e = Ret frames e'
                       ∧ swap_ready e' ∧ regridded e e') as (frames & e' & Hrun & Hready' & Hre).
  { rewrite Hloop.
    rewrite (swap_loop_chunks _ _ _ _ _ _ _ _
               (swap_chunks_whole (max_swaps e) (num_frames - 1) fuel
                  ltac:(lia) ltac:(lia) ltac:(lia))).
    apply swap_frames_ready; [done|lia]. }
  exists frames, e'. split; [done|].
  split; [by eapply in_place_frame_count|]. split; [done|]. split; [done|].
  split.
  { rewrite Hloop in Hrun.
    apply (swap_loop_invariant replace_with_pixels
             (λ e1, swap_ready e1 ∧ original e1 = original e)
             (λ fs _, Forall (λ f, Forall2 (≡ₚ) f (cells (original e))) fs))
      in Hrun as [_ ?]; [done| | |done|by apply Forall_singleton].
    - intros row a b e1 e2 [Hr1 Ho1] [Hre2 Hrows2]%swap_pixels_rows.
      split; [by eapply swap_ready_regridded|]. rewrite Hre2. done.
    - intros fs e1 e2 f Hfs [Hr2 Ho2] Hf. apply Forall_app. split; [done|].
      apply Forall_singleton.
      destruct (swap_ready_decodes e2 Hr2) as (f' & Hf' & Hperm').
      rewrite Ho2 in Hperm'. rewrite Hf in Hf'. by injection Hf' as <-. }
  destruct (in_place_last_frame fuel num_frames m e p l0 ts frames e' Hs Hnf Hmax)
    as [Hrows (f & Hlast & Hf)]; [|done|].
  { intros row Hrow. destruct Hready as (_ & _ & _ & Hts).
    destruct (Hts row Hrow) as (l & ? & ? & _). eauto. }
  split; [done|]. exists f. split; [done|].
  unfold replace_with_pixels. rewrite Hre. done.
Qed.

(** ** From a fresh engine to the frames *)

Lemma reverse_image_length g : length (reverse_image g) = length g.
Proof. unfold reverse_image. by rewrite length_reverse, length_fmap. Qed.

Lemma init_fields algos shuffle im randomise reverse_ :
  let e := init algos shuffle im randomise reverse_ in
  original e = im ∧ rows e = height im ∧ columns e = width im
  ∧ replace_dict e = (replace_with_integers im).2
  ∧ swaps e = [] ∧ max_swaps e = 0 ∧ sorting_methods e = registry algos
  ∧ length (replaced e) = height im.
Proof.
  cbn. unfold init. pose proof (replace_with_integers_ranks im) as Hg.
  destruct (replace_with_integers im) as [g d]. cbn in *. split_and!; try done.
  subst g. destruct randomise, reverse_;
    by rewrite ?reverse_image_length; unfold randomise_image;
       rewrite ?length_imap, length_replicate.
Qed.

(** X14: [__init__] leaves a well-formed engine.  For a rectangular RGB
    image and a shuffle that permutes each row, whatever [randomise] and
    [reverse] are: the grid has one row per image row, each holding the
    ranks 0, ..., C-1 once each, no trace is captured, and the engine
    decodes to a frame whose rows hold the pixels of the same rows of the
    image, reordered. *)
Theorem init_well_formed algos shuffle im randomise reverse_ :
  well_shaped im → depth im = 3%nat → (∀ i r, shuffle i r ≡ₚ r) →
  let e := init algos shuffle im randomise reverse_ in
  encoded e ∧ length (replaced e) = rows e
  ∧ Forall (λ r, r ≡ₚ ranks (columns e)) (replaced e)
  ∧ swaps e = [] ∧ max_swaps e = 0
  ∧ ∃ f, replace_with_pixels e = Done f ∧ Forall2 (≡ₚ) f (cells im).
Proof.
  intros Hshape Hdepth Hshuffle e.
  destruct (init_fields algos shuffle im randomise reverse_)
    as (Ho & Hr & Hc & Hd & Hs & Hm & _ & Hlen). fold e in Ho, Hr, Hc, Hd, Hs, Hm, Hlen.
  pose proof (init_ranks algos shuffle im randomise reverse_ Hshuffle) as Hperm.
  cbn in Hperm. fold e in Hperm.
  split; [unfold encoded; by rewrite Ho|]. split; [by rewrite Hr|].
  split; [done|]. split; [done|]. split; [done|].
  unfold replace_with_pixels. rewrite Hr, Hc, Hd.
  rewrite Hc in Hperm. eexists. split.
  - apply decode_rows; [done..|]. by apply ranks_rows.
  - by apply decode_rows_perm.
Qed.

Lemma init_well_formed_witness :
  ∃ f, replace_with_pixels (init stand_ins flip four_pixels true true) = Done f
       ∧ Forall2 (≡ₚ) f (cells four_pixels).
Proof.
  assert (well_shaped four_pixels) as Hshape
    by (split; [reflexivity|repeat constructor]).
  assert (∀ (i : nat) (r : list Z), flip i r ≡ₚ r) as Hflip
    by (intros i r; apply reverse_Permutation).
  by destruct (init_well_formed stand_ins flip four_pixels true true Hshape eq_refl Hflip)
    as (_ & _ & _ & _ & _ & ?).
Defined.

(** X15: [reverse] without [randomise] mirrors every row of the image and
    leaves the rows where they are: [np.flip] turns the grid around both
    axes, but before a shuffle all rows of the grid are the same, and a
    row is decoded through the dictionary of the place it is at. *)
Theorem reversed_engine_mirrors_rows algos shuffle im :
  well_shaped im → depth im = 3%nat →
  replace_with_pixels (init algos shuffle im false true) = Done (reverse <$> cells im).
Proof.
  intros Hshape Hdepth.
  destruct (init_fields algos shuffle im false true)
    as (_ & Hr & Hc & Hd & _ & _ & _ & _). cbn in Hr, Hc, Hd.
  unfold replace_with_pixels. rewrite Hr, Hc, Hd.
  assert (replaced (init algos shuffle im false true)
          = replicate (height im) (reverse (ranks (width im)))) as ->.
  { unfold init. pose proof (replace_with_integers_ranks im) as Hg.
    destruct (replace_with_integers im) as [g d]. cbn in *. subst g.
    unfold reverse_image. by rewrite fmap_replicate, reverse_replicate. }
  rewrite decode_rows; [|done|done|by rewrite length_replicate|].
  - f_equal. apply list_eq. intros i. rewrite list_lookup_imap, list_lookup_fmap.
    destruct (cells im !! i) as [r|] eqn:Hri.
    + rewrite lookup_replicate_2
        by (destruct Hshape as [<- _]; by eapply lookup_lt_Some).
      cbn. by rewrite fmap_reverse, (cells_row im i r).
    + apply lookup_ge_None in Hri. destruct Hshape as [Hh _].
      rewrite (proj1 (lookup_replicate_None _ _ _)) by lia. done.
  - apply Forall_replicate. split.
    + by rewrite length_reverse, ranks_length.
    + apply Forall_forall. intros k Hk. rewrite elem_of_reverse in Hk.
      by apply ranks_elem_of in Hk.
Qed.

Lemma reversed_engine_mirrors_rows_witness :
  replace_with_pixels (init stand_ins keep four_pixels false true)
  = Done [[ [x04; x05; x06]; [x01; x02; x03] ];
          [ [x0a; x0b; x0c]; [x07; x08; x09] ]].
Proof.
  assert (well_shaped four_pixels) as Hshape
    by (split; [reflexivity|repeat constructor]).
  by rewrite (reversed_engine_mirrors_rows stand_ins keep four_pixels Hshape eq_refl).
Defined.

(** X16: [sort] with an in-place algorithm makes a well-formed engine
    ready for swap replay.  On an engine without traces whose rows hold the
    ranks once each, when the algorithm returns for every row of the grid
    swaps of positions of the row, [sort] returns, keeps the grid, and
    leaves one trace per row, none longer than the maximum it stores. *)
Theorem sort_makes_ready m f e :
  encoded e → length (replaced e) = rows e →
  Forall (λ r, r ≡ₚ ranks (columns e)) (replaced e) →
  swaps e = [] → sorting_methods e !! m = Some f →
  Forall (λ r, ∃ l, f r = Swaps l ∧ valid_swaps (columns e) l) (replaced e) →
  ∃ e', sort m e = Ret () e' ∧ swap_ready e'
        ∧ replaced e' = replaced e ∧ swaps e' = f <$> replaced e.
Proof.
  intros Henc Hlen Hperm Hs Hm Hf. eexists.
  split; [apply (sort_run m f); [done|lia]|].
  rewrite <- Hlen, firstn_all, Hs. cbn [app]. split; [|done].
  unfold swap_ready. cbn [swaps max_swaps replaced rows columns set_swaps].
  split; [exact Henc|]. split; [done|]. split; [done|].
  intros row Hrow.
  destruct (lookup_lt_is_Some_2 (replaced e) row) as [r Hr]; [lia|].
  rewrite Forall_lookup in Hf. destruct (Hf _ _ Hr) as (l & Hl & Hvalid).
  exists l. rewrite list_lookup_fmap, Hr. cbn. rewrite Hl. split; [done|].
  split; [|done].
  destruct (longest_bounds (max_swaps e) (f <$> replaced e)) as (_ & Hall & _).
  rewrite Forall_fmap, Forall_lookup in Hall. specialize (Hall _ _ Hr).
  cbn in Hall. by rewrite Hl in Hall.
Qed.

Lemma swap_replay_runs_witness :
  swap_ready uneven_engine ∧
  ∃ frames e', visualise 3 2 "bubble_sort" uneven_engine = Ret frames e'
    ∧ Z.of_nat (length frames) = 3
    ∧ replaced e' = [[0; 1]; [0; 1]].
Proof.
  assert (swap_ready uneven_engine) as Hready.
  { split; [|split; [reflexivity|split]].
    - split; [split; [reflexivity|repeat constructor]|].
      split; [reflexivity|]. split; [reflexivity|]. split; [reflexivity|].
      vm_compute. reflexivity.
    - change (replaced uneven_engine) with [[1; 0]; [0; 1]].
      apply Forall_cons. split; [apply Permutation_swap|]. by apply Forall_singleton.
    - intros [|[|row]] Hrow.
      + exists [(0, 1)]. split; [reflexivity|]. split; [cbv; discriminate|].
        apply Forall_singleton. cbn. lia.
      + exists []. split; [reflexivity|]. split; [cbv; discriminate|]. constructor.
      + cbn in Hrow. lia. }
  split; [done|].
  destruct (swap_replay_runs 3 2 "bubble_sort" uneven_engine (0, 1) [] [Swaps []]
              Hready eq_refl ltac:(lia) ltac:(cbv; discriminate) ltac:(cbv; lia))
    as (frames & e' & Hrun & Hlen & Hready' & Hre & _ & Hrows & _).
  exists frames, e'. split; [done|]. split; [done|].
  destruct (Hrows 0%nat [1; 0] [(0, 1)]) as (r0 & Hr0 & Hg0); [cbn; lia|done..|].
  destruct (Hrows 1%nat [0; 1] []) as (r1 & Hr1 & Hg1); [cbn; lia|done..|].
  vm_compute in Hr0, Hr1. simplify_eq.
  destruct Hready' as (_ & Hlen' & _).
  rewrite Hre in Hlen'. cbn in Hlen'.
  destruct (replaced e') as [|a [|b [|c g]]]; cbn in *; try done. by simplify_eq.
Defined.

Lemma sort_makes_ready_witness :
  encoded shuffled_engine ∧
  ∃ e', sort "bubble_sort" shuffled_engine = Ret () e' ∧ swap_ready e'
        ∧ swaps e' = [Swaps [(0, 1)]].
Proof.
  assert (encoded shuffled_engine) as Henc.
  { split; [split; [reflexivity|repeat constructor]|].
    split; [reflexivity|]. split; [reflexivity|]. split; [reflexivity|].
    vm_compute. reflexivity. }
  split; [done|].
  assert (Forall (λ r, r ≡ₚ ranks (columns shuffled_engine)) (replaced shuffled_engine))
    as Hperm by (apply Forall_singleton, Permutation_swap).
  assert (sorting_methods shuffled_engine !! "bubble_sort"%string
          = Some recording_bubble_sort) as Hm by (by vm_compute).
  assert (Forall (λ r, ∃ l, recording_bubble_sort r = Swaps l
                            ∧ valid_swaps (columns shuffled_engine) l)
            (replaced shuffled_engine)) as Hf.
  { apply Forall_singleton. exists [(0, 1)]. split; [reflexivity|].
    apply Forall_singleton. cbn. lia. }
  destruct (sort_makes_ready "bubble_sort" recording_bubble_sort shuffled_engine
              Henc eq_refl Hperm eq_refl Hm Hf) as (e' & Hrun & Hready & _ & Hs).
  by exists e'.
Defined.

(** X17: a fresh engine, end to end.  For a rectangular RGB image, a
    shuffle that permutes each row and an in-place algorithm of the
    registry that returns swaps of positions of the row for every row of
    the grid, at least one for the first row: with 2 <= num_frames <= M + 1,
    M the length of the longest trace, [visualise] sorts first and returns
    num_frames + 1 frames, every one of which holds in each row the pixels
    of that row of the image, reordered; every row of the grid is left as
    the row shuffled at construction with its whole trace applied. *)
Theorem fresh_engine_replays algos shuffle im randomise reverse_ fuel num_frames m f :
  well_shaped im → depth im = 3%nat → (∀ i r, shuffle i r ≡ₚ r) →
  let e := init algos shuffle im randomise reverse_ in
  registry algos !! m = Some f →
  Forall (λ r, ∃ l, f r = Swaps l ∧ valid_swaps (width im) l) (replaced e) →
  (∃ r p l, replaced e !! 0%nat = Some r ∧ f r = Swaps (p :: l)) →
  2 ≤ num_frames → num_frames - 1 ≤ longest 0 (f <$> replaced e) →
  (Z.to_nat num_frames < fuel)%nat →
  ∃ frames e',
    visualise fuel num_frames m e = Ret frames e'
    ∧ Z.of_nat (length frames) = num_frames + 1
    ∧ Forall (λ fr, Forall2 (≡ₚ) fr (cells im)) frames
    ∧ swaps e' = f <$> replaced e
    ∧ ∀ row r l, replaced e !! row = Some r → f r = Swaps l →
        ∃ r', apply_swaps r l = Done r' ∧ replaced e' !! row = Some r'.
Proof.
  intros Hshape Hdepth Hshuffle e Hm Hf (r0 & p & l0 & Hr0 & Hfr0) Hnf Hmax Hfuel.
  destruct (init_fields algos shuffle im randomise reverse_)
    as (Ho & Hr & Hc & Hd & Hs & Hmx & Hreg & Hlen).
  fold e in Ho, Hr, Hc, Hd, Hs, Hmx, Hreg, Hlen.
  pose proof (init_ranks algos shuffle im randomise reverse_ Hshuffle) as Hperm.
  cbn in Hperm. fold e in Hperm.
  assert (encoded e) as Henc by (unfold encoded; by rewrite Ho).
  assert (sort m e
          = Ret () (set_swaps e (f <$> replaced e) (longest 0 (f <$> replaced e))))
    as Hsort.
  { rewrite (sort_run m f) by (rewrite ?Hreg; done || lia).
    by rewrite Hr, <- Hlen, firstn_all, Hs, Hmx. }
  set (e1 := set_swaps e (f <$> replaced e) (longest 0 (f <$> replaced e))) in *.
  assert (swap_ready e1) as Hready.
  { split; [exact Henc|]. split; [cbn; lia|]. split; [done|].
    intros row Hrow. cbn in Hrow.
    destruct (lookup_lt_is_Some_2 (replaced e) row) as [r Hrr]; [lia|].
    rewrite Forall_lookup in Hf. destruct (Hf _ _ Hrr) as (l & Hl & Hvalid).
    exists l. cbn. rewrite list_lookup_fmap, Hrr. cbn. rewrite Hl.
    split; [done|]. split; [|by rewrite Hc].
    destruct (longest_bounds 0 (f <$> replaced e)) as (_ & Hall & _).
    rewrite Forall_fmap, Forall_lookup in Hall. specialize (Hall _ _ Hrr).
    cbn in Hall. by rewrite Hl in Hall. }
  assert (∃ ts, swaps e1 = Swaps (p :: l0) :: ts) as [ts Hs1].
  { cbn. destruct (replaced e) as [|r g]; [done|]. cbn in Hr0. simplify_eq.
    cbn. rewrite Hfr0. eauto. }
  destruct (swap_ready_decodes e1 Hready) as (f0 & Hf0 & Hperm0).
  pose proof (visualise_sorts_first replace_with_pixels fuel num_frames m e e1
                Hs Hsort ltac:(by rewrite Hs1)) as Hfirst.
  pose proof (visualise_in_place replace_with_pixels fuel num_frames m e1 p l0 ts f0
                Hs1 Hf0 ltac:(lia)) as Hloop.
  fold visualise in Hfirst, Hloop.
  assert (∃ frames e', visualise fuel num_frames m e1 = Ret frames e'
                       ∧ regridded e1 e') as (frames & e' & Hrun & Hre).
  { rewrite Hloop.
    rewrite (swap_loop_chunks _ _ _ _ _ _ _ _
               (swap_chunks_whole (max_swaps e1) (num_frames - 1) fuel
                  ltac:(lia) ltac:(cbn; lia) ltac:(lia))).
    destruct (swap_frames_ready
                (chunks_from (max_swaps e1) (num_frames - 1) 0 (Z.to_nat (num_frames - 1))
                 ++ [(max_swaps e1, max_swaps e1 + max_swaps e1 `div` (num_frames - 1))])
                [f0] e1 Hready ltac:(cbn; lia)) as (frames & e' & ? & _ & ?).
    by exists frames, e'. }
  exists frames, e'. split; [by rewrite Hfirst|].
  split; [eapply in_place_frame_count; [exact Hs1|done|cbn; lia|exact Hrun]|].
  split.
  { rewrite Hloop in Hrun.
    apply (swap_loop_invariant replace_with_pixels
             (λ e2, swap_ready e2 ∧ original e2 = im)
             (λ fs _, Forall (λ fr, Forall2 (≡ₚ) fr (cells im)) fs))
      in Hrun as [_ ?]; [done| | |done|].
    - intros row a b e2 e3 [Hr2 Ho2] [Hre3 Hrows3]%swap_pixels_rows.
      split; [by eapply swap_ready_regridded|]. rewrite Hre3. done.
    - intros fs e2 e3 fr Hfs [Hr3 Ho3] Hfr. apply Forall_app. split; [done|].
      apply Forall_singleton.
      destruct (swap_ready_decodes e3 Hr3) as (f' & Hf' & Hperm').
      rewrite Ho3 in Hperm'. rewrite Hfr in Hf'. by injection Hf' as <-.
    - apply Forall_singleton. by rewrite <- Ho. }
  split; [by rewrite Hre|].
  destruct (in_place_last_frame fuel num_frames m e1 p l0 ts frames e' Hs1 Hnf)
    as [Hrows _]; [cbn; lia| |done|].
  { intros row Hrow. destruct Hready as (_ & _ & _ & Hts).
    destruct (Hts row Hrow) as (l & ? & ? & _). eauto. }
  intros row r l Hrr Hl. apply (Hrows row r l).
  - cbn. apply lookup_lt_Some in Hrr. lia.
  - done.
  - cbn. by rewrite list_lookup_fmap, Hrr, <- Hl.
Qed.

Lemma fresh_engine_replays_witness :
  ∃ frames e',
    visualise 3 2 "bubble_sort" (init stand_ins flip two_pixels true false) = Ret frames e'
    ∧ Z.of_nat (length frames) = 3
    ∧ swaps e' = [Swaps [(0, 1)]]
    ∧ replaced e' !! 0%nat = Some [0; 1].
Proof.
  assert (well_shaped two_pixels) as Hshape
    by (split; [reflexivity|repeat constructor]).
  assert (∀ (i : nat) (r : list Z), flip i r ≡ₚ r) as Hflip
    by (intros i r; apply reverse_Permutation).
  assert (registry stand_ins !! "bubble_sort"%string = Some recording_bubble_sort)
    as Hm by (by vm_compute).
  assert (Forall (λ r, ∃ l, recording_bubble_sort r = Swaps l
                            ∧ valid_swaps (width two_pixels) l)
            (replaced (init stand_ins flip two_pixels true false))) as Hf.
  { apply Forall_singleton. exists [(0, 1)]. split; [reflexivity|].
    apply Forall_singleton. cbn. lia. }
  assert (∃ r p l, replaced (init stand_ins flip two_pixels true false) !! 0%nat = Some r
                   ∧ recording_bubble_sort r = Swaps (p :: l)) as Hfirst
    by (by exists [1; 0], (0, 1), []).
  destruct (fresh_engine_replays stand_ins flip two_pixels true false 3 2 "bubble_sort"
              recording_bubble_sort Hshape eq_refl Hflip Hm Hf Hfirst
              ltac:(lia) ltac:(cbv; discriminate) ltac:(cbv; lia))
    as (frames & e' & Hrun & Hlen & _ & Hs & Hrows).
  exists frames, e'. split; [done|]. split; [done|]. split; [done|].
  destruct (Hrows 0%nat [1; 0] [(0, 1)]) as (r' & Hr' & Hg); [done..|].
  vm_compute in Hr'. by simplify_eq.
Defined.

(** ** Snapshot replay on a well-formed engine *)

Lemma mod_offset C q x : 0 ≤ x < C → (C * q + x) `mod` C = x.
Proof. intros Hx. symmetry. by apply (Z.mod_unique _ _ q); [left|]. Qed.

Lemma slice_lookup {A} (l : list A) (a b : Z) (i : nat) :
  0 ≤ a ≤ b → b ≤ Z.of_nat (length l) → Z.of_nat i < b - a →
  Py.slice l a b !! i = l !! (Z.to_nat a + i)%nat.
Proof.
  intros Hab Hb Hi. unfold Py.slice, Py.bound.
  destruct (Z.ltb_spec a 0), (Z.ltb_spec b 0); try lia.
  rewrite lookup_take_lt by lia. rewrite lookup_drop. f_equal. lia.
Qed.

Lemma spliced_length C r l s : length (spliced C r l s) = length r.
Proof. unfold spliced. by rewrite length_imap. Qed.

Lemma spliced_0 C r l : spliced C r l 0 = r.
Proof.
  unfold spliced. apply list_eq. intros j. rewrite list_lookup_imap.
  destruct (r !! j); [|done]. cbn. by rewrite decide_False by lia.
Qed.

(** The latest position of the trace before [s] that is written at
    column [j], from the start [base] of the lap the cursor is in. *)
Lemma latest_in_lap C q p j :
  0 ≤ q → 0 ≤ j < C → j < p ≤ C →
  C * q + p - 1 - (C * q + p - 1 - j) `mod` C = C * q + j.
Proof.
  intros Hq Hj Hp.
  replace (C * q + p - 1 - j) with (C * q + (p - 1 - j)) by lia.
  rewrite mod_offset by lia. lia.
Qed.

Lemma latest_before_lap C q p j :
  1 ≤ q → 0 ≤ p ≤ j → j < C →
  C * q + p - 1 - (C * q + p - 1 - j) `mod` C = C * (q - 1) + j.
Proof.
  intros Hq Hp Hj.
  replace (C * q + p - 1 - j) with (C * (q - 1) + (C + p - 1 - j)) by lia.
  rewrite mod_offset by lia. lia.
Qed.

(** One slice assignment of the splice: the values [sn:se] of the trace,
    written from the cursor on without passing the end of the row. *)
Lemma assign_chunk C r l sn se :
  (0 < C)%nat → length r = C → 0 ≤ sn ≤ se → se ≤ Z.of_nat (length l) →
  sn `mod` Z.of_nat C + (se - sn) ≤ Z.of_nat C →
  Np.assign_slice (spliced C r l sn) (Z.to_nat (sn `mod` Z.of_nat C))
    (Z.to_nat (sn `mod` Z.of_nat C + (se - sn))) (Py.slice l sn se)
  = Done (spliced C r l se).
Proof.
  intros HC Hr Hs Hse Hfit.
  pose proof (Z.mod_pos_bound sn (Z.of_nat C) ltac:(lia)) as Hpos.
  pose proof (Z.div_mod sn (Z.of_nat C) ltac:(lia)) as Hsn.
  pose proof (Z.div_pos sn (Z.of_nat C) ltac:(lia) ltac:(lia)) as Hq.
  set (p := sn `mod` Z.of_nat C) in *. set (q := sn `div` Z.of_nat C) in *.
  clearbody p q. assert (0 ≤ Z.of_nat C * q) as Hbase by nia.
  assert (Z.of_nat (length (Py.slice l sn se)) = se - sn) as Hlen
    by (rewrite slice_length by lia; lia).
  unfold Np.assign_slice. rewrite spliced_length, Hr.
  rewrite !Nat.min_l by lia.
  rewrite decide_True by lia. f_equal.
  apply list_eq. intros j.
  destruct (decide (j < C)%nat) as [Hj|Hj].
  2:{ rewrite !lookup_ge_None_2; [done|rewrite spliced_length; lia|].
      rewrite !length_app, length_take, length_drop, spliced_length. lia. }
  destruct (lookup_lt_is_Some_2 r j) as [x Hx]; [lia|].
  assert (∀ s, spliced C r l s !! j
               = Some (if decide (Z.of_nat j < s)
                       then default x (l !! Z.to_nat
                              (s - 1 - (s - 1 - Z.of_nat j) `mod` Z.of_nat C))
                       else x)) as Hlook
    by (intros s; unfold spliced; by rewrite list_lookup_imap, Hx).
  destruct (decide (Z.of_nat j < p ∨ p + (se - sn) ≤ Z.of_nat j)) as [Hout|Hin].
  - destruct (patch_lookup (spliced C r l sn) (Py.slice l sn se) (Z.to_nat p)
                (Z.to_nat (p + (se - sn)) - Z.to_nat p) j) as [_ Hkeep];
      [lia|rewrite spliced_length; lia|].
    rewrite Hkeep by lia. rewrite !Hlook. f_equal.
    destruct Hout as [Hlow|Hhigh].
    + rewrite !decide_True by lia. do 3 f_equal.
      rewrite Hsn. rewrite (latest_in_lap _ q p) by lia.
      replace se with (Z.of_nat C * q + (p + (se - sn))) by lia.
      rewrite (latest_in_lap _ q (p + (se - sn))) by lia. done.
    + destruct (decide (q = 0)) as [Hq0|Hq1].
      * rewrite !decide_False by lia. done.
      * rewrite !decide_True by nia. do 3 f_equal.
        rewrite Hsn. rewrite (latest_before_lap _ q p) by lia.
        replace se with (Z.of_nat C * q + (p + (se - sn))) by lia.
        rewrite (latest_before_lap _ q (p + (se - sn))) by lia. done.
  - rewrite lookup_app_r by (rewrite length_take, spliced_length; lia).
    rewrite length_take, spliced_length, Hr.
    rewrite lookup_app_l by lia.
    rewrite slice_lookup by lia.
    rewrite Hlook, decide_True by lia.
    replace se with (Z.of_nat C * q + (p + (se - sn))) at 1 2 by lia.
    rewrite (latest_in_lap _ q (p + (se - sn))) by lia.
    replace (Z.to_nat (Z.of_nat C * q + Z.of_nat j))
      with (Z.to_nat sn + (j - Z.to_nat p `min` C))%nat by lia.
    destruct (lookup_lt_is_Some_2 l (Z.to_nat sn + (j - Z.to_nat p `min` C))%nat)
      as [v Hv]; [lia|]. by rewrite Hv.
Qed.

Lemma splice_values_run row lo hi a b e l r r' :
  swaps e !! row = Some (Values l) → replaced e !! row = Some r →
  Np.assign_slice r lo hi (Py.slice l a b) = Done r' →
  splice row lo hi a b e = Ret () (set_replaced e (<[row := r']> (replaced e))).
Proof.
  intros Hl Hr Hassign. unfold splice, bind at 1, get, bind at 1, lift at 1.
  rewrite Hl. cbn [or_raise]. unfold bind at 1, get_row, bind at 1, get, lift at 1.
  rewrite Hr. cbn [or_raise]. unfold bind at 1, lift. rewrite Hassign. done.
Qed.

(** Where the cursor is after [s] values. *)
Lemma cursor_wraps C sn se :
  0 < C → 0 ≤ sn ≤ se → se - sn < C →
  let p := sn `mod` C in
  (p + (se - sn) < C ∧ se `mod` C = p + (se - sn))
  ∨ (C ≤ p + (se - sn) ∧ se `mod` C = p + (se - sn) - C ∧ se `mod` C < p).
Proof.
  intros HC Hs Hn p.
  pose proof (Z.mod_pos_bound sn C HC) as Hp. fold p in Hp.
  pose proof (Z.div_mod sn C ltac:(lia)) as Hsn. fold p in Hsn.
  set (q := sn `div` C) in *. clearbody p q.
  destruct (decide (p + (se - sn) < C)) as [Hfit|Hwrap].
  - left. split; [done|].
    replace se with (C * q + (p + (se - sn))) at 1 by lia. apply mod_offset. lia.
  - right. split; [lia|].
    assert (se `mod` C = p + (se - sn) - C) as ->; [|lia].
    replace se with (C * (q + 1) + (p + (se - sn) - C)) at 1 by lia.
    apply mod_offset. lia.
Qed.

(** The body of the [for row] loop on a row that is spliced up to [sn],
    for a chunk shorter than the row. *)
Lemma splice_row_spliced row e r l sn se :
  let C := columns e in
  (0 < C)%nat → length r = C →
  swaps e !! row = Some (Values l) →
  replaced e !! row = Some (spliced C r l sn) →
  0 ≤ sn ≤ se → se ≤ Z.of_nat (length l) → se - sn < Z.of_nat C →
  splice_row (sn `mod` Z.of_nat C) (se `mod` Z.of_nat C) sn se row e
  = Ret () (set_replaced e (<[row := spliced C r l se]> (replaced e))).
Proof.
  intros C HC Hr Hl Hrow Hs Hse Hn.
  pose proof (Z.mod_pos_bound sn (Z.of_nat C) ltac:(lia)) as Hp.
  unfold splice_row, bind at 1, get. fold C.
  destruct (cursor_wraps (Z.of_nat C) sn se ltac:(lia) Hs Hn)
    as [[Hfit Hend]|(Hwrap & Hend & Hlt)]; cbn zeta in *.
  - destruct (Z.ltb_spec (se `mod` Z.of_nat C) (sn `mod` Z.of_nat C)); [lia|].
    apply (splice_values_run _ _ _ _ _ _ l (spliced C r l sn)); [done..|].
    rewrite Hend. apply assign_chunk; [done..|lia].
  - destruct (Z.ltb_spec (se `mod` Z.of_nat C) (sn `mod` Z.of_nat C)); [|lia].
    unfold bind at 1, get_row, bind at 1, get, lift at 1. rewrite Hrow. cbn [or_raise].
    set (mid := sn + (Z.of_nat C - sn `mod` Z.of_nat C)).
    assert (mid `mod` Z.of_nat C = 0) as Hmid.
    { pose proof (Z.div_mod sn (Z.of_nat C) ltac:(lia)) as Hsn. unfold mid.
      replace (sn + (Z.of_nat C - sn `mod` Z.of_nat C))
        with (Z.of_nat C * (sn `div` Z.of_nat C + 1) + 0) by lia.
      apply mod_offset. lia. }
    unfold bind at 1.
    rewrite (splice_values_run _ _ _ _ _ _ l (spliced C r l sn) (spliced C r l mid));
      [|done|done|].
    2:{ rewrite spliced_length, Hr.
        replace C with (Z.to_nat (sn `mod` Z.of_nat C + (mid - sn))) at 3
          by (unfold mid; lia).
        apply assign_chunk; [done..|unfold mid; lia|unfold mid; lia|unfold mid; lia]. }
    rewrite (splice_values_run _ _ _ _ _ _ l (spliced C r l mid) (spliced C r l se)).
    + cbn. by rewrite list_insert_insert_eq.
    + done.
    + cbn. apply list_lookup_insert_eq. by eapply lookup_lt_Some.
    + replace 0%nat with (Z.to_nat (mid `mod` Z.of_nat C)) by (rewrite Hmid; lia).
      replace (se `mod` Z.of_nat C) with (mid `mod` Z.of_nat C + (se - mid))
        by (unfold mid in *; lia).
      apply assign_chunk; [done..|unfold mid; lia|done|unfold mid in *; lia].
Qed.

(** A loop over the rows whose body returns and takes [I i] to
    [I (i + 1)] returns and takes [I a] to [I (a + n)]. *)
Lemma for_seq_progress (I : nat → SortingVisualiser → Prop) body a n e :
  (∀ i e1, (a ≤ i < a + n)%nat → I i e1 → ∃ e2, body i e1 = Ret () e2 ∧ I (S i) e2) →
  I a e → ∃ e', for_ (seq a n) body e = Ret () e' ∧ I (a + n)%nat e'.
Proof.
  revert a e. induction n as [|n IH]; intros a e Hbody HI.
  - exists e. split; [done|]. by rewrite Nat.add_0_r.
  - destruct (Hbody a e) as (e1 & Ha & HI1); [lia|done|].
    destruct (IH (S a) e1) as (e' & Hrest & HI'); [|done|].
    { intros i e2 Hi. apply Hbody. lia. }
    exists e'. cbn [seq for_]. unfold bind. rewrite Ha.
    split; [done|]. by replace (a + S n)%nat with (S a + n)%nat by lia.
Qed.

Lemma spliced_ranks C r l s :
  Forall (λ k, 0 ≤ k < Z.of_nat C) r → Forall (λ k, 0 ≤ k < Z.of_nat C) l →
  Forall (λ k, 0 ≤ k < Z.of_nat C) (spliced C r l s).
Proof.
  intros Hr Hl. apply Forall_lookup. intros j y. unfold spliced.
  rewrite list_lookup_imap. destruct (r !! j) as [x|] eqn:Hx; [|done]. cbn.
  rewrite Forall_lookup in Hr. specialize (Hr _ _ Hx).
  intros ?. simplify_eq. case_decide; [|done].
  destruct (l !! _) as [v|] eqn:Hv; [|done]. cbn.
  rewrite Forall_lookup in Hl. by eapply Hl.
Qed.

Lemma spliced_to_start e : length (replaced e) = rows e → spliced_to e e 0.
Proof.
  intros Hlen. split; [apply regridded_refl|]. split; [done|].
  intros row r l Hr _. by rewrite spliced_0.
Qed.

(** The engine decodes at every stage of the splice. *)
Lemma spliced_to_decodes e0 e1 s :
  splice_ready e0 → spliced_to e0 e1 s → ∃ f, replace_with_pixels e1 = Done f.
Proof.
  intros ((Hshape & Hdepth & Hrows & Hcols & Hdict) & Hlen & _ & Hgrid & Hts)
    (Hre & Hlen1 & Hrows1).
  unfold replace_with_pixels. rewrite Hre. cbn. rewrite Hrows, Hcols, Hdict.
  eexists. apply decode_rows; [done..|lia|].
  apply Forall_lookup. intros row r1 Hr1.
  destruct (lookup_lt_is_Some_2 (replaced e0) row) as [r Hr];
    [apply lookup_lt_Some in Hr1; lia|].
  destruct (Hts row) as (l & Hl & _ & Hlr); [apply lookup_lt_Some in Hr; lia|].
  rewrite (Hrows1 _ _ _ Hr Hl) in Hr1. simplify_eq.
  rewrite Forall_lookup in Hgrid. destruct (Hgrid _ _ Hr) as [Hrlen Hrr].
  rewrite <- Hcols. split; [by rewrite spliced_length|by apply spliced_ranks].
Qed.

(** One turn of the loop of the out-of-place branch on a well-formed
    engine, for a chunk shorter than a row. *)
Lemma splice_frame_spliced e0 e1 sn se :
  splice_ready e0 → spliced_to e0 e1 sn →
  0 ≤ sn ≤ se → se ≤ max_swaps e0 → se - sn < Z.of_nat (columns e0) →
  ∃ f e2, splice_frame replace_with_pixels (sn `mod` Z.of_nat (columns e0)) sn se e1
          = Ret (f, se `mod` Z.of_nat (columns e0)) e2
          ∧ spliced_to e0 e2 se.
Proof.
  intros Hready Hat Hs Hse Hn.
  pose proof Hready as (Henc & Hlen & Hrows & Hgrid & Hts).
  pose proof Hat as (Hre & Hlen1 & Hrows1).
  assert (0 < columns e0)%nat as HC by lia.
  set (C := columns e0) in *.
  destruct (for_seq_progress
              (λ i e2, regridded e0 e2 ∧ length (replaced e2) = rows e0 ∧
                 ∀ row r l, replaced e0 !! row = Some r →
                   swaps e0 !! row = Some (Values l) →
                   replaced e2 !! row
                   = Some (spliced C r l (if decide (row < i)%nat then se else sn)))
              (splice_row (sn `mod` Z.of_nat C) (se `mod` Z.of_nat C) sn se)
              0 (rows e0) e1) as (e2 & Hloop & Hre2 & Hlen2 & Hrows2).
  - intros i e2 Hi (Hre2 & Hlen2 & Hrows2).
    destruct (lookup_lt_is_Some_2 (replaced e0) i) as [r Hr]; [lia|].
    destruct (Hts i) as (l & Hl & HlM & _); [lia|].
    rewrite Forall_lookup in Hgrid. destruct (Hgrid _ _ Hr) as [Hrlen _].
    pose proof (Hrows2 _ _ _ Hr Hl) as Hri. rewrite decide_False in Hri by lia.
    assert (columns e2 = C) as HC2 by (by rewrite Hre2).
    eexists. split.
    + rewrite <- HC2. apply (splice_row_spliced i e2 r l sn se); rewrite ?HC2;
        [done|done|by rewrite Hre2|done|done|lia|done].
    + rewrite HC2. split; [eapply regridded_trans; [done|apply regridded_set]|].
      cbn. split; [by rewrite length_insert|].
      intros row r' l' Hr' Hl'. destruct (decide (row = i)) as [->|Hne].
      * simplify_eq. rewrite decide_True by lia.
        apply list_lookup_insert_eq. lia.
      * rewrite list_lookup_insert_ne by done. rewrite (Hrows2 _ _ _ Hr' Hl').
        do 2 f_equal. destruct (decide (row < i)%nat), (decide (row < S i)%nat);
          try done; lia.
  - split; [done|]. split; [done|]. intros row r l Hr Hl.
    rewrite decide_False by lia. by apply Hrows1.
  - assert (spliced_to e0 e2 se) as Hat2.
    { split; [done|]. split; [done|]. intros row r l Hr Hl.
      rewrite (Hrows2 _ _ _ Hr Hl). rewrite decide_True; [done|].
      apply lookup_lt_Some in Hr. lia. }
    destruct (spliced_to_decodes e0 e2 se Hready Hat2) as [f Hf].
    exists f, e2. split; [|done].
    destruct (Hts 0%nat Hrows) as (l0 & Hl0 & Hl0M & _).
    assert (swaps e1 = swaps e0 ∧ columns e1 = C ∧ rows e1 = rows e0)
      as (Hs1 & Hc1 & Hr1) by (by rewrite Hre).
    unfold splice_frame, bind at 1, get, bind at 1, cursor_end.
    rewrite Hs1, Hc1, Hl0. cbn [or_raise mbind outcome_bind].
    cbn [slice_len]. rewrite slice_length by lia. unfold Py.modulo.
    destruct (Z.eqb_spec (Z.of_nat C) 0); [lia|].
    replace ((se - sn) `min` (0 `max` (Z.of_nat (length l0) - sn))) with (se - sn) by lia.
    rewrite Z.add_mod_idemp_l by lia. replace (sn + (se - sn)) with se by lia.
    cbn [lift]. unfold bind at 1. rewrite Hr1.
    unfold range. rewrite Hloop.
    unfold bind at 1, snapshot, bind at 1, get, lift. by rewrite Hf.
Qed.

Lemma splice_frames_spliced e0 chunks a b frames e1 :
  splice_ready e0 → spliced_to e0 e1 a →
  0 ≤ a → contiguous chunks a b → b ≤ max_swaps e0 →
  Forall (λ c, chunk_size c < Z.of_nat (columns e0)) chunks →
  ∃ frames' e',
    splice_frames replace_with_pixels chunks (a `mod` Z.of_nat (columns e0)) frames e1
    = Ret frames' e' ∧ spliced_to e0 e' b.
Proof.
  intros Hready. revert a frames e1.
  induction chunks as [|[s t] chunks IH]; intros a frames e1 Hat Ha Hcs Hb Hsizes.
  - cbn in Hcs. subst b. by exists frames, e1.
  - destruct Hcs as (-> & Hat' & Hcs). apply Forall_cons in Hsizes as [Hsize Hsizes].
    unfold chunk_size in Hsize. cbn in Hsize.
    pose proof (contiguous_le _ _ _ Hcs) as Htb.
    destruct (splice_frame_spliced e0 e1 a t Hready Hat) as (f & e2 & Hf & Hat2);
      [lia..|].
    destruct (IH t (frames ++ [f]) e2 Hat2) as (frames' & e' & Hrest & Hat3);
      [lia|done..|].
    exists frames', e'. split; [|done].
    cbn [splice_frames]. unfold bind. by rewrite Hf.
Qed.

Lemma chunks_shorter_than_row M n C :
  0 < n → 0 ≤ M → M ≤ n * (C - 1) →
  Forall (λ c, chunk_size c < C) (chunks_from M n 0 (Z.to_nat n)).
Proof.
  intros Hn HM Hfit. apply Forall_lookup. intros i c Hc.
  assert (i < Z.to_nat n)%nat as Hi
    by (apply lookup_lt_Some in Hc; by rewrite chunks_from_length in Hc).
  rewrite chunks_from_lookup in Hc by done. simplify_eq.
  unfold chunk_size. cbn. rewrite boundary_size by lia.
  pose proof (Z.div_mod M n ltac:(lia)) as Hdm.
  pose proof (Z.mod_pos_bound M n Hn) as Hmod.
  destruct (Z.ltb_spec (0 + Z.of_nat i) (M `mod` n)); nia.
Qed.

(** When the trace is a whole number of passes over the row, the row is
    spliced to the last of them. *)
Lemma spliced_last_pass C r l :
  (0 < C)%nat → length r = C → (0 < length l)%nat →
  Z.of_nat (length l) `mod` Z.of_nat C = 0 →
  spliced C r l (Z.of_nat (length l)) = drop (length l - C) l.
Proof.
  intros HC Hr Hl Hmod.
  pose proof (Z.div_mod (Z.of_nat (length l)) (Z.of_nat C) ltac:(lia)) as Hdm.
  rewrite Hmod, Z.add_0_r in Hdm.
  set (k := Z.of_nat (length l) `div` Z.of_nat C) in *. clearbody k.
  assert (1 ≤ k) as Hk by nia.
  assert (Z.of_nat C ≤ Z.of_nat (length l)) as HCl by nia.
  apply list_eq. intros j. rewrite lookup_drop. unfold spliced.
  rewrite list_lookup_imap.
  destruct (decide (j < C)%nat) as [Hj|Hj].
  - destruct (lookup_lt_is_Some_2 r j) as [x Hx]; [lia|]. rewrite Hx. cbn.
    rewrite decide_True by nia.
    replace (Z.of_nat (length l) - 1 - Z.of_nat j)
      with (Z.of_nat C * (k - 1) + (Z.of_nat C - 1 - Z.of_nat j)) by nia.
    rewrite mod_offset by lia.
    replace (Z.to_nat (Z.of_nat (length l) - 1 - (Z.of_nat C - 1 - Z.of_nat j)))
      with (length l - C + j)%nat by lia.
    destruct (lookup_lt_is_Some_2 l (length l - C + j)) as [v Hv]; [nia|].
    by rewrite Hv.
  - rewrite (lookup_ge_None_2 r) by lia. cbn. symmetry. apply lookup_ge_None_2. lia.
Qed.

(** X18: snapshot replay on a well-formed engine returns.  When every
    row has a trace of ranks as long as the maximum M, the first trace is
    not empty, 2 <= num_frames <= M + 1 and M <= (num_frames - 1) * (C - 1),
    so that every chunk is shorter than a row, [visualise] returns
    num_frames frames and changes nothing but the grid: the column j of a
    row is left with the last value of its trace whose position is j
    modulo C.  When M is a multiple of C, the row is left as the last C
    values of its trace, the last pass of an out-of-place algorithm. *)
Theorem snapshot_replay_runs fuel num_frames m e v l0 ts :
  splice_ready e → swaps e = Values (v :: l0) :: ts →
  2 ≤ num_frames → num_frames - 1 ≤ max_swaps e →
  max_swaps e ≤ (num_frames - 1) * (Z.of_nat (columns e) - 1) →
  (Z.to_nat num_frames < fuel)%nat →
  ∃ frames e',
    visualise fuel num_frames m e = Ret frames e'
    ∧ Z.of_nat (length frames) = num_frames
    ∧ regridded e e'
    ∧ (∀ row r l, replaced e !! row = Some r → swaps e !! row = Some (Values l) →
         replaced e' !! row = Some (spliced (columns e) r l (max_swaps e))
         ∧ (max_swaps e `mod` Z.of_nat (columns e) = 0 →
            replaced e' !! row = Some (drop (length l - columns e) l)))
    ∧ ∃ f, last frames = Some f ∧ replace_with_pixels e' = Done f.
Proof.
  intros Hready Hs Hnf HM Hfit Hfuel.
  pose proof Hready as (_ & Hlen & _ & Hgrid & Hts).
  pose proof (spliced_to_start e Hlen) as Hat.
  destruct (spliced_to_decodes e e 0 Hready Hat) as [f0 Hf0].
  pose proof (visualise_out_of_place replace_with_pixels fuel num_frames m e v l0 ts f0
                Hs Hf0 ltac:(lia)) as Hloop. fold visualise in Hloop.
  set (n := num_frames - 1) in *.
  assert (∃ frames e', visualise fuel num_frames m e = Ret frames e'
                       ∧ spliced_to e e' (max_swaps e))
    as (frames & e' & Hrun & Hre & _ & Hrows).
  { rewrite Hloop.
    rewrite (splice_loop_chunks _ _ _ _ _ _ _ _ _
               (splice_chunks_whole (max_swaps e) n fuel
                  ltac:(lia) ltac:(lia) ltac:(lia))).
    destruct (splice_frames_spliced e (chunks_from (max_swaps e) n 0 (Z.to_nat n))
                0 (max_swaps e) [f0] e Hready Hat) as (frames & e' & Hrun & Hat');
      [done| |done| |].
    - pose proof (chunks_from_contiguous (max_swaps e) n 0 (Z.to_nat n)) as Hc.
      rewrite boundary_first, Z.add_0_l, Z2Nat.id, boundary_last in Hc by lia.
      apply Hc; lia.
    - apply chunks_shorter_than_row; lia.
    - rewrite Zmod_0_l in Hrun. by exists frames, e'. }
  exists frames, e'. split; [done|].
  split; [by eapply out_of_place_frame_count|]. split; [done|]. split.
  - intros row r l Hr Hl. split; [by apply Hrows|]. intros Hmod.
    rewrite (Hrows _ _ _ Hr Hl). f_equal.
    destruct (Hts row) as (l' & Hl' & HlM & _);
      [apply lookup_lt_Some in Hr; lia|].
    rewrite Hl in Hl'. simplify_eq.
    rewrite Forall_lookup in Hgrid. destruct (Hgrid _ _ Hr) as [Hrlen _].
    rewrite <- HlM. apply spliced_last_pass; [lia|done|lia|by rewrite HlM].
  - by apply visualise_last in Hrun as [_ ?]; [|rewrite Hs].
Qed.

Lemma snapshot_replay_runs_witness :
  splice_ready spliced_engine ∧
  ∃ frames e', visualise 4 3 "counting_sort" spliced_engine = Ret frames e'
    ∧ Z.of_nat (length frames) = 3
    ∧ replaced e' !! 0%nat = Some [0; 1].
Proof.
  assert (splice_ready spliced_engine) as Hready.
  { split; [|split; [reflexivity|split; [cbn; lia|split]]].
    - split; [split; [reflexivity|repeat constructor]|].
      split; [reflexivity|]. split; [reflexivity|]. split; [reflexivity|].
      vm_compute. reflexivity.
    - apply Forall_singleton. split; [reflexivity|].
      change (Forall (λ k, 0 ≤ k < 2) [1; 0]). repeat constructor; lia.
    - intros [|row] Hrow; [|cbn in Hrow; lia].
      exists [0; 1]. split; [reflexivity|]. split; [reflexivity|].
      change (Forall (λ k, 0 ≤ k < 2) [0; 1]). repeat constructor; lia. }
  split; [done|].
  destruct (snapshot_replay_runs 4 3 "counting_sort" spliced_engine 0 [1] [] Hready
              eq_refl ltac:(lia) ltac:(cbv; discriminate) ltac:(cbv; discriminate)
              ltac:(cbv; lia)) as (frames & e' & Hrun & Hlen & _ & Hrows & _).
  exists frames, e'. split; [done|]. split; [done|].
  by destruct (Hrows 0%nat [1; 0] [0; 1] eq_refl eq_refl) as [_ ->].
Defined.
